(** * gopswarm: the evaluation engine and the polyhedral projector

    A shallow embedding of package [optim] (points, the evaluator family,
    the penalty decorator) and of package [mesh] (affine projection and the
    active-set projector [Nearest]), with the properties of the
    specification stated over it.

    Conventions.
    - A Go [int] is a [Z]; a byte is a [Z] in [0, 256).
    - A Go [error] is an [option string]: [None] is [nil].
    - A run-time panic (index out of range, shape mismatch) is an outcome of
      its own, never a value.
    - The evaluators only store, copy and hash [float64] values, so they are
      generic in the type of floats and in [math.Float64bits].
    - The code that computes on floats is generic in a [Float64] arithmetic;
      properties that need the laws of arithmetic are stated at the exact
      instance on [Q].
    - The loop of [Nearest] has no bound in the code and takes a number of
      iterations here.  The calls to [fmt.Println] are left out. *)

From Stdlib Require Import ZArith QArith Qfield List Lia Lqa Bool.
From stdpp Require Import base option list gmap strings.

Import ListNotations.

#[local] Open Scope Z_scope.

(** Go's [error]: [nil] or a message. *)
Definition error : Type := option string.

Definition is_err (e : error) : bool :=
  match e with Some _ => true | None => false end.

(** [len(s)] of a slice, as a Go [int]. *)
Definition len {A : Type} (s : list A) : Z := Z.of_nat (length s).

(** [s[i]] with Go's bounds check: [None] stands for the index-out-of-range
    panic. *)
Definition index {A : Type} (s : list A) (i : Z) : option A :=
  if (i <? 0) then None else s !! Z.to_nat i.

(** [s[:h]] with Go's bounds check.  Go allows [h] up to the capacity of
    [s]; the one slice expression of the code has [h <= len(s)]. *)
Definition slice_to {A : Type} (s : list A) (h : Z) : option (list A) :=
  if (0 <=? h) && (h <=? len s) then Some (take (Z.to_nat h) s) else None.

Lemma len_app {A} (l1 l2 : list A) : len (l1 ++ l2) = len l1 + len l2.
Proof. unfold len. rewrite length_app. lia. Qed.

Lemma index_app_len {A} (l1 l2 : list A) (x : A) :
  index (l1 ++ x :: l2) (len l1) = Some x.
Proof.
  unfold index, len.
  destruct (Z.ltb_spec (Z.of_nat (length l1)) 0) as [?|_]; [lia|].
  rewrite Nat2Z.id. by apply list_lookup_middle.
Qed.

Lemma index_len {A} (l : list A) : index l (len l) = None.
Proof.
  unfold index, len.
  destruct (Z.ltb_spec (Z.of_nat (length l)) 0) as [?|_]; [done|].
  rewrite Nat2Z.id. by apply lookup_ge_None_2.
Qed.

(** * Floats and matrices

    The arithmetic of [float64] used by the code: its operators, [math.Sqrt]
    and the conversion of the constants written in the source. *)
Class Float64 (F : Type) : Type := {
  f_lit : Q -> F;
  f_add : F -> F -> F;
  f_sub : F -> F -> F;
  f_mul : F -> F -> F;
  f_div : F -> F -> F;
  f_gt : F -> F -> bool;
  f_eq : F -> F -> bool;
  f_sqrt : F -> F
}.

Declare Scope float_scope.
Delimit Scope float_scope with F.
Infix "+" := f_add : float_scope.
Infix "-" := f_sub : float_scope.
Infix "*" := f_mul : float_scope.
Infix "/" := f_div : float_scope.
Infix ">?" := f_gt (at level 70, no associativity) : float_scope.
Infix "=?" := f_eq : float_scope.

(** Exact arithmetic on the rationals.  The root is the largest rational
    of the denominator of its argument below the real root: it is the root
    itself on the squares of rationals.  A division by zero has no meaning
    in this instance and the properties stated at it exclude the case. *)
Definition Qsqrt (q : Q) : Q :=
  Z.sqrt (Qnum q * Z.pos (Qden q)) # Qden q.

#[export] Instance Q_Float64 : Float64 Q := {|
  f_lit := fun q => q;
  f_add := Qplus;
  f_sub := Qminus;
  f_mul := Qmult;
  f_div := Qdiv;
  f_gt := fun x y => negb (Qle_bool x y);
  f_eq := Qeq_bool;
  f_sqrt := Qsqrt
|}.

(** The operations of gonum's [mat64.Dense] that the code calls.  A matrix
    is the list of its rows together with its number of columns; [None] is
    the panic of the library on a shape mismatch or an index out of
    range. *)
Module Mat64.

Section Dense.

Context {F : Type} `{Float64 F}.

Record Dense : Type := mkDense { ncols : Z; rows : list (list F) }.

Definition Dims (A : Dense) : Z * Z := (len (rows A), ncols A).

(** The rows of [c] entries of row-major [data]. *)
Fixpoint chunks (r : nat) (c : nat) (data : list F) : list (list F) :=
  match r with
  | O => []
  | S r => take c data :: chunks r c (drop c data)
  end.

Definition NewDense (r c : Z) (data : list F) : option Dense :=
  if (0 <=? r) && (0 <=? c) && (len data =? r * c)
  then Some {| ncols := c; rows := chunks (Z.to_nat r) (Z.to_nat c) data |}
  else None.

Definition At (A : Dense) (i j : Z) : option F :=
  row ← index (rows A) i;
  index row j.

Definition Row (A : Dense) (i : Z) : option (list F) := index (rows A) i.

Definition Col (A : Dense) (j : Z) : option (list F) :=
  if (0 <=? j) && (j <? ncols A)
  then Some (omap (fun row => index row j) (rows A))
  else None.

Definition Scale (f : F) (A : Dense) : Dense :=
  {| ncols := ncols A; rows := map (map (fun x => f * x)%F) (rows A) |}.

Definition Stack (A B : Dense) : option Dense :=
  if ncols A =? ncols B
  then Some {| ncols := ncols A; rows := rows A ++ rows B |}
  else None.

Definition TCopy (A : Dense) : Dense :=
  {| ncols := len (rows A);
     rows := map (fun j => omap (fun row => row !! j) (rows A))
                 (seq 0 (Z.to_nat (ncols A))) |}.

Definition dot (u v : list F) : F :=
  fold_left (fun acc xy => acc + fst xy * snd xy)%F (combine u v)
            (f_lit 0).

Definition Mul (A B : Dense) : option Dense :=
  if ncols A =? len (rows B) then
    Some {| ncols := ncols B;
            rows := map (fun ra => map (dot ra) (rows (TCopy B))) (rows A) |}
  else None.

Definition zip_rows (f : F -> F -> F) (A B : Dense) : option Dense :=
  if (ncols A =? ncols B) && (len (rows A) =? len (rows B)) then
    Some {| ncols := ncols A;
            rows := zip_with (zip_with f) (rows A) (rows B) |}
  else None.

Definition Add : Dense -> Dense -> option Dense := zip_rows f_add.

Definition Sub : Dense -> Dense -> option Dense := zip_rows f_sub.

Lemma chunks_column (x0 : list F) :
  chunks (length x0) 1 x0 = map (fun x => [x]) x0.
Proof. induction x0 as [|x x0 IH]; simpl; [done|]. by rewrite drop_0, IH. Qed.

Lemma NewDense_column (x0 : list F) :
  NewDense (len x0) 1 x0 =
    Some {| ncols := 1; rows := map (fun x => [x]) x0 |}.
Proof.
  unfold NewDense, len.
  assert (Hc : (0 <=? Z.of_nat (length x0)) && (0 <=? 1)
               && (Z.of_nat (length x0) =? Z.of_nat (length x0) * 1) = true).
  { rewrite !andb_true_iff, !Z.leb_le, Z.eqb_eq. lia. }
  rewrite Hc, Nat2Z.id. change (Z.to_nat 1) with 1%nat.
  by rewrite chunks_column.
Qed.

Lemma omap_column (x0 : list F) :
  omap (fun row : list F => row !! 0%nat) (map (fun x => [x]) x0) = x0.
Proof.
  induction x0 as [|x x0 IH]; [done|].
  change (x :: omap (fun row : list F => row !! 0%nat)
                    (map (fun x => [x]) x0) = x :: x0).
  by rewrite IH.
Qed.

(** [A] times the column [x0]: one scalar product per row. *)
Lemma Mul_column (A : Dense) (x0 : list F) :
  ncols A = len x0 ->
  Mul A {| ncols := 1; rows := map (fun x => [x]) x0 |} =
    Some {| ncols := 1; rows := map (fun ra => [dot ra x0]) (rows A) |}.
Proof.
  intros Hn. unfold Mul, TCopy. cbn [ncols rows].
  assert (Hc : (ncols A =? len (map (fun x : F => [x]) x0)) = true).
  { apply Z.eqb_eq. rewrite Hn. unfold len. by rewrite length_map. }
  rewrite Hc. change (Z.to_nat 1) with 1%nat. cbn [seq map].
  by rewrite omap_column.
Qed.

End Dense.

Arguments Dense F : clear implicits.

End Mat64.

(** * SHA-1

    [crypto/sha1] is not part of the repository: the evaluators take the
    digest function as a parameter.  This is SHA-1 (FIPS 180-4) on lists of
    bytes, the function the parameter stands for, used where a property is
    evaluated on concrete points. *)

Module Sha1.

Definition w32 (x : Z) : Z := x mod 2 ^ 32.

Definition rotl (n x : Z) : Z :=
  w32 (Z.lor (Z.shiftl x n) (Z.shiftr x (32 - n))).

(** The [n] low bytes of [v], most significant first. *)
Definition be_bytes (n : nat) (v : Z) : list Z :=
  map (fun k => Z.land (Z.shiftr v (8 * Z.of_nat k)) 255) (rev (seq 0 n)).

Definition be_word (bs : list Z) : Z :=
  fold_left (fun acc b => acc * 256 + b) bs 0.

(** The message followed by the bit 1, zeros up to 56 modulo 64 bytes, and
    the length of the message in bits on eight bytes. *)
Definition pad (msg : list Z) : list Z :=
  let l := Z.of_nat (length msg) in
  msg ++ [128] ++ repeat 0 (Z.to_nat ((55 - l) mod 64)) ++ be_bytes 8 (8 * l).

Fixpoint split_every {A} (fuel n : nat) (l : list A) : list (list A) :=
  match fuel, l with
  | O, _ | _, [] => []
  | S fuel, _ => firstn n l :: split_every fuel n (skipn n l)
  end.

(** The message schedule, extended by [n] words. *)
Fixpoint schedule (n : nat) (w : list Z) : list Z :=
  match n with
  | O => w
  | S n =>
      let t := length w in
      let g i := nth (t - i) w 0 in
      schedule n
        (w ++ [rotl 1 (Z.lxor (Z.lxor (g 3%nat) (g 8%nat))
                              (Z.lxor (g 14%nat) (g 16%nat)))])
  end.

Definition state : Type := (Z * Z * Z * Z * Z)%type.

Definition round (st : state) (tw : nat * Z) : state :=
  let '(a, b, c, d, e) := st in
  let (t, w) := tw in
  let '(f, k) :=
    if (t <? 20)%nat then
      (Z.lor (Z.land b c) (Z.land (Z.lxor b 4294967295) d), 1518500249)
    else if (t <? 40)%nat then
      (Z.lxor (Z.lxor b c) d, 1859775393)
    else if (t <? 60)%nat then
      (Z.lor (Z.lor (Z.land b c) (Z.land b d)) (Z.land c d), 2400959708)
    else
      (Z.lxor (Z.lxor b c) d, 3395469782) in
  (w32 (rotl 5 a + f + e + k + w), a, rotl 30 b, c, d).

Definition block (h : state) (blk : list Z) : state :=
  let w := schedule 64 (map be_word (split_every 16 4 blk)) in
  let '(a, b, c, d, e) := fold_left round (combine (seq 0 80) w) h in
  let '(h0, h1, h2, h3, h4) := h in
  (w32 (h0 + a), w32 (h1 + b), w32 (h2 + c), w32 (h3 + d), w32 (h4 + e)).

Definition Sum (data : list Z) : list Z :=
  let p := pad data in
  let '(h0, h1, h2, h3, h4) :=
    fold_left block (split_every (length p) 64 p)
      (1732584193, 4023233417, 2562383102, 271733878, 3285377520) in
  flat_map (be_bytes 4) [h0; h1; h2; h3; h4].

End Sha1.

Example sha1_abc :
  Sha1.Sum [97; 98; 99] =
    [169; 153; 62; 54; 71; 6; 129; 106; 186; 62; 37; 113; 120; 80; 194; 108;
     156; 208; 216; 157].
Proof. vm_compute. reflexivity. Qed.

Example sha1_two_blocks :
  Sha1.Sum (flat_map (fun c => [c; c + 1; c + 2; c + 3])
              [97; 98; 99; 100; 101; 102; 103; 104; 105; 106; 107; 108; 109;
               110]) =
    [132; 152; 62; 68; 28; 59; 210; 110; 186; 174; 74; 161; 249; 81; 41; 229;
     229; 70; 112; 241].
Proof. vm_compute. reflexivity. Qed.

(** * Package optim: points, evaluators and the penalty *)
Module Optim.

Section Evalers.

(** [float64] and [math.Float64bits]; [crypto/sha1]'s [Sum]. *)
Context {float64 : Type}.
Variable Float64bits : float64 -> Z.
Variable sha1_Sum : list Z -> list Z.

Record Point : Type := mkPoint { pos : list float64; Val : float64 }.

Definition set_Val (p : Point) (v : float64) : Point :=
  {| pos := pos p; Val := v |}.

Definition NewPoint (pos : list float64) (val : float64) : Point :=
  {| pos := pos; Val := val |}.

(** [Pos] returns a copy of the coordinates. *)
Definition Pos (p : Point) : list float64 := pos p.

(** [binary.BigEndian.PutUint64]: the eight bytes of [v], most significant
    first. *)
Definition PutUint64 (v : Z) : list Z :=
  map (fun k => Z.land (Z.shiftr v (8 * k)) 255) [7; 6; 5; 4; 3; 2; 1; 0].

(** [hashPoint]: the SHA-1 digest of the big-endian bit patterns of the
    coordinates, eight bytes per coordinate. *)
Definition hashPoint (p : Point) : list Z :=
  sha1_Sum (flat_map (fun x => PutUint64 (Float64bits x)) (pos p)).

(** ** Objectives and the evaluation monad

    An objective maps coordinates to a value and an error.  Every
    invocation is recorded in a log of the coordinates it was called on;
    the log is the state threaded through the evaluators. *)
Definition Objectiver : Type := list float64 -> float64 * error.

Definition calls : Type := list (list float64).

Inductive outcome (A : Type) : Type :=
| Done (a : A) (log : calls)
| Panic.
Arguments Done {A} a log.
Arguments Panic {A}.

Definition M (A : Type) : Type := calls -> outcome A.

Definition ret {A} (a : A) : M A := fun log => Done a log.

Definition bind {A B} (m : M A) (k : A -> M B) : M B :=
  fun log => match m log with
             | Done a log' => k a log'
             | Panic => Panic
             end.

Definition panic {A} : M A := fun _ => Panic.

(** A Go expression that may panic, run inside [M]. *)
Definition checked {A} (o : option A) : M A :=
  match o with Some a => ret a | None => panic end.

(** [obj.Objective(v)], logged. *)
Definition Objective (obj : Objectiver) (v : list float64)
  : M (float64 * error) :=
  fun log => Done (obj v) (log ++ [v]).

Notation "'let*' x ':=' m 'in' k" := (bind m (fun x => k))
  (at level 10, x pattern, m at level 100, k at level 200).

(** The [Evaler] interface.  The receiver is returned with the results
    since [Eval] may update it ([CacheEvaler] has a pointer receiver). *)
Definition results : Type := (list Point * Z * error)%type.

Class Evaler (E : Type) :=
  Eval : E -> Objectiver -> list Point -> M (results * E).

(** ** SerialEvaler *)
Record SerialEvaler : Type := { ContinueOnErr : bool }.

(** The body of [for _, p := range points], with the slice [results]
    built so far. *)
Fixpoint SerialEvaler_loop (ev : SerialEvaler) (obj : Objectiver)
    (points : list Point) (res : list Point) : M results :=
  match points with
  | [] => ret (res, len res, None)
  | p :: rest =>
      let* (v, err) := Objective obj (Pos p) in
      let p := set_Val p v in
      let res := res ++ [p] in
      if is_err err && negb (ContinueOnErr ev)
      then ret (res, len res, err)
      else SerialEvaler_loop ev obj rest res
  end.

Definition SerialEvaler_Eval (ev : SerialEvaler) (obj : Objectiver)
    (points : list Point) : M (results * SerialEvaler) :=
  let* r := SerialEvaler_loop ev obj points [] in
  ret (r, ev).

#[export] Instance SerialEvaler_Evaler : Evaler SerialEvaler :=
  SerialEvaler_Eval.

(** ** CacheEvaler *)
Record CacheEvaler (E : Type) : Type :=
  { ev : E; cache : gmap (list Z) float64 }.
Arguments ev {E} _.
Arguments cache {E} _.

Definition NewCacheEvaler {E} (e : E) : CacheEvaler E :=
  {| ev := e; cache := ∅ |}.

(** The first loop of [Eval]: [i] is the index of the head of [points].
    On a hit the cached value is assigned to the loop variable [p], a copy
    of [points[i]]: the element of [points] keeps its value. *)
Fixpoint CacheEvaler_scan (c : gmap (list Z) float64) (i : Z)
    (points : list Point) (fromnew : list Z) (newp : list Point)
  : list Z * list Point :=
  match points with
  | [] => (fromnew, newp)
  | p :: rest =>
      match c !! hashPoint p with
      | Some val =>
          let p := set_Val p val in
          CacheEvaler_scan c (i + 1) rest fromnew newp
      | None =>
          CacheEvaler_scan c (i + 1) rest (fromnew ++ [i]) (newp ++ [p])
      end
  end.

(** [for _, p := range newresults { ev.cache[hashPoint(p)] = p.Val }] *)
Definition CacheEvaler_record (c : gmap (list Z) float64)
    (newresults : list Point) : gmap (list Z) float64 :=
  fold_left (fun c p => <[hashPoint p := Val p]> c) newresults c.

(** [for i, p := range newresults { points[fromnew[i]].Val = p.Val }] *)
Fixpoint CacheEvaler_backfill (i : Z) (newresults : list Point)
    (fromnew : list Z) (points : list Point) : option (list Point) :=
  match newresults with
  | [] => Some points
  | p :: rest =>
      j ← index fromnew i;
      q ← index points j;
      CacheEvaler_backfill (i + 1) rest fromnew
        (<[Z.to_nat j := set_Val q (Val p)]> points)
  end.

(** [if len(fromnew) > 0 { points = points[:fromnew[len(newresults)-1]+1] }] *)
Definition CacheEvaler_shrink (fromnew : list Z) (newresults : list Point)
    (points : list Point) : option (list Point) :=
  if 0 <? len fromnew then
    k ← index fromnew (len newresults - 1);
    slice_to points (k + 1)
  else Some points.

Definition CacheEvaler_Eval {E} `{Evaler E} (cev : CacheEvaler E)
    (obj : Objectiver) (points : list Point)
  : M (results * CacheEvaler E) :=
  let '(fromnew, newp) := CacheEvaler_scan (cache cev) 0 points [] [] in
  let* (newresults, n, err, inner) := Eval (ev cev) obj newp in
  let cev := {| ev := inner;
                cache := CacheEvaler_record (cache cev) newresults |} in
  let* points := checked (CacheEvaler_backfill 0 newresults fromnew points) in
  let* points := checked (CacheEvaler_shrink fromnew newresults points) in
  ret (points, n, err, cev).

#[export] Instance CacheEvaler_Evaler {E} `{Evaler E}
  : Evaler (CacheEvaler E) := CacheEvaler_Eval.

(** ** ParallelEvaler

    [Eval] starts one goroutine per point and receives their results from
    a buffered channel.  The interleavings of the goroutines and of the
    caller are the schedules of a transition system: an [action] is one
    step of one of them, [exec] runs an action where it is enabled, and a
    blocked operation has no step.  The goroutine of an iteration evaluates
    the point of that iteration. *)
Record errpoint : Type := { Point_ : Point; Err : error }.

(** The program points of [go func() { ... }()]. *)
Inductive goroutine : Type :=
| Started (p : Point)        (* before [obj.Objective(p.Pos())] *)
| Evaluated (perr : errpoint) (* before [ch <- perr] *)
| Sent                       (* before [wg.Done()] *)
| Finished.

(** The program points of [Eval] itself. *)
Inductive caller : Type :=
| Spawning (rest : list Point) (* [for _, p := range points] *)
| Receiving                    (* [for p := range ch] *)
| Waiting                      (* [wg.Wait()] *)
| Returned (r : results).

Record pstate : Type := {
  main : caller;
  goroutines : list goroutine;
  ch : list errpoint;        (* the buffer of the channel, oldest first *)
  ch_cap : Z;                (* its capacity, [len(points)] *)
  ch_closed : bool;
  wg : Z;                    (* the counter of the wait group *)
  res : list Point;          (* [results] *)
  err : error
}.

(** The state after [ch := make(chan errpoint, len(points))]. *)
Definition ParallelEvaler_init (points : list Point) : pstate :=
  {| main := Spawning points; goroutines := []; ch := [];
     ch_cap := len points; ch_closed := false; wg := len points;
     res := []; err := None |}.

Inductive action : Type :=
| Spawn                (* one iteration of the first loop, or its exit *)
| Evaluate (i : nat)   (* goroutine [i] calls the objective *)
| Send (i : nat)       (* goroutine [i] sends its result *)
| WgDone (i : nat)     (* goroutine [i] calls [wg.Done()] *)
| Receive              (* one iteration of [for p := range ch], or its exit *)
| Wait.                (* [wg.Wait()] returns, and so does [Eval] *)

Definition set_goroutine (s : pstate) (i : nat) (g : goroutine) : pstate :=
  {| main := main s; goroutines := <[i := g]> (goroutines s); ch := ch s;
     ch_cap := ch_cap s; ch_closed := ch_closed s; wg := wg s;
     res := res s; err := err s |}.

Definition ParallelEvaler_exec (obj : Objectiver) (a : action) (s : pstate)
  : option pstate :=
  match a with
  | Spawn =>
      match main s with
      | Spawning (p :: rest) =>
          Some {| main := Spawning rest;
                  goroutines := goroutines s ++ [Started p]; ch := ch s;
                  ch_cap := ch_cap s; ch_closed := ch_closed s; wg := wg s;
                  res := res s; err := err s |}
      | Spawning [] =>
          Some {| main := Receiving; goroutines := goroutines s; ch := ch s;
                  ch_cap := ch_cap s; ch_closed := ch_closed s; wg := wg s;
                  res := res s; err := err s |}
      | _ => None
      end
  | Evaluate i =>
      match goroutines s !! i with
      | Some (Started p) =>
          let (v, e) := obj (Pos p) in
          Some (set_goroutine s i
                  (Evaluated {| Point_ := set_Val p v; Err := e |}))
      | _ => None
      end
  | Send i =>
      match goroutines s !! i with
      | Some (Evaluated perr) =>
          (* a send blocks while the buffer is full *)
          if negb (ch_closed s) && (len (ch s) <? ch_cap s) then
            Some {| main := main s; goroutines := <[i := Sent]> (goroutines s);
                    ch := ch s ++ [perr]; ch_cap := ch_cap s;
                    ch_closed := ch_closed s; wg := wg s;
                    res := res s; err := err s |}
          else None
      | _ => None
      end
  | WgDone i =>
      match goroutines s !! i with
      | Some Sent =>
          Some {| main := main s;
                  goroutines := <[i := Finished]> (goroutines s);
                  ch := ch s; ch_cap := ch_cap s; ch_closed := ch_closed s;
                  wg := wg s - 1; res := res s; err := err s |}
      | _ => None
      end
  | Receive =>
      match main s with
      | Receiving =>
          match ch s with
          | p :: buf =>
              Some {| main := Receiving; goroutines := goroutines s;
                      ch := buf; ch_cap := ch_cap s;
                      ch_closed := ch_closed s; wg := wg s;
                      res := res s ++ [Point_ p];
                      err := if is_err (Err p) then Err p else err s |}
          | [] =>
              (* the loop ends when the channel is closed and drained, and
                 blocks on an empty channel that is open *)
              if ch_closed s then
                Some {| main := Waiting; goroutines := goroutines s;
                        ch := []; ch_cap := ch_cap s;
                        ch_closed := ch_closed s; wg := wg s;
                        res := res s; err := err s |}
              else None
          end
      | _ => None
      end
  | Wait =>
      match main s with
      | Waiting =>
          if wg s =? 0 then
            Some {| main := Returned (res s, len (res s), err s);
                    goroutines := goroutines s; ch := ch s;
                    ch_cap := ch_cap s; ch_closed := ch_closed s;
                    wg := wg s; res := res s; err := err s |}
          else None
      | _ => None
      end
  end.

(** The state a schedule leads to, if each of its actions is enabled in
    turn. *)
Fixpoint ParallelEvaler_run (obj : Objectiver) (sched : list action)
    (s : pstate) : option pstate :=
  match sched with
  | [] => Some s
  | a :: sched =>
      match ParallelEvaler_exec obj a s with
      | Some s' => ParallelEvaler_run obj sched s'
      | None => None
      end
  end.

(** ** Notions used in the properties *)

(** The point [p] as the serial evaluator returns it: annotated with the
    value of the objective at its coordinates. *)
Definition evaluated (obj : Objectiver) (p : Point) : Point :=
  set_Val p (fst (obj (pos p))).

(** The objective reports a failure at [p]. *)
Definition fails (obj : Objectiver) (p : Point) : Prop :=
  snd (obj (pos p)) <> None.

(** [p] is a cache miss. *)
Definition missb (c : gmap (list Z) float64) (p : Point) : bool :=
  match c !! hashPoint p with None => true | Some _ => false end.

(** The cache misses of a batch, in input order. *)
Definition misses (c : gmap (list Z) float64) (points : list Point)
  : list Point := List.filter (missb c) points.

(** The indices of the cache misses, the head of [points] having index [i]. *)
Fixpoint miss_indices (c : gmap (list Z) float64) (i : Z)
    (points : list Point) : list Z :=
  match points with
  | [] => []
  | p :: rest =>
      if missb c p then i :: miss_indices c (i + 1) rest
      else miss_indices c (i + 1) rest
  end.

(** The batch after the backfill: the k-th miss takes the value of the k-th
    new result, as long as there are new results; every other point is as
    it was passed in. *)
Fixpoint backfilled (c : gmap (list Z) float64)
    (points newresults : list Point) : list Point :=
  match points with
  | [] => []
  | p :: rest =>
      if missb c p then
        match newresults with
        | r :: nr => set_Val p (Val r) :: backfilled c rest nr
        | [] => p :: rest
        end
      else p :: backfilled c rest newresults
  end.

(** The caller is in one of its two loops and the channel is open. *)
Definition in_loops (s : pstate) : Prop :=
  ch_closed s = false /\
  (main s = Receiving \/ exists rest, main s = Spawning rest).

(** The points that have not reached [results] yet are in the buffer, with
    a goroutine that has not sent, or not yet given to a goroutine. *)
Definition unsent (g : goroutine) : bool :=
  match g with Started _ | Evaluated _ => true | Sent | Finished => false end.

Definition unspawned (s : pstate) : nat :=
  match main s with Spawning rest => length rest | _ => 0%nat end.

Definition accounted (s : pstate) : nat :=
  (length (res s) + length (ch s)
   + length (List.filter unsent (goroutines s)) + unspawned s)%nat.

(** The schedule in which the goroutines are started, then report one
    after the other, each result being received as soon as it is sent. *)
Definition report (i : nat) : list action :=
  [Evaluate i; Send i; WgDone i; Receive].

Definition sched_in_order (n : nat) : list action :=
  repeat Spawn (S n) ++ flat_map report (seq 0 n).

(** The error [Eval] holds after receiving the results of [points] in
    order: the last one that is not [nil]. *)
Definition last_err (obj : Objectiver) (points : list Point) (e : error)
  : error :=
  fold_left (fun e p => if is_err (snd (obj (pos p))) then snd (obj (pos p))
                        else e) points e.

(** ** Properties of the serial evaluator *)

Lemma SerialEvaler_loop_all (ev : SerialEvaler) (obj : Objectiver)
    (points res : list Point) (log : calls) :
  (ContinueOnErr ev = true
   \/ Forall (fun p => snd (obj (pos p)) = None) points) ->
  SerialEvaler_loop ev obj points res log =
    Done (res ++ map (evaluated obj) points,
          len (res ++ map (evaluated obj) points), None)
         (log ++ map pos points).
Proof.
  revert res log.
  induction points as [|p rest IH]; intros res log Hall; simpl.
  - unfold ret. by rewrite !app_nil_r.
  - unfold bind, Objective, Pos.
    destruct (obj (pos p)) as [v err] eqn:Hobj.
    assert (Hgo : is_err err && negb (ContinueOnErr ev) = false).
    { destruct Hall as [-> | Hok]; [by rewrite andb_false_r|].
      inversion Hok as [|? ? Hp _]; subst. rewrite Hobj in Hp; simpl in Hp.
      by subst err. }
    assert (Hev : evaluated obj p = set_Val p v)
      by (unfold evaluated; by rewrite Hobj).
    rewrite Hgo, IH.
    + cbn [map]. by rewrite Hev, <- !app_assoc.
    + destruct Hall as [? | Hok]; [by left | right].
      by inversion Hok.
Qed.

Lemma SerialEvaler_loop_stop (ev : SerialEvaler) (obj : Objectiver)
    (pre post res : list Point) (pk : Point) (e : string) (log : calls) :
  ContinueOnErr ev = false ->
  Forall (fun p => snd (obj (pos p)) = None) pre ->
  snd (obj (pos pk)) = Some e ->
  SerialEvaler_loop ev obj (pre ++ pk :: post) res log =
    Done (res ++ map (evaluated obj) (pre ++ [pk]),
          len (res ++ map (evaluated obj) (pre ++ [pk])), Some e)
         (log ++ map pos (pre ++ [pk])).
Proof.
  intros Hflag Hpre Hk. revert res log.
  induction Hpre as [|p pre Hp Hpre IH]; intros res log; simpl.
  - unfold bind, Objective, Pos, ret.
    destruct (obj (pos pk)) as [v err] eqn:Hobj. simpl in Hk. subst err.
    rewrite Hflag. cbn [is_err negb andb map]. unfold evaluated.
    by rewrite Hobj.
  - unfold bind, Objective, Pos.
    destruct (obj (pos p)) as [v err] eqn:Hobj. simpl in Hp. subst err.
    assert (Hev : evaluated obj p = set_Val p v)
      by (unfold evaluated; by rewrite Hobj).
    cbn [is_err andb map]. by rewrite IH, Hev, <- !app_assoc.
Qed.

(** ** Properties of the cache evaluator *)

Lemma CacheEvaler_scan_spec (c : gmap (list Z) float64) (points : list Point)
    (i : Z) (fromnew : list Z) (newp : list Point) :
  CacheEvaler_scan c i points fromnew newp =
    (fromnew ++ miss_indices c i points, newp ++ misses c points).
Proof.
  revert i fromnew newp.
  induction points as [|p rest IH]; intros i fromnew newp; simpl.
  - by rewrite !app_nil_r.
  - unfold missb. destruct (c !! hashPoint p); simpl.
    + apply IH.
    + rewrite IH. by rewrite <- !app_assoc.
Qed.

Lemma miss_indices_length (c : gmap (list Z) float64) (points : list Point)
    (i : Z) :
  length (miss_indices c i points) = length (misses c points).
Proof.
  revert i. induction points as [|p rest IH]; intros i; simpl; [done|].
  destruct (missb c p); simpl; by rewrite IH.
Qed.

Lemma miss_indices_bounds (c : gmap (list Z) float64) (points : list Point)
    (i : Z) :
  Forall (fun j => i <= j < i + len points) (miss_indices c i points).
Proof.
  revert i. induction points as [|p rest IH]; intros i; simpl; [constructor|].
  assert (Hlen : len (p :: rest) = 1 + len rest) by (unfold len; simpl; lia).
  assert (Hrest : Forall (fun j => i <= j < i + len (p :: rest))
                         (miss_indices c (i + 1) rest)).
  { eapply Forall_impl; [apply IH|]. simpl. intros j Hj.
    unfold len in *. simpl in *. lia. }
  destruct (missb c p); [constructor|]; try done.
  unfold len. simpl. lia.
Qed.

Lemma miss_indices_app (c : gmap (list Z) float64) (l1 l2 : list Point)
    (i : Z) :
  miss_indices c i (l1 ++ l2) =
    miss_indices c i l1 ++ miss_indices c (i + len l1) l2.
Proof.
  revert i. induction l1 as [|p l1 IH]; intros i; simpl.
  - unfold len. simpl. by rewrite Z.add_0_r.
  - rewrite IH.
    replace (i + 1 + len l1) with (i + len (p :: l1))
      by (unfold len; simpl; lia).
    by destruct (missb c p).
Qed.

Lemma missb_set_Val (c : gmap (list Z) float64) (p : Point) (v : float64) :
  missb c (set_Val p v) = missb c p.
Proof. done. Qed.

Lemma backfilled_length (c : gmap (list Z) float64)
    (points newresults : list Point) :
  length (backfilled c points newresults) = length points.
Proof.
  revert newresults.
  induction points as [|p rest IH]; intros newresults; simpl; [done|].
  destruct (missb c p); [destruct newresults|]; simpl; by rewrite ?IH.
Qed.

Lemma backfilled_pos (c : gmap (list Z) float64)
    (points newresults : list Point) :
  map pos (backfilled c points newresults) = map pos points.
Proof.
  revert newresults.
  induction points as [|p rest IH]; intros newresults; simpl; [done|].
  destruct (missb c p); [destruct newresults|]; simpl; by rewrite ?IH.
Qed.

(** The index-based backfill of the code computes [backfilled], and panics
    exactly when there are more new results than misses. *)
Lemma CacheEvaler_backfill_from (c : gmap (list Z) float64)
    (rest newresults done : list Point) (pre : list Z) :
  CacheEvaler_backfill (len pre) newresults
      (pre ++ miss_indices c (len done) rest) (done ++ rest) =
    if decide (length newresults <= length (misses c rest))%nat
    then Some (done ++ backfilled c rest newresults)
    else None.
Proof.
  revert newresults done pre.
  induction rest as [|p rest IH]; intros newresults done pre.
  - simpl. destruct newresults as [|r nr]; simpl; [done|].
    by rewrite app_nil_r, index_len.
  - cbn [miss_indices misses List.filter backfilled].
    fold (misses c rest).
    destruct (missb c p) eqn:Hp.
    + destruct newresults as [|r nr]; [done|].
      cbn [CacheEvaler_backfill].
      rewrite index_app_len. cbn [mbind option_bind].
      rewrite index_app_len. cbn [mbind option_bind].
      replace (Z.to_nat (len done)) with (length done + 0)%nat
        by (unfold len; lia).
      rewrite insert_app_r. cbn [insert list_insert].
      pose proof (IH nr (done ++ [set_Val p (Val r)]) (pre ++ [len done]))
        as IH'.
      rewrite !len_app, <- !app_assoc in IH'.
      change (len [len done]) with 1 in IH'.
      change (len [set_Val p (Val r)]) with 1 in IH'.
      cbn [app] in IH'. rewrite IH'. cbn [length].
      destruct (decide (length nr <= length (misses c rest))%nat);
        destruct (decide (S (length nr) <= S (length (misses c rest)))%nat);
        try lia; done.
    + pose proof (IH newresults (done ++ [p]) pre) as IH'.
      rewrite !len_app, <- !app_assoc in IH'.
      change (len [p]) with 1 in IH'.
      cbn [app] in IH'. by rewrite IH'.
Qed.

Lemma CacheEvaler_backfill_spec (c : gmap (list Z) float64)
    (points newresults : list Point) :
  CacheEvaler_backfill 0 newresults (miss_indices c 0 points) points =
    if decide (length newresults <= length (misses c points))%nat
    then Some (backfilled c points newresults)
    else None.
Proof. apply (CacheEvaler_backfill_from c points newresults [] []). Qed.

Lemma backfilled_nil (c : gmap (list Z) float64) (points : list Point) :
  backfilled c points [] = points.
Proof.
  induction points as [|p rest IH]; simpl; [done|].
  destruct (missb c p); by rewrite ?IH.
Qed.

(** [Eval] in terms of what the inner evaluator returns on the misses. *)
Lemma CacheEvaler_Eval_inner {E} `{Evaler E} (cev : CacheEvaler E)
    (obj : Objectiver) (points newresults : list Point) (n : Z) (err : error)
    (inner : E) (log log' : calls) :
  Eval (ev cev) obj (misses (cache cev) points) log =
    Done (newresults, n, err, inner) log' ->
  CacheEvaler_Eval cev obj points log =
    match
      CacheEvaler_backfill 0 newresults
        (miss_indices (cache cev) 0 points) points
      ≫= CacheEvaler_shrink (miss_indices (cache cev) 0 points) newresults
    with
    | Some pts =>
        Done (pts, n, err,
              {| ev := inner;
                 cache := CacheEvaler_record (cache cev) newresults |}) log'
    | None => Panic
    end.
Proof.
  intros Hin. unfold CacheEvaler_Eval.
  rewrite CacheEvaler_scan_spec. cbn [app].
  unfold bind at 1. rewrite Hin. unfold bind, checked.
  destruct (CacheEvaler_backfill _ _ _ _) as [pts|]; [|done].
  cbn [mbind option_bind ret].
  by destruct (CacheEvaler_shrink _ _ _).
Qed.

(** A batch of cache hits only comes back as it was passed in. *)
Lemma CacheEvaler_Eval_all_hits {E} `{Evaler E} (cev : CacheEvaler E)
    (obj : Objectiver) (points : list Point) (n : Z) (err : error)
    (inner : E) (log log' : calls) :
  misses (cache cev) points = [] ->
  Eval (ev cev) obj [] log = Done ([], n, err, inner) log' ->
  CacheEvaler_Eval cev obj points log =
    Done (points, n, err, {| ev := inner; cache := cache cev |}) log'.
Proof.
  intros Hm Hin.
  assert (Hin' : Eval (ev cev) obj (misses (cache cev) points) log =
                 Done ([], n, err, inner) log') by (by rewrite Hm).
  rewrite (CacheEvaler_Eval_inner _ _ _ _ _ _ _ _ _ Hin').
  assert (Hidx : miss_indices (cache cev) 0 points = []).
  { apply length_zero_iff_nil. by rewrite miss_indices_length, Hm. }
  by rewrite Hidx.
Qed.

(** No new result for at least one miss: the index [len(newresults)-1] is
    [-1] and [fromnew[-1]] panics. *)
Lemma CacheEvaler_Eval_zero_results {E} `{Evaler E} (cev : CacheEvaler E)
    (obj : Objectiver) (points : list Point) (n : Z) (err : error)
    (inner : E) (log log' : calls) :
  misses (cache cev) points <> [] ->
  Eval (ev cev) obj (misses (cache cev) points) log =
    Done ([], n, err, inner) log' ->
  CacheEvaler_Eval cev obj points log = Panic.
Proof.
  intros Hm Hin.
  rewrite (CacheEvaler_Eval_inner _ _ _ _ _ _ _ _ _ Hin).
  cbn [CacheEvaler_backfill mbind option_bind]. unfold CacheEvaler_shrink.
  assert (Hlen : 0 < len (miss_indices (cache cev) 0 points)).
  { unfold len. rewrite miss_indices_length.
    destruct (misses (cache cev) points); [done|simpl; lia]. }
  apply Z.ltb_lt in Hlen. by rewrite Hlen.
Qed.

(** Between one new result and as many as there are misses: the batch is
    backfilled and cut after the miss the last new result belongs to. *)
Lemma CacheEvaler_Eval_truncate {E} `{Evaler E} (cev : CacheEvaler E)
    (obj : Objectiver) (points newresults : list Point) (n : Z) (err : error)
    (inner : E) (log log' : calls) (k : Z) :
  Eval (ev cev) obj (misses (cache cev) points) log =
    Done (newresults, n, err, inner) log' ->
  (length newresults <= length (misses (cache cev) points))%nat ->
  index (miss_indices (cache cev) 0 points) (len newresults - 1) = Some k ->
  CacheEvaler_Eval cev obj points log =
    Done (take (Z.to_nat (k + 1)) (backfilled (cache cev) points newresults),
          n, err,
          {| ev := inner;
             cache := CacheEvaler_record (cache cev) newresults |}) log'.
Proof.
  intros Hin Hle Hk.
  rewrite (CacheEvaler_Eval_inner _ _ _ _ _ _ _ _ _ Hin).
  rewrite CacheEvaler_backfill_spec.
  destruct (decide _) as [_|?]; [|done].
  cbn [mbind option_bind]. unfold CacheEvaler_shrink.
  assert (Hlen : 0 < len (miss_indices (cache cev) 0 points)).
  { unfold index in Hk.
    destruct (len newresults - 1 <? 0); [done|].
    apply lookup_lt_Some in Hk. unfold len. lia. }
  apply Z.ltb_lt in Hlen. rewrite Hlen, Hk. cbn [mbind option_bind].
  unfold slice_to.
  assert (Hb : 0 <= k < len points).
  { pose proof (miss_indices_bounds (cache cev) points 0) as Hall.
    unfold index in Hk. destruct (len newresults - 1 <? 0); [done|].
    rewrite Forall_lookup in Hall. apply Hall in Hk. lia. }
  assert (Hin_range :
    (0 <=? k + 1) && (k + 1 <=? len (backfilled (cache cev) points newresults))
    = true).
  { unfold len in *. rewrite backfilled_length.
    apply andb_true_iff. split; [apply Z.leb_le|apply Z.leb_le]; lia. }
  by rewrite Hin_range.
Qed.

Lemma miss_indices_hits (c : gmap (list Z) float64) (points : list Point)
    (i : Z) :
  Forall (fun p => missb c p = false) points -> miss_indices c i points = [].
Proof.
  intros Hall. revert i.
  induction Hall as [|p rest Hp _ IH]; intros i; simpl; [done|].
  by rewrite Hp, IH.
Qed.

(** The index of the last miss is the last entry of [fromnew]. *)
Lemma miss_indices_last (c : gmap (list Z) float64) (points : list Point)
    (k : nat) (pk : Point) :
  points !! k = Some pk ->
  missb c pk = true ->
  (forall j pj, (k < j)%nat -> points !! j = Some pj -> missb c pj = false) ->
  index (miss_indices c 0 points) (len (misses c points) - 1)
    = Some (Z.of_nat k).
Proof.
  intros Hk Hmiss Hafter.
  assert (Hlen : len (misses c points) = len (miss_indices c 0 points))
    by (unfold len; by rewrite miss_indices_length).
  rewrite Hlen. clear Hlen.
  rewrite <- (take_drop_middle points k pk Hk).
  rewrite miss_indices_app. cbn [miss_indices]. rewrite Hmiss.
  rewrite (miss_indices_hits c (drop (S k) points)).
  - rewrite len_app.
    replace (len (miss_indices c 0 (take k points))
             + len [0 + len (take k points)] - 1)
      with (len (miss_indices c 0 (take k points)))
      by (unfold len; simpl; lia).
    rewrite index_app_len. f_equal.
    apply lookup_lt_Some in Hk. unfold len. rewrite length_take. lia.
  - apply Forall_lookup. intros j pj Hj.
    rewrite lookup_drop in Hj. apply (Hafter (S k + j)%nat); [lia|done].
Qed.

(** The serial evaluator evaluates a prefix of its batch, in order, and at
    least one point of a batch that is not empty. *)
Lemma SerialEvaler_loop_prefix (ev : SerialEvaler) (obj : Objectiver)
    (points res : list Point) (log : calls) :
  exists (k : nat) (err : error),
    (k <= length points)%nat /\
    (points <> [] -> (0 < k)%nat) /\
    SerialEvaler_loop ev obj points res log =
      Done (res ++ map (evaluated obj) (take k points),
            len (res ++ map (evaluated obj) (take k points)), err)
           (log ++ map pos (take k points)).
Proof.
  revert res log.
  induction points as [|p rest IH]; intros res log.
  - exists 0%nat, None. simpl. unfold ret. rewrite !app_nil_r.
    split; [lia|]. split; done.
  - simpl. unfold bind, Objective, Pos.
    destruct (obj (pos p)) as [v err] eqn:Hobj.
    assert (Hev : evaluated obj p = set_Val p v)
      by (unfold evaluated; by rewrite Hobj).
    destruct (is_err err && negb (ContinueOnErr ev)).
    + exists 1%nat, err. cbn [take map]. rewrite Hev.
      split; [lia|]. split; [lia|done].
    + destruct (IH (res ++ [set_Val p v]) (log ++ [pos p]))
        as (k & err' & Hk & _ & Heq).
      exists (S k), err'. cbn [take map]. rewrite Heq, Hev, <- !app_assoc.
      split; [lia|]. split; [lia|done].
Qed.

(** Over the serial evaluator, a batch of cache hits only is returned as it
    was passed in, each point with the value it came with, and the
    objective is not invoked. *)
Lemma CacheEvaler_hits_unchanged (sev : SerialEvaler)
    (c : gmap (list Z) float64) (obj : Objectiver) (points : list Point)
    (log : calls) :
  misses c points = [] ->
  Eval {| ev := sev; cache := c |} obj points log =
    Done (points, 0, None, {| ev := sev; cache := c |}) log.
Proof.
  intros Hm.
  by apply (CacheEvaler_Eval_all_hits {| ev := sev; cache := c |}).
Qed.

(** ** The claims on the serial and the cache evaluator *)

(** C8. With [ContinueOnErr = false], when point [k] is the first point of
    the batch at which the objective fails, [Eval] returns the points
    [0..k] annotated with their values, that is exactly [k+1] results, the
    count [k+1] and the error of point [k]; the objective was invoked on
    these [k+1] points and on no other. *)
Theorem SerialEvaler_stops_at_first_failure (obj : Objectiver)
    (points : list Point) (k : nat) (pk : Point) (e : string) (log : calls) :
  points !! k = Some pk ->
  snd (obj (pos pk)) = Some e ->
  (forall j pj, (j < k)%nat -> points !! j = Some pj ->
                snd (obj (pos pj)) = None) ->
  Eval {| ContinueOnErr := false |} obj points log =
    Done (map (evaluated obj) (take (S k) points), Z.of_nat k + 1, Some e,
          {| ContinueOnErr := false |})
         (log ++ map pos (take (S k) points))
  /\ length (map (evaluated obj) (take (S k) points)) = S k.
Proof.
  intros Hk He Hbefore.
  assert (Hlen : length (take (S k) points) = S k).
  { apply lookup_lt_Some in Hk. rewrite length_take. lia. }
  split; [|by rewrite length_map].
  unfold Eval, SerialEvaler_Evaler, SerialEvaler_Eval, bind.
  rewrite <- (take_drop_middle points k pk Hk) at 1.
  rewrite SerialEvaler_loop_stop with (e := e); try done.
  - rewrite (take_S_r points k pk Hk). cbn [app ret].
    repeat f_equal. unfold len. rewrite length_map, length_app, length_take.
    apply lookup_lt_Some in Hk. simpl. lia.
  - apply Forall_lookup. intros j pj Hj.
    apply lookup_take_Some in Hj as [Hj Hlt]. by apply (Hbefore j).
Qed.

(** C4, as the code has it.  With [ContinueOnErr = true] every point of the
    batch is attempted, in order, and all of them are returned with the
    count [N]; the error returned is [nil] whatever the objective reported. *)
Theorem SerialEvaler_continue_returns_nil (obj : Objectiver)
    (points : list Point) (log : calls) :
  Eval {| ContinueOnErr := true |} obj points log =
    Done (map (evaluated obj) points, len points, None,
          {| ContinueOnErr := true |})
         (log ++ map pos points).
Proof.
  unfold Eval, SerialEvaler_Evaler, SerialEvaler_Eval, bind.
  rewrite SerialEvaler_loop_all by (by left).
  cbn [app ret]. unfold len. by rewrite length_map.
Qed.

(** C6, as the code has it.  Over the serial evaluator, the count returned
    by the cache evaluator is the number [k] of objective invocations of the
    call; the objective is invoked on the first [k] cache misses of the
    batch in input order, bit-identical misses of one batch each being
    evaluated and counted, and on no cache hit. *)
Theorem CacheEvaler_count_is_objective_calls (sev : SerialEvaler)
    (c : gmap (list Z) float64) (obj : Objectiver) (points : list Point)
    (log : calls) :
  exists (res : list Point) (k : nat) (err : error)
         (cev' : CacheEvaler SerialEvaler),
    Eval {| ev := sev; cache := c |} obj points log =
      Done (res, Z.of_nat k, err, cev')
           (log ++ map pos (take k (misses c points)))
    /\ (k <= length (misses c points))%nat.
Proof.
  destruct (SerialEvaler_loop_prefix sev obj (misses c points) [] log)
    as (k & err & Hk & Hpos & Hloop).
  assert (Hn : len ([] ++ map (evaluated obj) (take k (misses c points)))
               = Z.of_nat k).
  { unfold len. cbn [app]. rewrite length_map, length_take. lia. }
  assert (Hin : Eval sev obj (misses c points) log =
    Done (map (evaluated obj) (take k (misses c points)), Z.of_nat k, err, sev)
         (log ++ map pos (take k (misses c points)))).
  { unfold Eval, SerialEvaler_Evaler, SerialEvaler_Eval, bind.
    rewrite Hloop, Hn. done. }
  set (cev := {| ev := sev; cache := c |}).
  change (Eval cev obj points log) with (CacheEvaler_Eval cev obj points log).
  destruct (misses c points) as [|m ms] eqn:Hm.
  - assert (k = 0)%nat as -> by (simpl in Hk; lia).
    exists points, 0%nat, err, {| ev := sev; cache := c |}.
    split; [|simpl; lia].
    apply (CacheEvaler_Eval_all_hits cev); [done|].
    by rewrite take_0 in Hin.
  - assert (0 < k)%nat as Hk0 by (by apply Hpos).
    assert (Hidx : exists j,
      index (miss_indices c 0 points)
            (len (map (evaluated obj) (take k (m :: ms))) - 1) = Some j).
    { unfold index, len. rewrite length_map, length_take.
      destruct (Z.ltb_spec (Z.of_nat (k `min` length (m :: ms)) - 1) 0);
        [lia|].
      apply lookup_lt_is_Some_2. rewrite miss_indices_length, Hm. lia. }
    destruct Hidx as [j Hj].
    eexists _, k, err, _. split; [|done].
    apply (CacheEvaler_Eval_truncate cev) with (k := j); cbn [cache cev].
    + by rewrite Hm.
    + rewrite Hm, length_map, length_take. lia.
    + done.
Qed.

(** C10. When inside a batch the point at index [k] is the last cache miss
    and the inner evaluator returns a result for every miss forwarded to
    it, the results are the first [k+1] points of the batch, the misses
    among them carrying the new values: the coordinates returned are those
    of the input cut after index [k], and the cache hits behind the last
    miss are not returned. *)
Theorem CacheEvaler_truncates_after_last_miss {E} `{Evaler E}
    (cev : CacheEvaler E) (obj : Objectiver) (points newresults : list Point)
    (k : nat) (pk : Point) (n : Z) (err : error) (inner : E)
    (log log' : calls) :
  points !! k = Some pk ->
  missb (cache cev) pk = true ->
  (forall j pj, (k < j)%nat -> points !! j = Some pj ->
                missb (cache cev) pj = false) ->
  Eval (ev cev) obj (misses (cache cev) points) log =
    Done (newresults, n, err, inner) log' ->
  length newresults = length (misses (cache cev) points) ->
  let res := take (S k) (backfilled (cache cev) points newresults) in
  Eval cev obj points log =
    Done (res, n, err,
          {| ev := inner;
             cache := CacheEvaler_record (cache cev) newresults |}) log'
  /\ map pos res = take (S k) (map pos points)
  /\ length res = S k.
Proof.
  intros Hk Hmiss Hafter Hin Hlen res.
  split; [|split].
  - change (Eval cev obj points log)
      with (CacheEvaler_Eval cev obj points log).
    unfold res. replace (S k) with (Z.to_nat (Z.of_nat k + 1)) by lia.
    apply CacheEvaler_Eval_truncate; [done|lia|].
    unfold len. rewrite Hlen. by apply miss_indices_last with (pk := pk).
  - unfold res.
    by rewrite <- (backfilled_pos (cache cev) points newresults), firstn_map.
  - unfold res. rewrite length_take, backfilled_length.
    apply lookup_lt_Some in Hk. lia.
Qed.

(** ** The parallel evaluator *)

Lemma ParallelEvaler_exec_in_loops (obj : Objectiver) (a : action)
    (s s' : pstate) :
  in_loops s -> ParallelEvaler_exec obj a s = Some s' -> in_loops s'.
Proof.
  intros [Hopen Hmain] Hexec. unfold in_loops.
  destruct a; simpl in Hexec.
  - destruct (main s) as [[|p rest]| | |] eqn:Hm; inversion Hexec; subst;
      simpl; eauto.
  - destruct (goroutines s !! i) as [[p| | |]|]; try done.
    destruct (obj (Pos p)). inversion Hexec; subst; simpl; eauto.
  - destruct (goroutines s !! i) as [[|perr| |]|]; try done.
    destruct (negb (ch_closed s) && (len (ch s) <? ch_cap s)); [|done].
    inversion Hexec; subst; simpl; eauto.
  - destruct (goroutines s !! i) as [[| | |]|]; try done.
    inversion Hexec; subst; simpl; eauto.
  - destruct (main s) eqn:Hm; try done.
    destruct (ch s) as [|p buf].
    + by rewrite Hopen in Hexec.
    + inversion Hexec; subst; simpl; eauto.
  - destruct Hmain as [Hm | [rest Hm]]; by rewrite Hm in Hexec.
Qed.

Lemma ParallelEvaler_run_in_loops (obj : Objectiver) (sched : list action)
    (s s' : pstate) :
  in_loops s -> ParallelEvaler_run obj sched s = Some s' -> in_loops s'.
Proof.
  revert s. induction sched as [|a sched IH]; intros s Hinv Hrun; simpl in Hrun.
  - by inversion Hrun; subst.
  - destruct (ParallelEvaler_exec obj a s) as [s1|] eqn:Hexec; [|done].
    eauto using ParallelEvaler_exec_in_loops.
Qed.

Lemma unsent_insert (gs : list goroutine) (i : nat) (g g' : goroutine) :
  gs !! i = Some g ->
  (length (List.filter unsent (<[i := g']> gs)) + Nat.b2n (unsent g)
   = length (List.filter unsent gs) + Nat.b2n (unsent g'))%nat.
Proof.
  revert i. induction gs as [|g0 gs IH]; intros [|i] Hi; try done.
  - injection Hi as ->. cbn [insert list_insert List.filter].
    destruct (unsent g), (unsent g'); simpl; lia.
  - cbn [insert list_insert List.filter]. specialize (IH i Hi).
    destruct (unsent g0); simpl; [f_equal|]; exact IH.
Qed.

Lemma ParallelEvaler_exec_accounted (obj : Objectiver) (a : action)
    (s s' : pstate) :
  ParallelEvaler_exec obj a s = Some s' -> accounted s' = accounted s.
Proof.
  unfold accounted, unspawned. intros Hexec.
  destruct a; simpl in Hexec.
  - destruct (main s) as [[|p rest]| | |] eqn:Hm; inversion Hexec; subst;
      cbn [main res ch goroutines]; [done|].
    rewrite List.filter_app, length_app. simpl. lia.
  - destruct (goroutines s !! i) as [[p| | |]|] eqn:Hi; try done.
    destruct (obj (Pos p)) as [v e]. inversion Hexec; subst.
    cbn [set_goroutine main res ch goroutines].
    pose proof (unsent_insert _ i _
      (Evaluated {| Point_ := set_Val p v; Err := e |}) Hi) as Hins.
    simpl in Hins. lia.
  - destruct (goroutines s !! i) as [[|perr| |]|] eqn:Hi; try done.
    destruct (negb (ch_closed s) && (len (ch s) <? ch_cap s)); [|done].
    inversion Hexec; subst. cbn [main res ch goroutines].
    pose proof (unsent_insert _ i _ Sent Hi) as Hins.
    rewrite length_app. simpl in *. lia.
  - destruct (goroutines s !! i) as [[| | |]|] eqn:Hi; try done.
    inversion Hexec; subst. cbn [main res ch goroutines].
    pose proof (unsent_insert _ i _ Finished Hi) as Hins.
    simpl in Hins. lia.
  - destruct (main s) eqn:Hm; try done.
    destruct (ch s) as [|p buf] eqn:Hch.
    + destruct (ch_closed s); [|done]. inversion Hexec; subst.
      by cbn [main res ch goroutines].
    + inversion Hexec; subst. cbn [main res ch goroutines].
      rewrite length_app. simpl. lia.
  - destruct (main s) eqn:Hm; try done.
    destruct (wg s =? 0); [|done]. inversion Hexec; subst.
    by cbn [main res ch goroutines].
Qed.

(** In every state of every schedule the [N] points of the batch are
    accounted for: once all goroutines have sent and the buffer is drained,
    [results] has [N] entries. *)
Lemma ParallelEvaler_run_accounted (obj : Objectiver) (points : list Point)
    (sched : list action) (s : pstate) :
  ParallelEvaler_run obj sched (ParallelEvaler_init points) = Some s ->
  accounted s = length points.
Proof.
  assert (Hgen : forall s0,
    ParallelEvaler_run obj sched s0 = Some s -> accounted s = accounted s0).
  { induction sched as [|a sched IH]; intros s0 Hrun; simpl in Hrun.
    - by inversion Hrun.
    - destruct (ParallelEvaler_exec obj a s0) as [s1|] eqn:Hexec; [|done].
      rewrite (IH s1 Hrun). by apply (ParallelEvaler_exec_accounted obj a). }
  intros Hrun. by rewrite (Hgen _ Hrun).
Qed.

(** C3, on the code.  Whatever the batch and the schedule, [Eval] has not
    returned: the loop [for p := range ch] ends only on a closed channel,
    and nothing closes [ch]. *)
Theorem ParallelEvaler_never_returns (obj : Objectiver) (points : list Point)
    (sched : list action) (s : pstate) (r : results) :
  ParallelEvaler_run obj sched (ParallelEvaler_init points) = Some s ->
  main s <> Returned r /\ ch_closed s = false.
Proof.
  intros Hrun.
  assert (Hinit : in_loops (ParallelEvaler_init points))
    by (split; simpl; eauto).
  destruct (ParallelEvaler_run_in_loops obj sched _ s Hinit Hrun)
    as [Hopen [Hm | [rest Hm]]]; rewrite Hm; done.
Qed.

(** Once every goroutine has finished and the buffer is drained, the caller
    is blocked in [for p := range ch] and no step is left. *)
Lemma ParallelEvaler_deadlock (obj : Objectiver) (s : pstate) (a : action) :
  main s = Receiving -> ch s = [] -> ch_closed s = false ->
  Forall (fun g => g = Finished) (goroutines s) ->
  ParallelEvaler_exec obj a s = None.
Proof.
  intros Hm Hch Hopen Hfin.
  assert (Hg : forall i, goroutines s !! i = None
                         \/ goroutines s !! i = Some Finished).
  { intros i. destruct (goroutines s !! i) as [g|] eqn:Hi; [right|by left].
    rewrite Forall_lookup in Hfin. by rewrite (Hfin i g Hi). }
  destruct a; simpl; rewrite ?Hm, ?Hch, ?Hopen; try done;
    by destruct (Hg i) as [-> | ->].
Qed.

(** *** A run that collects every result *)

Lemma ParallelEvaler_run_app (obj : Objectiver) (s1 s2 : list action)
    (st : pstate) :
  ParallelEvaler_run obj (s1 ++ s2) st =
    match ParallelEvaler_run obj s1 st with
    | Some st' => ParallelEvaler_run obj s2 st'
    | None => None
    end.
Proof.
  revert st. induction s1 as [|a s1 IH]; intros st; simpl; [done|].
  by destruct (ParallelEvaler_exec obj a st).
Qed.

Lemma insert_at_length {A} (l1 l2 : list A) (x y : A) :
  <[length l1 := y]> (l1 ++ x :: l2) = l1 ++ y :: l2.
Proof.
  replace (length l1) with (length l1 + 0)%nat by lia.
  by rewrite insert_app_r.
Qed.

Lemma ParallelEvaler_run_spawn (obj : Objectiver) (rest : list Point)
    (gs : list goroutine) (cap w : Z) :
  ParallelEvaler_run obj (repeat Spawn (S (length rest)))
    {| main := Spawning rest; goroutines := gs; ch := []; ch_cap := cap;
       ch_closed := false; wg := w; res := []; err := None |} =
  Some {| main := Receiving; goroutines := gs ++ map Started rest; ch := [];
          ch_cap := cap; ch_closed := false; wg := w; res := [];
          err := None |}.
Proof.
  revert gs. induction rest as [|p rest IH]; intros gs.
  - simpl. by rewrite app_nil_r.
  - change (repeat Spawn (S (length (p :: rest))))
      with (Spawn :: repeat Spawn (S (length rest))).
    cbn [ParallelEvaler_run ParallelEvaler_exec main].
    cbn [goroutines ch ch_cap ch_closed wg res err].
    rewrite (IH (gs ++ [Started p])). cbn [map]. by rewrite <- app_assoc.
Qed.

Lemma ParallelEvaler_run_report (obj : Objectiver) (p : Point)
    (done rest : list goroutine) (cap w : Z) (r : list Point) (e : error) :
  0 < cap ->
  ParallelEvaler_run obj (report (length done))
    {| main := Receiving; goroutines := done ++ Started p :: rest; ch := [];
       ch_cap := cap; ch_closed := false; wg := w; res := r; err := e |} =
  Some {| main := Receiving; goroutines := done ++ Finished :: rest;
          ch := []; ch_cap := cap; ch_closed := false; wg := w - 1;
          res := r ++ [evaluated obj p]; err := last_err obj [p] e |}.
Proof.
  intros Hcap. unfold report, last_err, evaluated.
  cbn [ParallelEvaler_run ParallelEvaler_exec goroutines].
  rewrite list_lookup_middle by done.
  unfold Pos. destruct (obj (pos p)) as [v e'] eqn:Hobj.
  cbn [set_goroutine goroutines main ch ch_cap ch_closed wg res err].
  rewrite insert_at_length, list_lookup_middle by done.
  assert (Hroom : negb false && (len (@nil errpoint) <? cap) = true)
    by (apply andb_true_iff; split; [done|by apply Z.ltb_lt]).
  rewrite Hroom.
  cbn [goroutines main ch ch_cap ch_closed wg res err].
  rewrite insert_at_length, list_lookup_middle by done.
  cbn [goroutines main ch ch_cap ch_closed wg res err app].
  rewrite insert_at_length. cbn [Point_ Err fold_left].
  by rewrite Hobj.
Qed.

Lemma ParallelEvaler_run_reports (obj : Objectiver) (rest : list Point)
    (done : list goroutine) (cap w : Z) (r : list Point) (e : error) :
  len rest <= cap ->
  ParallelEvaler_run obj (flat_map report (seq (length done) (length rest)))
    {| main := Receiving; goroutines := done ++ map Started rest; ch := [];
       ch_cap := cap; ch_closed := false; wg := w; res := r; err := e |} =
  Some {| main := Receiving;
          goroutines := done ++ map (fun _ => Finished) rest;
          ch := []; ch_cap := cap; ch_closed := false; wg := w - len rest;
          res := r ++ map (evaluated obj) rest;
          err := last_err obj rest e |}.
Proof.
  revert done w r e. induction rest as [|p rest IH]; intros done w r e Hcap.
  - simpl. by rewrite Z.sub_0_r, !app_nil_r.
  - assert (Hlen : len (p :: rest) = 1 + len rest)
      by (unfold len; simpl; lia).
    cbn [length seq flat_map map]. rewrite ParallelEvaler_run_app.
    rewrite ParallelEvaler_run_report by (unfold len in *; lia).
    pose proof (IH (done ++ [Finished]) (w - 1) (r ++ [evaluated obj p])
                  (last_err obj [p] e)) as IH'.
    rewrite length_app, <- !app_assoc in IH'. cbn [length app] in IH'.
    replace (length done + 1)%nat with (S (length done)) in IH' by lia.
    rewrite IH' by lia. rewrite Hlen.
    by replace (w - (1 + len rest)) with (w - 1 - len rest) by lia.
Qed.

(** Whatever the batch, the run in which the goroutines report in order
    leaves the caller blocked in [for p := range ch], with the [N] points
    evaluated in [results] and no action enabled. *)
Lemma ParallelEvaler_blocks_after_all_results (obj : Objectiver)
    (points : list Point) :
  exists s,
    ParallelEvaler_run obj (sched_in_order (length points))
      (ParallelEvaler_init points) = Some s
    /\ main s = Receiving
    /\ res s = map (evaluated obj) points
    /\ err s = last_err obj points None
    /\ forall a, ParallelEvaler_exec obj a s = None.
Proof.
  eexists. unfold sched_in_order, ParallelEvaler_init.
  rewrite ParallelEvaler_run_app, ParallelEvaler_run_spawn.
  change (seq 0 (length points))
    with (seq (length (@nil goroutine)) (length points)).
  rewrite ParallelEvaler_run_reports by lia.
  split; [reflexivity|]. cbn [main res err goroutines app].
  repeat split. intros a. apply ParallelEvaler_deadlock; try done.
  cbn [goroutines app]. apply Forall_forall. intros g Hg.
  apply list_elem_of_In, in_map_iff in Hg as (? & <- & _). done.
Qed.

(** ** Further properties of the serial evaluator *)

(** What [Eval] returns, for either setting of [ContinueOnErr]: the first
    [k] points of the batch in input order with their values, the count
    [k], which is the number of objective invocations, and an error that
    is not [nil] exactly when the evaluation stopped at a failure: then
    [ContinueOnErr] is off, point [k-1] is the one that failed and every
    point before it succeeded.  With a [nil] error the batch is complete. *)
Theorem SerialEvaler_Eval_prefix (sev : SerialEvaler) (obj : Objectiver)
    (points : list Point) (log : calls) :
  exists (k : nat) (e : error),
    Eval sev obj points log =
      Done (map (evaluated obj) (take k points), Z.of_nat k, e, sev)
           (log ++ map pos (take k points))
    /\ (k <= length points)%nat
    /\ match e with
       | None => k = length points
       | Some msg =>
           ContinueOnErr sev = false
           /\ (exists pk, points !! (k - 1)%nat = Some pk /\ (0 < k)%nat
                          /\ snd (obj (pos pk)) = Some msg)
           /\ Forall (fun p => snd (obj (pos p)) = None)
                     (take (k - 1) points)
       end.
Proof.
  assert (Hgen : forall res,
    exists (k : nat) (e : error),
      SerialEvaler_loop sev obj points res log =
        Done (res ++ map (evaluated obj) (take k points),
              len (res ++ map (evaluated obj) (take k points)), e)
             (log ++ map pos (take k points))
      /\ (k <= length points)%nat
      /\ match e with
         | None => k = length points
         | Some msg =>
             ContinueOnErr sev = false
             /\ (exists pk, points !! (k - 1)%nat = Some pk /\ (0 < k)%nat
                            /\ snd (obj (pos pk)) = Some msg)
             /\ Forall (fun p => snd (obj (pos p)) = None)
                       (take (k - 1) points)
         end).
  { revert log. induction points as [|p rest IH]; intros log res.
    - exists 0%nat, None. simpl. unfold ret. by rewrite !app_nil_r.
    - simpl. unfold bind, Objective, Pos.
      destruct (obj (pos p)) as [v e0] eqn:Hobj.
      assert (Hev : evaluated obj p = set_Val p v)
        by (unfold evaluated; by rewrite Hobj).
      destruct (is_err e0 && negb (ContinueOnErr sev)) eqn:Hstop.
      + apply andb_true_iff in Hstop as [He0 Hflag].
        destruct e0 as [msg|]; [|done].
        exists 1%nat, (Some msg). cbn [take map]. rewrite Hev.
        split; [done|]. split; [lia|].
        split; [by destruct (ContinueOnErr sev)|].
        split; [|constructor].
        exists p. rewrite Hobj. split; [done|]. split; [lia|done].
      + destruct (IH (log ++ [pos p]) (res ++ [set_Val p v]))
          as (k & e & Heq & Hk & He).
        exists (S k), e. cbn [take map]. rewrite Heq, Hev, <- !app_assoc.
        split; [done|]. split; [lia|].
        destruct e as [msg|]; [|lia].
        destruct He as (Hflag & (pk & Hpk & Hk0 & Hfail) & Hbefore).
        split; [done|]. split.
        * exists pk. replace (S k - 1)%nat with (S (k - 1)) by lia.
          split; [done|]. split; [lia|done].
        * replace (S k - 1)%nat with (S (k - 1)) by lia. cbn [take].
          constructor; [|done]. rewrite Hobj. simpl.
          rewrite Hflag in Hstop. simpl in Hstop.
          rewrite andb_true_r in Hstop. by destruct e0. }
  destruct (Hgen []) as (k & e & Heq & Hk & He).
  exists k, e. split; [|done].
  unfold Eval, SerialEvaler_Evaler, SerialEvaler_Eval, bind.
  rewrite Heq. cbn [app ret]. unfold len.
  by rewrite length_map, length_take, Nat.min_l.
Qed.

(** ** Further properties of the cache evaluator *)

(** Recording new results keeps every key of the cache. *)
Lemma CacheEvaler_record_keeps (c : gmap (list Z) float64)
    (newresults : list Point) (h : list Z) :
  is_Some (c !! h) -> is_Some (CacheEvaler_record c newresults !! h).
Proof.
  unfold CacheEvaler_record. revert c.
  induction newresults as [|r rs IH]; intros c Hc; [done|].
  cbn [fold_left]. apply IH.
  destruct (decide (hashPoint r = h)) as [->|Hne].
  - rewrite lookup_insert_eq. eauto.
  - by rewrite lookup_insert_ne.
Qed.

Lemma CacheEvaler_record_other (c : gmap (list Z) float64)
    (newresults : list Point) (h : list Z) :
  Forall (fun r => hashPoint r <> h) newresults ->
  CacheEvaler_record c newresults !! h = c !! h.
Proof.
  unfold CacheEvaler_record. intros Hall. revert c.
  induction Hall as [|r rs Hr _ IH]; intros c; [done|].
  cbn [fold_left]. by rewrite IH, lookup_insert_ne.
Qed.

(** A fingerprint of the new results is recorded with the value of a new
    result that has it: the last one of the batch. *)
Lemma CacheEvaler_record_new (c : gmap (list Z) float64)
    (newresults : list Point) (h : list Z) :
  Exists (fun q => hashPoint q = h) newresults ->
  exists q, In q newresults /\ hashPoint q = h
            /\ CacheEvaler_record c newresults !! h = Some (Val q).
Proof.
  revert c. induction newresults as [|x rs IH]; intros c Hex.
  - by apply Exists_nil in Hex.
  - change (CacheEvaler_record c (x :: rs))
      with (CacheEvaler_record (<[hashPoint x := Val x]> c) rs).
    destruct (decide (Exists (fun q => hashPoint q = h) rs)) as [Hrs|Hrs].
    + destruct (IH (<[hashPoint x := Val x]> c) Hrs) as (q & Hq & Hh & Hl).
      exists q. split; [by right|done].
    + apply Exists_cons in Hex as [Hx|Hex]; [|done].
      exists x. split; [by left|]. split; [done|].
      rewrite CacheEvaler_record_other.
      * subst h. apply lookup_insert_eq.
      * by apply not_Exists_Forall in Hrs; [|intros ?; apply _].
Qed.

(** Whenever [Eval] returns, the count, the error and the objective
    invocations are those of the inner evaluator on the cache misses, the
    new results are recorded, and the results are a prefix of the batch:
    no point is reordered or added, and only values change. *)
Theorem CacheEvaler_returns_prefix {E} `{Evaler E} (cev cev' : CacheEvaler E)
    (obj : Objectiver) (points res : list Point) (n : Z) (e : error)
    (log log' : calls) :
  Eval cev obj points log = Done (res, n, e, cev') log' ->
  exists (newresults : list Point) (inner : E) (k : nat),
    Eval (ev cev) obj (misses (cache cev) points) log =
      Done (newresults, n, e, inner) log'
    /\ cev' = {| ev := inner;
                 cache := CacheEvaler_record (cache cev) newresults |}
    /\ (length newresults <= length (misses (cache cev) points))%nat
    /\ (k <= length points)%nat
    /\ res = take k (backfilled (cache cev) points newresults)
    /\ map pos res = take k (map pos points).
Proof.
  change (Eval cev obj points log)
    with (CacheEvaler_Eval cev obj points log).
  intros Hret.
  destruct (Eval (ev cev) obj (misses (cache cev) points) log)
    as [[[[nr n0] e0] inner] log1|] eqn:Hin.
  - rewrite (CacheEvaler_Eval_inner _ _ _ _ _ _ _ _ _ Hin) in Hret.
    rewrite CacheEvaler_backfill_spec in Hret.
    destruct (decide _) as [Hle|?]; [|done].
    cbn [mbind option_bind] in Hret. unfold CacheEvaler_shrink in Hret.
    assert (Hpos : forall k, map pos (take k (backfilled (cache cev) points nr))
                             = take k (map pos points)).
    { intros k. by rewrite <- (backfilled_pos (cache cev) points nr),
        firstn_map. }
    destruct (0 <? len (miss_indices (cache cev) 0 points)).
    + destruct (index _ _) as [j|]; [|done].
      cbn [mbind option_bind] in Hret. unfold slice_to in Hret.
      destruct ((0 <=? j + 1) && (j + 1 <=? len _)) eqn:Hb; [|done].
      apply andb_true_iff in Hb as [_ Hb]. apply Z.leb_le in Hb.
      unfold len in Hb. rewrite backfilled_length in Hb.
      inversion Hret; subst.
      exists nr, inner, (Z.to_nat (j + 1)).
      repeat split; try done. lia.
    + inversion Hret; subst.
      exists nr, inner, (length points).
      repeat split; try done.
      * by rewrite firstn_all2 by (by rewrite backfilled_length).
      * rewrite backfilled_pos, firstn_all2; [done|].
        by rewrite length_map.
  - unfold CacheEvaler_Eval in Hret.
    rewrite CacheEvaler_scan_spec in Hret. cbn [app] in Hret.
    unfold bind at 1 in Hret. by rewrite Hin in Hret.
Qed.

(** [Eval] panics exactly when the inner evaluator returns more results
    than there are cache misses, or no result while there is a miss. *)
Theorem CacheEvaler_panics_iff {E} `{Evaler E} (cev : CacheEvaler E)
    (obj : Objectiver) (points newresults : list Point) (n : Z) (e : error)
    (inner : E) (log log' : calls) :
  Eval (ev cev) obj (misses (cache cev) points) log =
    Done (newresults, n, e, inner) log' ->
  Eval cev obj points log = Panic <->
  (length (misses (cache cev) points) < length newresults)%nat
  \/ (newresults = [] /\ misses (cache cev) points <> []).
Proof.
  intros Hin.
  change (Eval cev obj points log)
    with (CacheEvaler_Eval cev obj points log).
  destruct (decide (length newresults
                    <= length (misses (cache cev) points))%nat) as [Hle|Hgt].
  - destruct newresults as [|r nr].
    + destruct (misses (cache cev) points) as [|m ms] eqn:Hm.
      * rewrite (CacheEvaler_Eval_all_hits cev obj points n e inner log log')
          by (by rewrite ?Hm in * ).
        split; [done|]. intros [Hlt|[_ ?]]; [simpl in Hlt; lia|done].
      * rewrite (CacheEvaler_Eval_zero_results cev obj points n e inner
                   log log'); [|by rewrite Hm|by rewrite Hm].
        split; [|done]. intros _. by right.
    + assert (Hidx : exists j,
        index (miss_indices (cache cev) 0 points) (len (r :: nr) - 1)
          = Some j).
      { unfold index, len.
        destruct (Z.ltb_spec (Z.of_nat (length (r :: nr)) - 1) 0);
          [simpl in *; lia|].
        apply lookup_lt_is_Some_2. rewrite miss_indices_length.
        simpl in *. lia. }
      destruct Hidx as [j Hj].
      rewrite (CacheEvaler_Eval_truncate cev obj points (r :: nr) n e inner
                 log log' j Hin Hle Hj).
      split; [done|]. intros [Hlt|[? _]]; [lia|done].
  - rewrite (CacheEvaler_Eval_inner _ _ _ _ _ _ _ _ _ Hin).
    rewrite CacheEvaler_backfill_spec.
    destruct (decide _) as [?|_]; [done|].
    split; [|done]. intros _. left. lia.
Qed.

(** What the cache evaluator does over the serial evaluator: the first [k]
    misses are evaluated and recorded. *)
Lemma CacheEvaler_over_serial (sev : SerialEvaler)
    (c : gmap (list Z) float64) (obj : Objectiver) (points : list Point)
    (log : calls) :
  exists (res : list Point) (k : nat) (e : error),
    Eval {| ev := sev; cache := c |} obj points log =
      Done (res, Z.of_nat k, e,
            {| ev := sev;
               cache := CacheEvaler_record c
                          (map (evaluated obj) (take k (misses c points))) |})
           (log ++ map pos (take k (misses c points)))
    /\ (k <= length (misses c points))%nat
    /\ (ContinueOnErr sev = true -> k = length (misses c points)).
Proof.
  assert (Hser : exists (k : nat) (e : error),
    (k <= length (misses c points))%nat
    /\ (misses c points <> [] -> (0 < k)%nat)
    /\ (ContinueOnErr sev = true -> k = length (misses c points))
    /\ Eval sev obj (misses c points) log =
         Done (map (evaluated obj) (take k (misses c points)), Z.of_nat k,
               e, sev)
              (log ++ map pos (take k (misses c points)))).
  { unfold Eval, SerialEvaler_Evaler, SerialEvaler_Eval, bind.
    destruct (ContinueOnErr sev) eqn:Hflag.
    - exists (length (misses c points)), None.
      rewrite SerialEvaler_loop_all by (by left).
      rewrite firstn_all. cbn [app ret]. unfold len. rewrite length_map.
      split; [done|]. split; [|done].
      destruct (misses c points); [done|simpl; lia].
    - destruct (SerialEvaler_loop_prefix sev obj (misses c points) [] log)
        as (k & e & Hk & Hpos & Hloop).
      exists k, e. rewrite Hloop. cbn [app ret]. unfold len.
      rewrite length_map, length_take, Nat.min_l by done.
      split; [done|]. split; [done|]. split; [done|done]. }
  destruct Hser as (k & e & Hk & Hpos & Hall & Hin).
  set (cev := {| ev := sev; cache := c |}).
  change (Eval cev obj points log) with (CacheEvaler_Eval cev obj points log).
  destruct (misses c points) as [|m ms] eqn:Hm.
  - assert (k = 0)%nat as -> by (simpl in Hk; lia).
    exists points, 0%nat, e. split; [|split; [simpl; lia|done]].
    rewrite take_0 in *. cbn [map CacheEvaler_record fold_left].
    apply (CacheEvaler_Eval_all_hits cev); done.
  - assert (0 < k)%nat as Hk0 by (by apply Hpos).
    assert (Hidx : exists j,
      index (miss_indices c 0 points)
            (len (map (evaluated obj) (take k (m :: ms))) - 1) = Some j).
    { unfold index, len. rewrite length_map, length_take.
      destruct (Z.ltb_spec (Z.of_nat (k `min` length (m :: ms)) - 1) 0);
        [lia|].
      apply lookup_lt_is_Some_2. rewrite miss_indices_length, Hm. lia. }
    destruct Hidx as [j Hj].
    eexists _, k, e. split; [|done].
    apply (CacheEvaler_Eval_truncate cev) with (k := j); cbn [cache cev].
    + by rewrite Hm.
    + rewrite Hm, length_map, length_take. lia.
    + done.
Qed.

Lemma In_take {A} (x : A) (n : nat) (l : list A) :
  In x (take n l) -> In x l.
Proof.
  rewrite <- !list_elem_of_In. intros Hx. by apply (subseteq_take n l).
Qed.

Lemma misses_miss (c : gmap (list Z) float64) (points : list Point)
    (p : Point) :
  In p (misses c points) <-> In p points /\ c !! hashPoint p = None.
Proof.
  unfold misses. rewrite List.filter_In. unfold missb.
  destruct (c !! hashPoint p); split; intros [? ?]; done.
Qed.

(** Over the serial evaluator a call only adds entries to the cache: what
    was recorded stays recorded with the same value. *)
Theorem CacheEvaler_cache_grows (sev : SerialEvaler)
    (c : gmap (list Z) float64) (cev' : CacheEvaler SerialEvaler)
    (obj : Objectiver) (points res : list Point) (n : Z) (e : error)
    (log log' : calls) (h : list Z) (v : float64) :
  Eval {| ev := sev; cache := c |} obj points log =
    Done (res, n, e, cev') log' ->
  c !! h = Some v ->
  cache cev' !! h = Some v.
Proof.
  intros Hret Hc.
  destruct (CacheEvaler_over_serial sev c obj points log)
    as (res0 & k & e0 & Heq & _ & _).
  rewrite Heq in Hret. inversion Hret; subst. cbn [cache].
  rewrite CacheEvaler_record_other; [done|].
  apply Forall_forall. intros r Hr.
  apply list_elem_of_In, in_map_iff in Hr as (p & <- & Hp).
  apply In_take in Hp.
  apply misses_miss in Hp as [_ Hmiss].
  change (hashPoint (evaluated obj p)) with (hashPoint p). congruence.
Qed.

Lemma misses_nil (c : gmap (list Z) float64) (batch : list Point) :
  (forall q, In q batch -> is_Some (c !! hashPoint q)) ->
  misses c batch = [].
Proof.
  induction batch as [|q batch IH]; intros Hall; [done|].
  unfold misses in *. cbn [List.filter]. unfold missb at 1.
  destruct (Hall q) as [v ->]; [by left|].
  apply IH. intros q' Hq'. apply Hall. by right.
Qed.

Lemma CacheEvaler_cached_after (c : gmap (list Z) float64)
    (cev' : CacheEvaler SerialEvaler) (obj : Objectiver)
    (points res : list Point) (n : Z) (e : error) (log log' : calls)
    (p : Point) :
  Eval {| ev := {| ContinueOnErr := true |}; cache := c |} obj points log =
    Done (res, n, e, cev') log' ->
  In p points ->
  exists v,
    cache cev' !! hashPoint p = Some v
    /\ (c !! hashPoint p = Some v
        \/ exists q, In q points /\ hashPoint q = hashPoint p
                     /\ v = fst (obj (pos q))).
Proof.
  intros Hret Hp.
  destruct (CacheEvaler_over_serial {| ContinueOnErr := true |} c obj points
              log) as (res0 & k & e0 & Heq & _ & Hall).
  rewrite Heq in Hret. inversion Hret; subst. cbn [cache].
  rewrite (Hall eq_refl), firstn_all.
  destruct (c !! hashPoint p) as [v|] eqn:Hc.
  - exists v. split; [|by left].
    rewrite CacheEvaler_record_other; [done|].
    apply Forall_forall. intros r Hr.
    apply list_elem_of_In, in_map_iff in Hr as (q & <- & Hq).
    apply misses_miss in Hq as [_ Hmiss].
    change (hashPoint (evaluated obj q)) with (hashPoint q). congruence.
  - destruct (CacheEvaler_record_new c
                (map (evaluated obj) (misses c points)) (hashPoint p))
      as (r & Hr & Hh & Hlook).
    { apply Exists_exists. exists (evaluated obj p). split; [|done].
      apply list_elem_of_In, in_map. by apply misses_miss. }
    apply in_map_iff in Hr as (q & <- & Hq).
    apply misses_miss in Hq as [Hq _].
    exists (Val (evaluated obj q)). split; [done|]. right.
    exists q. split; [done|]. split; [done|done].
Qed.

(** After a call with [ContinueOnErr] on, every point of the batch is in
    the cache: with the value it had there before the call, or with the
    objective's value at a point of the batch that has its fingerprint. *)
Theorem CacheEvaler_batch_cached (c : gmap (list Z) float64)
    (cev' : CacheEvaler SerialEvaler) (obj : Objectiver)
    (points res : list Point) (n : Z) (e : error) (log log' : calls)
    (p : Point) :
  Eval {| ev := {| ContinueOnErr := true |}; cache := c |} obj points log =
    Done (res, n, e, cev') log' ->
  In p points ->
  exists v,
    cache cev' !! hashPoint p = Some v
    /\ (c !! hashPoint p = Some v
        \/ exists q, In q points /\ hashPoint q = hashPoint p
                     /\ v = fst (obj (pos q))).
Proof. apply CacheEvaler_cached_after. Qed.

(** A batch of points whose coordinates were all in a batch evaluated with
    [ContinueOnErr] on is served from the cache: the objective is not
    invoked, the count is 0 and the cache is as it was. *)
Theorem CacheEvaler_second_call_no_evaluation (c : gmap (list Z) float64)
    (cev' : CacheEvaler SerialEvaler) (obj : Objectiver)
    (points res batch : list Point) (n : Z) (e : error) (log log' : calls) :
  Eval {| ev := {| ContinueOnErr := true |}; cache := c |} obj points log =
    Done (res, n, e, cev') log' ->
  (forall q, In q batch -> exists p, In p points /\ pos q = pos p) ->
  Eval cev' obj batch log' = Done (batch, 0, None, cev') log'.
Proof.
  intros Hret Hseen.
  assert (Hcached : forall q, In q batch ->
                                is_Some (cache cev' !! hashPoint q)).
  { intros q Hq. destruct (Hseen q Hq) as (p & Hp & Hpos).
    destruct (CacheEvaler_cached_after c cev' obj points res n e log log' p
                Hret Hp) as (v & Hv & _).
    assert (Hh : hashPoint q = hashPoint p)
      by (unfold hashPoint; by rewrite Hpos).
    rewrite Hh. eauto. }
  destruct (CacheEvaler_over_serial {| ContinueOnErr := true |} c obj points
              log) as (res0 & k & e0 & Heq & _ & _).
  rewrite Heq in Hret. inversion Hret; subst.
  apply CacheEvaler_hits_unchanged. by apply misses_nil.
Qed.

(** ** The data that is hashed *)

Lemma PutUint64_bits (v w : Z) (k m : Z) :
  0 <= k -> 0 <= m < 8 ->
  Z.land (Z.shiftr v (8 * k)) 255 = Z.land (Z.shiftr w (8 * k)) 255 ->
  Z.testbit v (8 * k + m) = Z.testbit w (8 * k + m).
Proof.
  intros Hk Hm Heq.
  apply (f_equal (fun z => Z.testbit z m)) in Heq.
  rewrite !Z.land_spec, !Z.shiftr_spec in Heq by lia.
  change 255 with (Z.ones 8) in Heq.
  rewrite Z.ones_spec_low, !andb_true_r in Heq by lia.
  by rewrite !(Z.add_comm (8 * k)).
Qed.

Lemma PutUint64_inj (v w : Z) :
  PutUint64 v = PutUint64 w -> v mod 2 ^ 64 = w mod 2 ^ 64.
Proof.
  unfold PutUint64. cbn [map]. intros Heq.
  injection Heq as H7 H6 H5 H4 H3 H2 H1 H0.
  apply Z.bits_inj'. intros n Hn.
  destruct (Z.lt_ge_cases n 64) as [Hlt|Hge].
  - rewrite !Z.mod_pow2_bits_low by lia.
    replace n with (8 * (n / 8) + n mod 8)
      by (symmetry; apply Z_div_mod_eq_full).
    assert (Hm : 0 <= n mod 8 < 8) by (apply Z.mod_pos_bound; lia).
    assert (Hk : n / 8 = 0 \/ n / 8 = 1 \/ n / 8 = 2 \/ n / 8 = 3 \/
                 n / 8 = 4 \/ n / 8 = 5 \/ n / 8 = 6 \/ n / 8 = 7).
    { assert (0 <= n / 8 < 8); [|lia].
      split; [apply Z.div_pos; lia|apply Z.div_lt_upper_bound; lia]. }
    destruct Hk as [->|[->|[->|[->|[->|[->|[->| ->]]]]]]];
      by apply PutUint64_bits.
  - by rewrite !Z.mod_pow2_bits_high by lia.
Qed.

(** The bytes that are hashed determine the bit pattern of every
    coordinate, and the bit patterns determine the fingerprint: two points
    have the same data exactly when their coordinates are bit-identical. *)
Theorem hashPoint_data_bit_identical (p q : Point) :
  (forall x, 0 <= Float64bits x < 2 ^ 64) ->
  (flat_map (fun x => PutUint64 (Float64bits x)) (pos p) =
   flat_map (fun x => PutUint64 (Float64bits x)) (pos q)
   <-> map Float64bits (pos p) = map Float64bits (pos q))
  /\ (map Float64bits (pos p) = map Float64bits (pos q) ->
      hashPoint p = hashPoint q).
Proof.
  intros Hrange.
  assert (Hdata : forall l1 l2 : list float64,
    map Float64bits l1 = map Float64bits l2 ->
    flat_map (fun x => PutUint64 (Float64bits x)) l1 =
    flat_map (fun x => PutUint64 (Float64bits x)) l2).
  { induction l1 as [|x l1 IH]; intros [|y l2] Heq; try done.
    cbn [map] in Heq. injection Heq as Hxy Hrest.
    cbn [flat_map]. by rewrite Hxy, (IH l2 Hrest). }
  split; [split; [|apply Hdata]|].
  - generalize (pos p) (pos q).
    induction l as [|x l1 IH]; intros [|y l2] Heq; try done.
    cbn [flat_map map] in *.
    apply app_inj_1 in Heq as [Hxy Hrest]; [|done].
    apply PutUint64_inj in Hxy.
    rewrite !Z.mod_small in Hxy by apply Hrange.
    by rewrite Hxy, (IH l2 Hrest).
  - intros Heq. unfold hashPoint. by rewrite (Hdata _ _ Heq).
Qed.

(** ** Further properties of the parallel evaluator *)

Definition finished (g : goroutine) : bool :=
  match g with Finished => true | _ => false end.

(** What every reachable state keeps: the capacity of the channel, the
    number of goroutines started or still to start, and the balance of the
    wait group against the goroutines that have finished. *)
Definition balanced (n : nat) (s : pstate) : Prop :=
  ch_cap s = Z.of_nat n
  /\ (length (goroutines s) + unspawned s = n)%nat
  /\ wg s = Z.of_nat n
            - Z.of_nat (length (List.filter finished (goroutines s))).

Lemma filter_insert_count (f : goroutine -> bool) (gs : list goroutine)
    (i : nat) (g g' : goroutine) :
  gs !! i = Some g ->
  (length (List.filter f (<[i := g']> gs)) + Nat.b2n (f g)
   = length (List.filter f gs) + Nat.b2n (f g'))%nat.
Proof.
  revert i. induction gs as [|g0 gs IH]; intros [|i] Hi; try done.
  - injection Hi as ->. cbn [insert list_insert List.filter].
    destruct (f g), (f g'); simpl; lia.
  - cbn [insert list_insert List.filter]. specialize (IH i Hi).
    destruct (f g0); simpl; [f_equal|]; exact IH.
Qed.

Lemma ParallelEvaler_exec_balanced (obj : Objectiver) (n : nat) (a : action)
    (s s' : pstate) :
  balanced n s -> ParallelEvaler_exec obj a s = Some s' -> balanced n s'.
Proof.
  unfold balanced, unspawned. intros (Hcap & Hlen & Hwg) Hexec.
  destruct a; simpl in Hexec.
  - destruct (main s) as [[|p rest]| | |] eqn:Hm; inversion Hexec; subst;
      cbn [main ch_cap wg goroutines]; [done|].
    rewrite List.filter_app, !length_app. simpl in *.
    split; [done|]. split; lia.
  - destruct (goroutines s !! i) as [[p| | |]|] eqn:Hi; try done.
    destruct (obj (Pos p)) as [v e]. inversion Hexec; subst.
    cbn [set_goroutine main ch_cap wg goroutines].
    pose proof (filter_insert_count finished _ i _
      (Evaluated {| Point_ := set_Val p v; Err := e |}) Hi) as Hins.
    rewrite length_insert. simpl in Hins.
    split; [done|]. split; [done|lia].
  - destruct (goroutines s !! i) as [[|perr| |]|] eqn:Hi; try done.
    destruct (negb (ch_closed s) && (len (ch s) <? ch_cap s)); [|done].
    inversion Hexec; subst. cbn [main ch_cap wg goroutines].
    pose proof (filter_insert_count finished _ i _ Sent Hi) as Hins.
    rewrite length_insert. simpl in Hins.
    split; [done|]. split; [done|lia].
  - destruct (goroutines s !! i) as [[| | |]|] eqn:Hi; try done.
    inversion Hexec; subst. cbn [main ch_cap wg goroutines].
    pose proof (filter_insert_count finished _ i _ Finished Hi) as Hins.
    rewrite length_insert. simpl in Hins.
    split; [done|]. split; [done|lia].
  - destruct (main s) eqn:Hm; try done.
    destruct (ch s) as [|p buf] eqn:Hch.
    + destruct (ch_closed s); [|done]. inversion Hexec; subst.
      by cbn [main ch_cap wg goroutines].
    + inversion Hexec; subst. by cbn [main ch_cap wg goroutines].
  - destruct (main s) eqn:Hm; try done.
    destruct (wg s =? 0); [|done]. inversion Hexec; subst.
    by cbn [main ch_cap wg goroutines].
Qed.

Lemma ParallelEvaler_run_balanced (obj : Objectiver) (points : list Point)
    (sched : list action) (s : pstate) :
  ParallelEvaler_run obj sched (ParallelEvaler_init points) = Some s ->
  balanced (length points) s.
Proof.
  assert (Hgen : forall s0, balanced (length points) s0 ->
    ParallelEvaler_run obj sched s0 = Some s -> balanced (length points) s).
  { induction sched as [|a sched IH]; intros s0 Hinv Hrun; simpl in Hrun.
    - by inversion Hrun; subst.
    - destruct (ParallelEvaler_exec obj a s0) as [s1|] eqn:Hexec; [|done].
      eauto using ParallelEvaler_exec_balanced. }
  apply Hgen. unfold balanced, ParallelEvaler_init, unspawned, len. simpl.
  split; [done|]. split; [done|lia].
Qed.

Lemma filter_length_le (f : goroutine -> bool) (gs : list goroutine) :
  (length (List.filter f gs) <= length gs)%nat.
Proof.
  induction gs as [|g gs IH]; simpl; [done|]. destruct (f g); simpl; lia.
Qed.

Lemma filter_length_pos (f : goroutine -> bool) (gs : list goroutine)
    (i : nat) (g : goroutine) :
  gs !! i = Some g -> f g = true -> (0 < length (List.filter f gs))%nat.
Proof.
  intros Hi Hf. apply list_elem_of_lookup_2, list_elem_of_In in Hi.
  assert (Hin : In g (List.filter f gs)) by (by apply List.filter_In).
  destruct (List.filter f gs); [done|simpl; lia].
Qed.

(** On every schedule a goroutine that has its result can send it at once:
    the buffer of the channel always has room, so no goroutine is left
    blocked on its send. *)
Theorem ParallelEvaler_send_never_blocks (obj : Objectiver)
    (points : list Point) (sched : list action) (s : pstate) (i : nat)
    (perr : errpoint) :
  ParallelEvaler_run obj sched (ParallelEvaler_init points) = Some s ->
  goroutines s !! i = Some (Evaluated perr) ->
  exists s', ParallelEvaler_exec obj (Send i) s = Some s'
             /\ ch s' = ch s ++ [perr].
Proof.
  intros Hrun Hi.
  destruct (ParallelEvaler_run_balanced obj points sched s Hrun)
    as (Hcap & _ & _).
  pose proof (ParallelEvaler_run_accounted obj points sched s Hrun) as Hacc.
  assert (Hopen : in_loops s).
  { apply (ParallelEvaler_run_in_loops obj sched (ParallelEvaler_init points));
      [|done]. split; simpl; eauto. }
  destruct Hopen as [Hopen _].
  pose proof (filter_length_pos unsent _ i _ Hi eq_refl) as Hpos.
  unfold accounted in Hacc. cbn [ParallelEvaler_exec]. rewrite Hi, Hopen.
  assert (Hroom : negb false && (len (ch s) <? ch_cap s) = true).
  { apply andb_true_iff. split; [done|]. apply Z.ltb_lt. unfold len. lia. }
  rewrite Hroom. eauto.
Qed.

(** On every schedule the counter of the wait group is the number of
    goroutines of the batch that have not called [wg.Done()]: it never
    falls below zero. *)
Theorem ParallelEvaler_wg_counts_unfinished (obj : Objectiver)
    (points : list Point) (sched : list action) (s : pstate) :
  ParallelEvaler_run obj sched (ParallelEvaler_init points) = Some s ->
  wg s = len points
         - Z.of_nat (length (List.filter finished (goroutines s)))
  /\ 0 <= wg s.
Proof.
  intros Hrun.
  destruct (ParallelEvaler_run_balanced obj points sched s Hrun)
    as (_ & Hlen & Hwg).
  pose proof (filter_length_le finished (goroutines s)).
  unfold len. split; [done|lia].
Qed.


(** ** Objectives built from a plain function *)

(** [Func.Objective]: the value of the function, and no error. *)
Definition Func_Objective (so : list float64 -> float64) : Objectiver :=
  fun v => (so v, None).

(** Over the serial evaluator, a batch whose misses all evaluate, or are
    all evaluated since [ContinueOnErr] is set, costs one invocation per
    miss and is returned without error. *)
Lemma CacheEvaler_over_serial_complete (sev : SerialEvaler)
    (c : gmap (list Z) float64) (obj : Objectiver) (points : list Point)
    (log : calls) :
  (ContinueOnErr sev = true
   \/ Forall (fun p => snd (obj (pos p)) = None) (misses c points)) ->
  exists res : list Point,
    Eval {| ev := sev; cache := c |} obj points log =
      Done (res, len (misses c points), None,
            {| ev := sev;
               cache := CacheEvaler_record c
                          (map (evaluated obj) (misses c points)) |})
           (log ++ map pos (misses c points)).
Proof.
  intros Hall.
  assert (Hin : Eval sev obj (misses c points) log =
                Done (map (evaluated obj) (misses c points),
                      len (misses c points), None, sev)
                     (log ++ map pos (misses c points))).
  { unfold Eval, SerialEvaler_Evaler, SerialEvaler_Eval, bind.
    rewrite SerialEvaler_loop_all by done.
    cbn [app ret]. unfold len. by rewrite length_map. }
  set (cev := {| ev := sev; cache := c |}).
  change (Eval cev obj points log) with (CacheEvaler_Eval cev obj points log).
  destruct (misses c points) as [|m ms] eqn:Hm.
  - exists points. cbn [map CacheEvaler_record fold_left] in *.
    apply (CacheEvaler_Eval_all_hits cev); done.
  - assert (Hidx : exists j,
      index (miss_indices c 0 points)
            (len (map (evaluated obj) (m :: ms)) - 1) = Some j).
    { unfold index, len. rewrite length_map.
      destruct (Z.ltb_spec (Z.of_nat (length (m :: ms)) - 1) 0);
        [simpl in *; lia|].
      apply lookup_lt_is_Some_2. rewrite miss_indices_length, Hm.
      simpl. lia. }
    destruct Hidx as [j Hj]. eexists.
    apply (CacheEvaler_Eval_truncate cev) with (k := j); cbn [cache cev].
    + by rewrite Hm.
    + by rewrite Hm, length_map.
    + done.
Qed.

(** An objective built from a plain function never reports an error: the
    serial evaluator evaluates the whole batch whatever [ContinueOnErr]
    is, and the cache evaluator over it invokes the function once per
    cache miss, does not panic and returns no error. *)
Theorem Func_objective_never_stops (sev : SerialEvaler)
    (c : gmap (list Z) float64) (so : list float64 -> float64)
    (points : list Point) (log : calls) :
  Eval sev (Func_Objective so) points log =
    Done (map (fun p => set_Val p (so (pos p))) points, len points, None, sev)
         (log ++ map pos points)
  /\ exists res : list Point,
       Eval {| ev := sev; cache := c |} (Func_Objective so) points log =
         Done (res, len (misses c points), None,
               {| ev := sev;
                  cache := CacheEvaler_record c
                             (map (fun p => set_Val p (so (pos p)))
                                  (misses c points)) |})
              (log ++ map pos (misses c points)).
Proof.
  split.
  - unfold Eval, SerialEvaler_Evaler, SerialEvaler_Eval, bind.
    rewrite SerialEvaler_loop_all by (right; by apply Forall_forall).
    cbn [app ret]. unfold len. by rewrite length_map.
  - apply (CacheEvaler_over_serial_complete sev c (Func_Objective so)).
    right. by apply Forall_forall.
Qed.

End Evalers.

Arguments Done {float64 A} a log.
Arguments Panic {float64 A}.
Arguments ev {float64 E} _.
Arguments cache {float64 E} _.

(** ** Concrete points

    A [float64] given by its IEEE-754 bit pattern: [math.Float64bits] is
    the identity on the 64 bits. *)
Definition bits (x : Z) : Z := x mod 2 ^ 64.

Definition f0 : Z := 0.                        (* 0.0 *)
Definition f1 : Z := 4607182418800017408.      (* 1.0 *)
Definition f2 : Z := 4611686018427387904.      (* 2.0 *)
Definition f3 : Z := 4613937818241073152.      (* 3.0 *)
Definition f5 : Z := 4617315517961601024.      (* 5.0 *)
Definition fInf : Z := 9218868437227405312.    (* +Inf *)

Definition p1 : Point := NewPoint [f1] f0.
Definition p2 : Point := NewPoint [f2] f0.
Definition p3 : Point := NewPoint [f3] f0.

(** An objective that succeeds everywhere with the value 5. *)
Definition obj_five : Objectiver := fun _ => (f5, None).

(** An objective that fails everywhere. *)
Definition obj_failing : Objectiver :=
  fun _ => (fInf, Some "evaluation failed"%string).

(** An objective that fails at the coordinates [(2)] only. *)
Definition obj_fails_at_2 : Objectiver :=
  fun v => if decide (v = [f2])
           then (fInf, Some "evaluation failed"%string)
           else (f5, None).

(** An evaluator that evaluates nothing and reports it. *)
Inductive UnavailableEvaler : Type := unavailableEvaler.

#[export] Instance UnavailableEvaler_Evaler : @Evaler Z UnavailableEvaler :=
  fun e _ _ => ret (([], 0, Some "evaluator unavailable"%string), e).

(** The cache evaluator over [sha1] and the bit patterns. *)
Definition CacheEval {E} `{@Evaler Z E}
  : CacheEvaler E -> Objectiver -> list Point -> M (results * CacheEvaler E) :=
  CacheEvaler_Eval bits Sha1.Sum.

(** The number of distinct fingerprints among [ps]. *)
Definition distinct_fingerprints (ps : list (@Point Z)) : nat :=
  length (remove_dups (map (hashPoint bits Sha1.Sum) ps)).

(** C1, evaluated.  The batch [p1] is evaluated twice with one cache.  The
    first call invokes the objective and records the value 5 under the
    fingerprint of [p1].  The second call does not invoke the objective, and
    returns the point with the value it was passed in with, 0, and not with
    the recorded 5: the assignment [p.Val = val] of the scan is made to the
    loop variable. *)
Theorem CacheEvaler_hit_returns_input_value :
  let cev0 := NewCacheEvaler {| ContinueOnErr := false |} in
  let cev1 := {| ev := {| ContinueOnErr := false |};
                 cache := {[ hashPoint bits Sha1.Sum p1 := f5 ]} |} in
  CacheEval cev0 obj_five [p1] [] =
    Done ([set_Val p1 f5], 1, None, cev1) [[f1]]
  /\ CacheEval cev1 obj_five [p1] [[f1]] =
    Done ([p1], 0, None, cev1) [[f1]]
  /\ Val p1 = f0 /\ f0 <> f5.
Proof. vm_compute. repeat split; try reflexivity. discriminate. Qed.

(** C5, evaluated.  [p1] is a cache miss and the inner evaluator returns no
    result for it: [fromnew[len(newresults)-1]] is [fromnew[-1]] and [Eval]
    panics. *)
Theorem CacheEvaler_panics_on_zero_results :
  CacheEval (NewCacheEvaler unavailableEvaler) obj_five [p1] [] = Panic.
Proof. vm_compute. reflexivity. Qed.

(** C6 as stated fails: the batch [p1, p1] on an empty cache has two misses
    with one fingerprint; both are evaluated and the count is 2. *)
Lemma CacheEvaler_count_not_distinct :
  exists res n err cev',
    CacheEval (NewCacheEvaler {| ContinueOnErr := false |}) obj_five
      [p1; p1] [] = Done (res, n, err, cev') [[f1]; [f1]]
    /\ distinct_fingerprints (misses bits Sha1.Sum ∅ [p1; p1]) = 1%nat
    /\ n <> Z.of_nat
               (distinct_fingerprints (misses bits Sha1.Sum ∅ [p1; p1])).
Proof.
  eexists _, 2, _, _. split; [vm_compute; reflexivity|].
  split; [vm_compute; reflexivity|]. vm_compute. discriminate.
Qed.

(** C4 as stated fails: the objective fails at the only point of the batch
    and the error returned is [nil]. *)
Lemma SerialEvaler_continue_drops_error :
  fails obj_failing p1
  /\ Eval {| ContinueOnErr := true |} obj_failing [p1] [] =
       Done ([set_Val p1 fInf], 1, None, {| ContinueOnErr := true |}) [[f1]].
Proof. split; [discriminate|reflexivity]. Qed.

Lemma SerialEvaler_stops_at_first_failure_witness :
  Eval {| ContinueOnErr := false |} obj_fails_at_2 [p1; p2; p3] [] =
    Done ([set_Val p1 f5; set_Val p2 fInf], 2,
          Some "evaluation failed"%string, {| ContinueOnErr := false |})
         [[f1]; [f2]]
  /\ length [set_Val p1 f5; set_Val p2 fInf] = 2%nat.
Proof.
  apply (SerialEvaler_stops_at_first_failure obj_fails_at_2 [p1; p2; p3]
           1 p2 "evaluation failed" []).
  - reflexivity.
  - reflexivity.
  - intros j pj Hj Hpj. destruct j as [|j]; [|lia].
    injection Hpj as <-. reflexivity.
Defined.

Lemma CacheEvaler_truncates_after_last_miss_witness :
  let cev := {| ev := {| ContinueOnErr := false |};
                cache := {[ hashPoint bits Sha1.Sum p1 := f5 ]} |} in
  let res := [p1; set_Val p2 f5] in
  Eval (Evaler := CacheEvaler_Evaler bits Sha1.Sum) cev obj_five
       [p1; p2; p1] [] =
    Done (res, 1, None,
          {| ev := {| ContinueOnErr := false |};
             cache := CacheEvaler_record bits Sha1.Sum (cache cev)
                        [set_Val p2 f5] |}) [[f2]]
  /\ map pos res = [[f1]; [f2]]
  /\ length res = 2%nat.
Proof.
  intros cev res.
  apply (@CacheEvaler_truncates_after_last_miss Z bits Sha1.Sum
           SerialEvaler _ cev obj_five [p1; p2; p1] [set_Val p2 f5] 1 p2 1 None
           {| ContinueOnErr := false |} [] [[f2]]).
  - reflexivity.
  - vm_compute. reflexivity.
  - intros j pj Hj Hpj. destruct j as [|[|[|j]]]; try lia; [|done].
    injection Hpj as <-. vm_compute. reflexivity.
  - vm_compute. reflexivity.
  - vm_compute. reflexivity.
Defined.

(** A schedule of the batch [p1, p2]: both goroutines are started, the
    second one reports first, and both results are received. *)
Definition sched_two : list action :=
  [Spawn; Spawn; Spawn; Evaluate 1; Evaluate 0; Send 1; WgDone 1; Receive;
   Send 0; Receive; WgDone 0].

Definition blocked_two : pstate :=
  {| main := Receiving; goroutines := [Finished; Finished]; ch := [];
     ch_cap := 2; ch_closed := false; wg := 0;
     res := [set_Val p2 f5; set_Val p1 f5]; err := None |}.

(** C3, evaluated.  After the schedule both goroutines have finished, the
    two results are in [results], and the caller is blocked in
    [for p := range ch]: no action is enabled. *)
Lemma ParallelEvaler_two_points_blocked :
  ParallelEvaler_run obj_five sched_two (ParallelEvaler_init [p1; p2])
    = Some blocked_two
  /\ length (res blocked_two) = 2%nat
  /\ forall a, ParallelEvaler_exec obj_five a blocked_two = None.
Proof.
  split; [reflexivity|]. split; [reflexivity|].
  intros a. apply ParallelEvaler_deadlock; try done.
  by repeat constructor.
Qed.

Lemma ParallelEvaler_never_returns_witness :
  main blocked_two <> Returned ([set_Val p2 f5; set_Val p1 f5], 2, None)
  /\ ch_closed blocked_two = false.
Proof.
  apply (@ParallelEvaler_never_returns Z obj_five [p1; p2] sched_two
           blocked_two ([set_Val p2 f5; set_Val p1 f5], 2, None)).
  reflexivity.
Defined.

(** ** The further properties at concrete points *)

Lemma CacheEvaler_returns_prefix_witness :
  exists (newresults : list Point) (inner : SerialEvaler) (k : nat),
    Eval {| ContinueOnErr := true |} obj_five
         (misses bits Sha1.Sum ∅ [p1; p2]) [] =
      Done (newresults, 2, None, inner) [[f1]; [f2]]
    /\ {| ev := {| ContinueOnErr := true |};
          cache := CacheEvaler_record bits Sha1.Sum ∅
                     [set_Val p1 f5; set_Val p2 f5] |}
       = {| ev := inner;
            cache := CacheEvaler_record bits Sha1.Sum ∅ newresults |}
    /\ (length newresults <= length (misses bits Sha1.Sum ∅ [p1; p2]))%nat
    /\ (k <= length [p1; p2])%nat
    /\ [set_Val p1 f5; set_Val p2 f5]
       = take k (backfilled bits Sha1.Sum ∅ [p1; p2] newresults)
    /\ map pos [set_Val p1 f5; set_Val p2 f5] = take k (map pos [p1; p2]).
Proof.
  apply (@CacheEvaler_returns_prefix Z bits Sha1.Sum SerialEvaler _
           (NewCacheEvaler {| ContinueOnErr := true |})
           {| ev := {| ContinueOnErr := true |};
              cache := CacheEvaler_record bits Sha1.Sum ∅
                         [set_Val p1 f5; set_Val p2 f5] |}
           obj_five [p1; p2] [set_Val p1 f5; set_Val p2 f5] 2 None
           [] [[f1]; [f2]]).
  vm_compute. reflexivity.
Defined.

Lemma CacheEvaler_panics_iff_witness :
  Eval (Evaler := CacheEvaler_Evaler bits Sha1.Sum)
       (NewCacheEvaler unavailableEvaler) obj_five [p1] [] = Panic <->
  (length (misses bits Sha1.Sum ∅ [p1]) < length (@nil (@Point Z)))%nat
  \/ (@nil (@Point Z) = [] /\ misses bits Sha1.Sum ∅ [p1] <> []).
Proof.
  apply (@CacheEvaler_panics_iff Z bits Sha1.Sum UnavailableEvaler _
           (NewCacheEvaler unavailableEvaler) obj_five [p1] [] 0
           (Some "evaluator unavailable"%string) unavailableEvaler [] []).
  reflexivity.
Defined.

Lemma CacheEvaler_cache_grows_witness :
  cache
    {| ev := {| ContinueOnErr := false |};
       cache := CacheEvaler_record bits Sha1.Sum
                  {[ hashPoint bits Sha1.Sum p1 := f5 ]} [set_Val p2 f5] |}
    !! hashPoint bits Sha1.Sum p1 = Some f5.
Proof.
  apply (@CacheEvaler_cache_grows Z bits Sha1.Sum {| ContinueOnErr := false |}
           {[ hashPoint bits Sha1.Sum p1 := f5 ]}
           {| ev := {| ContinueOnErr := false |};
              cache := CacheEvaler_record bits Sha1.Sum
                         {[ hashPoint bits Sha1.Sum p1 := f5 ]}
                         [set_Val p2 f5] |}
           obj_five [p2] [set_Val p2 f5] 1 None [] [[f2]]
           (hashPoint bits Sha1.Sum p1) f5).
  - vm_compute. reflexivity.
  - vm_compute. reflexivity.
Defined.

Lemma CacheEvaler_batch_cached_witness :
  exists v,
    cache {| ev := {| ContinueOnErr := true |};
             cache := CacheEvaler_record bits Sha1.Sum ∅
                        [set_Val p1 f5; set_Val p2 f5] |}
      !! hashPoint bits Sha1.Sum p2 = Some v
    /\ ((∅ : gmap (list Z) Z) !! hashPoint bits Sha1.Sum p2 = Some v
        \/ exists q, In q [p1; p2]
                     /\ hashPoint bits Sha1.Sum q = hashPoint bits Sha1.Sum p2
                     /\ v = fst (obj_five (pos q))).
Proof.
  apply (@CacheEvaler_batch_cached Z bits Sha1.Sum ∅
           {| ev := {| ContinueOnErr := true |};
              cache := CacheEvaler_record bits Sha1.Sum ∅
                         [set_Val p1 f5; set_Val p2 f5] |}
           obj_five [p1; p2] [set_Val p1 f5; set_Val p2 f5] 2 None
           [] [[f1]; [f2]] p2).
  - vm_compute. reflexivity.
  - right. left. reflexivity.
Defined.

Lemma CacheEvaler_second_call_no_evaluation_witness :
  let cev' := {| ev := {| ContinueOnErr := true |};
                 cache := CacheEvaler_record bits Sha1.Sum ∅
                            [set_Val p1 f5; set_Val p2 f5] |} in
  Eval (Evaler := CacheEvaler_Evaler bits Sha1.Sum) cev' obj_five
       [p2; p1; p2] [[f1]; [f2]] =
    Done ([p2; p1; p2], 0, None, cev') [[f1]; [f2]].
Proof.
  intros cev'.
  apply (@CacheEvaler_second_call_no_evaluation Z bits Sha1.Sum ∅ cev'
           obj_five [p1; p2] [set_Val p1 f5; set_Val p2 f5] [p2; p1; p2]
           2 None [] [[f1]; [f2]]).
  - vm_compute. reflexivity.
  - intros q [<-|[<-|[<-|[]]]].
    + exists p2. split; [right; left|]; reflexivity.
    + exists p1. split; [left|]; reflexivity.
    + exists p2. split; [right; left|]; reflexivity.
Defined.

Lemma hashPoint_data_bit_identical_witness :
  (flat_map (fun x => PutUint64 (bits x)) (pos p1) =
   flat_map (fun x => PutUint64 (bits x)) (pos (set_Val p1 f5))
   <-> map bits (pos p1) = map bits (pos (set_Val p1 f5)))
  /\ (map bits (pos p1) = map bits (pos (set_Val p1 f5)) ->
      hashPoint bits Sha1.Sum p1 = hashPoint bits Sha1.Sum (set_Val p1 f5)).
Proof.
  apply (@hashPoint_data_bit_identical Z bits Sha1.Sum p1 (set_Val p1 f5)).
  intros x. unfold bits. apply Z.mod_pos_bound. lia.
Defined.

(** The batch [p1] after its goroutine has evaluated the objective. *)
Definition evaluated_one : pstate :=
  {| main := Spawning [];
     goroutines := [Evaluated {| Point_ := set_Val p1 f5; Err := None |}];
     ch := []; ch_cap := 1; ch_closed := false; wg := 1; res := [];
     err := None |}.

Lemma ParallelEvaler_send_never_blocks_witness :
  exists s', ParallelEvaler_exec obj_five (Send 0) evaluated_one = Some s'
             /\ ch s' = ch evaluated_one
                        ++ [{| Point_ := set_Val p1 f5; Err := None |}].
Proof.
  apply (@ParallelEvaler_send_never_blocks Z obj_five [p1]
           [Spawn; Evaluate 0] evaluated_one 0%nat
           {| Point_ := set_Val p1 f5; Err := None |}).
  - reflexivity.
  - reflexivity.
Defined.

Lemma ParallelEvaler_wg_counts_unfinished_witness :
  wg blocked_two
    = len [p1; p2]
      - Z.of_nat (length (List.filter finished (goroutines blocked_two)))
  /\ 0 <= wg blocked_two.
Proof.
  apply (@ParallelEvaler_wg_counts_unfinished Z obj_five [p1; p2] sched_two
           blocked_two).
  reflexivity.
Defined.


(** ** ObjectivePenalty *)
Section Penalty.

Import Mat64.

Context {F : Type} `{Float64 F}.

Record ObjectivePenalty : Type := {
  A : Dense F;
  Low : Dense F;
  Up : Dense F;
  Obj : @Objectiver F;
  Weight : F;
  a : option (Dense F);   (* stacked version of A, [nil] before [init] *)
  b : option (Dense F);   (* Low and Up stacked *)
  ranges : list F         (* ranges[i] = u[i] - l[i] *)
}.

(** [for i := 0; i < m; i++ { o.ranges[i] = o.Up.At(i, 0) - o.Low.At(i, 0) }],
    [n] iterations being left. *)
Fixpoint ranges_loop (n : nat) (i : Z) (up low : Dense F) : option (list F) :=
  match n with
  | O => Some []
  | S n =>
      u ← At up i 0;
      l ← At low i 0;
      rest ← ranges_loop n (i + 1) up low;
      Some ((u - l)%F :: rest)
  end.

Definition ObjectivePenalty_init (o : ObjectivePenalty)
  : option ObjectivePenalty :=
  match a o with
  | Some _ => Some o
  | None =>
      let neglow := Scale (f_lit (-1)) (Low o) in
      b' ← Stack (Up o) neglow;
      let negA := Scale (f_lit (-1)) (A o) in
      a' ← Stack (A o) negA;
      let (m, _) := Dims (A o) in
      rs ← ranges_loop (Z.to_nat m) 0 (Up o) (Low o);
      Some {| A := A o; Low := Low o; Up := Up o; Obj := Obj o;
              Weight := Weight o; a := Some a'; b := Some b';
              ranges := rs ++ rs |}
  end.

(** The loop over the rows of [ax], [n] iterations being left. *)
Fixpoint penalty_loop (n : nat) (i : Z) (ax b : Dense F) (ranges : list F)
    (weight penalty : F) : option F :=
  match n with
  | O => Some penalty
  | S n =>
      axi ← At ax i 0;
      bi ← At b i 0;
      let diff := (axi - bi)%F in
      if (diff >? f_lit 0)%F then
        r ← index ranges i;
        penalty_loop n (i + 1) ax b ranges weight
          (penalty + diff / r * weight)%F
      else penalty_loop n (i + 1) ax b ranges weight penalty
  end.

(** [Objective]: the value, the error and the receiver, which [init] may
    have updated; [None] is a panic. *)
Definition ObjectivePenalty_Objective (o : ObjectivePenalty) (v : list F)
  : option (F * error * ObjectivePenalty) :=
  o ← ObjectivePenalty_init o;
  let (val, err) := Obj o v in
  if (Weight o =? f_lit 0)%F then Some (val, err, o)
  else
    x ← NewDense (len v) 1 v;
    sa ← a o;
    ax ← Mul sa x;
    let (m, _) := Dims ax in
    sb ← b o;
    penalty ← penalty_loop (Z.to_nat m) 0 ax sb (ranges o) (Weight o)
                (f_lit 0);
    Some ((val * (f_lit 1 + penalty))%F, err, o).

(** *** The penalty as a sum over the stacked rows *)

(** The matrix of one column with the entries [xs]. *)
Definition column (xs : list F) : Dense F :=
  {| ncols := 1; rows := map (fun x => [x]) xs |}.

(** The first column of [M]. *)
Definition col0 (M : Dense F) : list F :=
  omap (fun row : list F => row !! 0%nat) (rows M).

Definition neg (x : F) : F := (f_lit (-1) * x)%F.

(** [A_stacked x - b], row by row, for the system [A], [-A] stacked
    against [Up], [-Low]. *)
Definition stacked_diffs (o : ObjectivePenalty) (v : list F) : list F :=
  zip_with f_sub
    (map (fun ra => dot ra v) (rows (A o) ++ map (map neg) (rows (A o))))
    (col0 (Up o) ++ map neg (col0 (Low o))).

(** The ranges of the rows of the stacked system. *)
Definition stacked_ranges (o : ObjectivePenalty) : list F :=
  zip_with f_sub (col0 (Up o)) (col0 (Low o))
  ++ zip_with f_sub (col0 (Up o)) (col0 (Low o)).

(** The penalty accumulated over rows of differences [ds] and ranges
    [rs]. *)
Fixpoint penalty_sum (ds rs : list F) (w acc : F) : F :=
  match ds, rs with
  | d :: ds, r :: rs =>
      penalty_sum ds rs w
        (if (d >? f_lit 0)%F then (acc + d / r * w)%F else acc)
  | _, _ => acc
  end.

(** [Low] and [Up] are columns with one entry per row of [A]. *)
Definition two_sided (o : ObjectivePenalty) : Prop :=
  exists ups lows,
    Up o = column ups /\ Low o = column lows
    /\ length ups = length (rows (A o))
    /\ length lows = length (rows (A o)).

(** The receiver after [init], for one that was not initialised. *)
Definition initialised (o : ObjectivePenalty) : ObjectivePenalty :=
  {| A := A o; Low := Low o; Up := Up o; Obj := Obj o; Weight := Weight o;
     a := Some {| ncols := ncols (A o);
                  rows := rows (A o) ++ map (map neg) (rows (A o)) |};
     b := Some (column (col0 (Up o) ++ map neg (col0 (Low o))));
     ranges := stacked_ranges o |}.

Lemma col0_column (xs : list F) : col0 (column xs) = xs.
Proof. apply omap_column. Qed.

Lemma At_column (pre rest : list F) (x : F) :
  At (column (pre ++ x :: rest)) (len pre) 0 = Some x.
Proof.
  unfold At, column. cbn [rows]. rewrite map_app. cbn [map].
  replace (len pre) with (len (map (fun x : F => [x]) pre))
    by (unfold len; by rewrite length_map).
  by rewrite index_app_len.
Qed.

Lemma ranges_loop_columns (rest_u rest_l pre_u pre_l : list F) :
  length pre_u = length pre_l ->
  length rest_u = length rest_l ->
  ranges_loop (length rest_u) (len pre_u)
      (column (pre_u ++ rest_u)) (column (pre_l ++ rest_l)) =
    Some (zip_with f_sub rest_u rest_l).
Proof.
  revert rest_l pre_u pre_l.
  induction rest_u as [|u rest_u IH]; intros [|l rest_l] pre_u pre_l Hpre Hrest;
    try done.
  cbn [length ranges_loop zip_with].
  rewrite At_column. cbn [mbind option_bind].
  replace (len pre_u) with (len pre_l) at 1 by (unfold len; lia).
  rewrite At_column. cbn [mbind option_bind].
  pose proof (IH rest_l (pre_u ++ [u]) (pre_l ++ [l])) as IH'.
  rewrite len_app, <- !app_assoc in IH'. change (len [u]) with 1 in IH'.
  cbn [app] in IH'. rewrite IH'; [done| |].
  - rewrite !length_app. simpl. lia.
  - simpl in Hrest. lia.
Qed.

Lemma penalty_loop_columns (rs : list F) (w : F)
    (rest_ax rest_b rest_r pre_ax pre_b pre_r : list F) (acc : F) :
  length pre_ax = length pre_b ->
  length pre_ax = length pre_r ->
  length rest_ax = length rest_b ->
  length rest_ax = length rest_r ->
  rs = pre_r ++ rest_r ->
  penalty_loop (length rest_ax) (len pre_ax)
      (column (pre_ax ++ rest_ax)) (column (pre_b ++ rest_b)) rs w acc =
    Some (penalty_sum (zip_with f_sub rest_ax rest_b) rest_r w acc).
Proof.
  intros Hb Hr Hrb Hrr ->.
  revert rest_b rest_r pre_ax pre_b pre_r acc Hb Hr Hrb Hrr.
  induction rest_ax as [|x rest_ax IH];
    intros [|y rest_b] [|r rest_r] pre_ax pre_b pre_r acc Hb Hr Hrb Hrr;
    try done.
  cbn [length penalty_loop zip_with penalty_sum].
  rewrite At_column. cbn [mbind option_bind].
  replace (len pre_ax) with (len pre_b) at 1 by (unfold len; lia).
  rewrite At_column. cbn [mbind option_bind].
  replace (len pre_ax) with (len pre_r) at 1 by (unfold len; lia).
  rewrite index_app_len. cbn [mbind option_bind].
  simpl in Hrb, Hrr.
  assert (IH' : forall acc,
    penalty_loop (length rest_ax) (len pre_ax + 1)
      (column (pre_ax ++ x :: rest_ax)) (column (pre_b ++ y :: rest_b))
      (pre_r ++ r :: rest_r) w acc =
    Some (penalty_sum (zip_with f_sub rest_ax rest_b) rest_r w acc)).
  { intros acc'.
    pose proof (IH rest_b rest_r (pre_ax ++ [x]) (pre_b ++ [y])
                  (pre_r ++ [r]) acc') as IH'.
    rewrite len_app, <- !app_assoc in IH'. change (len [x]) with 1 in IH'.
    cbn [app] in IH'. apply IH'; rewrite ?length_app; simpl; lia. }
  by destruct (x - y >? f_lit 0)%F; rewrite IH'.
Qed.

Lemma ObjectivePenalty_init_fresh (o : ObjectivePenalty) :
  a o = None -> two_sided o ->
  ObjectivePenalty_init o = Some (initialised o).
Proof.
  intros Hfresh (ups & lows & Hup & Hlow & Hlu & Hll).
  unfold ObjectivePenalty_init, initialised, stacked_ranges.
  rewrite Hfresh, Hup, Hlow, !col0_column.
  unfold Stack, Scale, column at 1 2. cbn [ncols rows].
  rewrite !Z.eqb_refl. cbn [mbind option_bind Dims].
  unfold len at 1. rewrite Nat2Z.id, <- Hlu.
  pose proof (ranges_loop_columns ups lows [] [] eq_refl) as Hr.
  cbn [app] in Hr. change (len []) with 0 in Hr.
  rewrite Hr by lia. cbn [mbind option_bind].
  unfold column, neg. cbn [ncols rows]. by rewrite map_app, !map_map.
Qed.

Lemma ObjectivePenalty_Objective_fresh (o : ObjectivePenalty) (v : list F) :
  a o = None -> two_sided o ->
  ncols (A o) = len v ->
  (Weight o =? f_lit 0)%F = false ->
  ObjectivePenalty_Objective o v =
    Some ((fst (Obj o v) *
           (f_lit 1 + penalty_sum (stacked_diffs o v) (stacked_ranges o)
                        (Weight o) (f_lit 0)))%F,
          snd (Obj o v), initialised o).
Proof.
  intros Hfresh Hts Hn Hw. unfold ObjectivePenalty_Objective.
  rewrite ObjectivePenalty_init_fresh by done.
  cbn [mbind option_bind]. cbn [initialised Obj Weight a b ranges].
  destruct (Obj o v) as [val err]. rewrite Hw.
  rewrite NewDense_column. cbn [mbind option_bind].
  rewrite Mul_column by done. cbn [mbind option_bind Dims rows].
  destruct Hts as (ups & lows & Hup & Hlow & Hlu & Hll).
  set (sa := rows (A o) ++ map (map neg) (rows (A o))).
  set (bs := col0 (Up o) ++ map neg (col0 (Low o))).
  assert (Hax : {| ncols := 1; rows := map (fun ra => [dot ra v]) sa |}
                = column (map (fun ra => dot ra v) sa)).
  { unfold column. by rewrite map_map. }
  rewrite Hax. unfold len at 1. rewrite length_map, Nat2Z.id.
  pose proof (penalty_loop_columns (stacked_ranges o) (Weight o)
    (map (fun ra => dot ra v) sa) bs (stacked_ranges o) [] [] []
    (f_lit 0)) as Hloop.
  rewrite length_map in Hloop. cbn [app] in Hloop.
  change (len []) with 0 in Hloop.
  assert (Hlen_sa : length sa = (length (rows (A o)) + length (rows (A o)))%nat)
    by (unfold sa; by rewrite length_app, length_map).
  rewrite Hloop; try done.
  - unfold bs. rewrite Hup, Hlow, !col0_column, length_app, length_map. lia.
  - unfold stacked_ranges.
    rewrite Hup, Hlow, !col0_column, length_app, length_zip_with. lia.
Qed.

End Penalty.

Arguments ObjectivePenalty F : clear implicits.

(** *** Monotonicity of the penalty, in exact arithmetic *)

Import Mat64.

#[local] Open Scope Q_scope.

(** The violation of a row with difference [d]. *)
Definition violation (d : Q) : Q := if Qle_bool d 0 then 0 else d.

(** The violation of the stacked row [i] at [v]; there is none beyond the
    last row. *)
Definition violation_at (o : ObjectivePenalty Q) (v : list Q) (i : nat) : Q :=
  violation (nth i (stacked_diffs o v) 0).

(** [Low < Up], row by row. *)
Definition ranges_positive (o : ObjectivePenalty Q) : Prop :=
  Forall (fun r => 0 < r) (stacked_ranges o).

(** The sum over the stacked rows of violation / range * Weight. *)
Definition total_penalty (o : ObjectivePenalty Q) (v : list Q) : Q :=
  fold_right Qplus 0
    (zip_with (fun d r => violation d / r * Weight o)
              (stacked_diffs o v) (stacked_ranges o)).

Lemma penalty_step_mono (d d' r w acc acc' : Q) :
  violation d <= violation d' -> 0 < r -> 0 < w -> acc <= acc' ->
  (if negb (Qle_bool d 0) then acc + d / r * w else acc) <=
  (if negb (Qle_bool d' 0) then acc' + d' / r * w else acc').
Proof.
  unfold violation. intros Hv Hr Hw Hacc.
  assert (Hinv : 0 < / r) by (by apply Qinv_lt_0_compat).
  destruct (Qle_bool d 0) eqn:Hd; destruct (Qle_bool d' 0) eqn:Hd';
    cbn [negb].
  - done.
  - assert (Hpos : ~ d' <= 0) by (rewrite <- Qle_bool_iff; congruence).
    assert (0 <= d' / r * w).
    { apply Qmult_le_0_compat; [|by apply Qlt_le_weak].
      apply Qmult_le_0_compat; [|by apply Qlt_le_weak].
      apply Qnot_lt_le. intros Hlt. apply Hpos. by apply Qlt_le_weak. }
    rewrite <- (Qplus_0_r acc). by apply Qplus_le_compat.
  - exfalso. assert (Hpos : ~ d <= 0) by (rewrite <- Qle_bool_iff; congruence).
    by apply Hpos.
  - apply Qplus_le_compat; [done|].
    apply Qmult_le_compat_r; [|by apply Qlt_le_weak].
    apply Qmult_le_compat_r; [done|by apply Qlt_le_weak].
Qed.

Lemma penalty_sum_mono (ds ds' rs : list Q) (w acc acc' : Q) :
  Forall2 (fun d d' => violation d <= violation d') ds ds' ->
  Forall (fun r => 0 < r) rs -> 0 < w -> acc <= acc' ->
  penalty_sum ds rs w acc <= penalty_sum ds' rs w acc'.
Proof.
  intros Hds. revert rs acc acc'.
  induction Hds as [|d d' ds ds' Hd _ IH]; intros rs acc acc' Hrs Hw Hacc.
  - by destruct rs.
  - destruct rs as [|r rs]; [done|]. inversion Hrs; subst.
    cbn [penalty_sum]. apply IH; [done|done|].
    by apply penalty_step_mono.
Qed.

Lemma penalty_sum_total (ds rs : list Q) (w acc : Q) :
  penalty_sum ds rs w acc ==
    acc + fold_right Qplus 0 (zip_with (fun d r => violation d / r * w) ds rs).
Proof.
  revert rs acc. induction ds as [|d ds IH]; intros [|r rs] acc;
    cbn [penalty_sum zip_with fold_right]; try ring.
  rewrite IH. unfold violation.
  change (d >? f_lit 0)%F with (negb (Qle_bool d 0)).
  destruct (Qle_bool d 0); cbn [negb].
  - unfold Qdiv. ring.
  - change (acc + d / r * w)%F with (acc + d / r * w). ring.
Qed.

Lemma stacked_diffs_length (o : ObjectivePenalty Q) (v v' : list Q) :
  length (stacked_diffs o v) = length (stacked_diffs o v').
Proof. unfold stacked_diffs. by rewrite !length_zip_with, !length_map. Qed.

(** C7, as the code has it.  For a receiver that is not yet initialised,
    with [Low < Up] in every row and a positive weight, and a base value
    that is the same at [v] and at [v'] and not negative: when the violation
    of the stacked row [k] is no smaller at [v'] than at [v] and the
    violations of all other rows are the same, the penalized value at [v']
    is no smaller than at [v].  Both values are the base value times one
    plus the sum over the stacked rows of violation / range * Weight. *)
Theorem ObjectivePenalty_monotone (o : ObjectivePenalty Q) (v v' : list Q)
    (k : nat) :
  a o = None -> two_sided o -> ranges_positive o ->
  ncols (A o) = len v -> ncols (A o) = len v' ->
  0 < Weight o ->
  fst (Obj o v) == fst (Obj o v') ->
  0 <= fst (Obj o v) ->
  (forall i, i <> k -> violation_at o v i == violation_at o v' i) ->
  violation_at o v k <= violation_at o v' k ->
  exists r r' e e',
    ObjectivePenalty_Objective o v = Some (r, e, initialised o)
    /\ ObjectivePenalty_Objective o v' = Some (r', e', initialised o)
    /\ r == fst (Obj o v) * (1 + total_penalty o v)
    /\ r' == fst (Obj o v') * (1 + total_penalty o v')
    /\ r <= r'.
Proof.
  intros Hfresh Hts Hpos Hn Hn' Hw Hbase Hnonneg Hothers Hk.
  assert (Hw0 : (Weight o =? f_lit 0)%F = false).
  { change (Qeq_bool (Weight o) 0 = false). apply not_true_is_false.
    intros Heq. apply Qeq_bool_iff in Heq. rewrite Heq in Hw.
    by apply Qlt_irrefl in Hw. }
  rewrite !ObjectivePenalty_Objective_fresh by done.
  eexists _, _, _, _. split; [reflexivity|]. split; [reflexivity|].
  assert (Hformula : forall u,
    (fst (Obj o u) *
       (f_lit 1 + penalty_sum (stacked_diffs o u) (stacked_ranges o)
                    (Weight o) (f_lit 0)))%F
    == fst (Obj o u) * (1 + total_penalty o u)).
  { intros u. unfold total_penalty.
    change (fst (Obj o u) *
              (1 + penalty_sum (stacked_diffs o u) (stacked_ranges o)
                     (Weight o) 0)
            == fst (Obj o u) *
                 (1 + fold_right Qplus 0
                        (zip_with (fun d r => violation d / r * Weight o)
                           (stacked_diffs o u) (stacked_ranges o)))).
    rewrite penalty_sum_total. ring. }
  split; [apply Hformula|]. split; [apply Hformula|].
  change (fst (Obj o v) *
            (1 + penalty_sum (stacked_diffs o v) (stacked_ranges o)
                   (Weight o) 0)
          <= fst (Obj o v') *
            (1 + penalty_sum (stacked_diffs o v') (stacked_ranges o)
                   (Weight o) 0)).
  rewrite <- Hbase, !(Qmult_comm (fst (Obj o v))).
  apply Qmult_le_compat_r; [|done].
  apply Qplus_le_compat; [apply Qle_refl|].
  apply penalty_sum_mono; [|done|done|apply Qle_refl].
  apply Forall2_same_length_lookup_2; [apply stacked_diffs_length|].
  intros i d d' Hd Hd'.
  assert (Hvi : violation_at o v i = violation d)
    by (unfold violation_at; by rewrite (nth_lookup_Some _ _ _ _ Hd)).
  assert (Hvi' : violation_at o v' i = violation d')
    by (unfold violation_at; by rewrite (nth_lookup_Some _ _ _ _ Hd')).
  rewrite <- Hvi, <- Hvi'.
  destruct (decide (i = k)) as [->|Hne]; [done|].
  rewrite (Hothers i Hne). apply Qle_refl.
Qed.

(** The interval [0 <= x <= 1] of the line, with weight 1 and a constant
    base value. *)
Definition penalty_on_interval (base : Q) : ObjectivePenalty Q :=
  {| A := {| ncols := 1; rows := [[1]] |};
     Low := column [0]; Up := column [1];
     Obj := fun _ => (base, None); Weight := 1;
     a := None; b := None; ranges := [] |}.

(** C7 as stated fails for a negative base value: from [x = 1] to [x = 2]
    the violation of the row [x <= 1] grows from 0 to 1, the row [-x <= 0]
    stays satisfied, and the penalized value falls from -1 to -2. *)
Lemma ObjectivePenalty_negative_base_decreases :
  let o := penalty_on_interval (-1) in
  0 < Weight o
  /\ fst (Obj o [1]) == fst (Obj o [2])
  /\ (forall i, i <> 0%nat -> violation_at o [1] i == violation_at o [2] i)
  /\ violation_at o [1] 0 == 0 /\ violation_at o [2] 0 == 1
  /\ exists r r',
       ObjectivePenalty_Objective o [1] = Some (r, None, initialised o)
       /\ ObjectivePenalty_Objective o [2] = Some (r', None, initialised o)
       /\ r == -1 /\ r' == -2 /\ ~ r <= r'.
Proof.
  intros o. split; [reflexivity|]. split; [reflexivity|].
  split; [|split; [reflexivity|split; [reflexivity|]]].
  - intros [|[|i]] Hi; [done|reflexivity|]. unfold violation_at.
    by destruct i.
  - eexists _, _. split; [vm_compute; reflexivity|].
    split; [vm_compute; reflexivity|].
    split; [reflexivity|]. split; [reflexivity|]. by vm_compute.
Qed.

Lemma ObjectivePenalty_monotone_witness :
  let o := penalty_on_interval 1 in
  exists r r' e e',
    ObjectivePenalty_Objective o [1] = Some (r, e, initialised o)
    /\ ObjectivePenalty_Objective o [2] = Some (r', e', initialised o)
    /\ r == fst (Obj o [1]) * (1 + total_penalty o [1])
    /\ r' == fst (Obj o [2]) * (1 + total_penalty o [2])
    /\ r <= r'.
Proof.
  intros o.
  apply (ObjectivePenalty_monotone o [1] [2] 0).
  - reflexivity.
  - exists [1], [0]. repeat split; reflexivity.
  - repeat constructor.
  - reflexivity.
  - reflexivity.
  - reflexivity.
  - reflexivity.
  - discriminate.
  - intros [|[|i]] Hi; [done|reflexivity|]. unfold violation_at.
    by destruct i.
  - discriminate.
Defined.

(** *** Further properties of the penalty *)

(** With a weight of zero the value and the error of the wrapped objective
    are returned as they are, whatever the input: the only work done is
    that of [init]. *)
Theorem ObjectivePenalty_zero_weight {F : Type} `{Float64 F}
    (o : ObjectivePenalty F) (v : list F) :
  a o = None -> two_sided o ->
  (Weight o =? f_lit 0)%F = true ->
  ObjectivePenalty_Objective o v =
    Some (fst (Obj o v), snd (Obj o v), initialised o).
Proof.
  intros Hfresh Hts Hw. unfold ObjectivePenalty_Objective.
  rewrite ObjectivePenalty_init_fresh by done.
  cbn [mbind option_bind]. cbn [initialised Obj Weight].
  destruct (Obj o v) as [val e]. by rewrite Hw.
Qed.

(** [Objective] panics exactly when the weight is not zero and the point
    has not as many coordinates as [A] has columns: the product of the
    stacked matrix with the point is then undefined.  With a weight of
    zero the dimension of the point is never looked at. *)
Theorem ObjectivePenalty_panics_on_dimension {F : Type} `{Float64 F}
    (o : ObjectivePenalty F) (v : list F) :
  a o = None -> two_sided o ->
  ObjectivePenalty_Objective o v = None
  <-> (Weight o =? f_lit 0)%F = false /\ ncols (A o) <> len v.
Proof.
  intros Hfresh Hts.
  destruct (Weight o =? f_lit 0)%F eqn:Hw.
  - unfold ObjectivePenalty_Objective.
    rewrite ObjectivePenalty_init_fresh by done.
    cbn [mbind option_bind]. cbn [initialised Obj Weight].
    destruct (Obj o v) as [val e]. rewrite Hw.
    split; [done|by intros [? _]].
  - destruct (Z.eq_dec (ncols (A o)) (len v)) as [Hn|Hn].
    + rewrite ObjectivePenalty_Objective_fresh by done.
      split; [done|by intros [_ ?]].
    + split; [done|]. intros _. unfold ObjectivePenalty_Objective.
      rewrite ObjectivePenalty_init_fresh by done.
      cbn [mbind option_bind]. cbn [initialised Obj Weight a b ranges].
      destruct (Obj o v) as [val e]. rewrite Hw.
      rewrite NewDense_column. cbn [mbind option_bind].
      unfold Mul. cbn [ncols rows].
      replace (len (map (fun x : F => [x]) v)) with (len v)
        by (unfold len; by rewrite length_map).
      by destruct (Z.eqb_spec (ncols (A o)) (len v)).
Qed.

(** [init] works once: on the receiver it has initialised, [Objective]
    returns what it returned the first time and leaves the receiver as it
    is. *)
Theorem ObjectivePenalty_init_once {F : Type} `{Float64 F}
    (o : ObjectivePenalty F) (v : list F) :
  a o = None -> two_sided o ->
  ObjectivePenalty_init (initialised o) = Some (initialised o)
  /\ ObjectivePenalty_Objective (initialised o) v =
     ObjectivePenalty_Objective o v.
Proof.
  intros Hfresh Hts. split; [done|].
  unfold ObjectivePenalty_Objective.
  by rewrite (ObjectivePenalty_init_fresh o).
Qed.

Lemma violation_nonneg (d : Q) : 0 <= violation d.
Proof.
  unfold violation. destruct (Qle_bool d 0) eqn:Hd; [apply Qle_refl|].
  apply Qnot_lt_le. intros Hlt.
  assert (Hle : d <= 0) by (by apply Qlt_le_weak).
  apply Qle_bool_iff in Hle. congruence.
Qed.

Lemma penalty_terms_nonneg (ds rs : list Q) (w : Q) :
  Forall (fun r => 0 < r) rs -> 0 < w ->
  0 <= fold_right Qplus 0 (zip_with (fun d r => violation d / r * w) ds rs).
Proof.
  intros Hrs Hw. revert ds.
  induction Hrs as [|r rs Hr _ IH]; intros [|d ds];
    cbn [zip_with fold_right]; try apply Qle_refl.
  assert (Hterm : 0 <= violation d / r * w).
  { apply Qmult_le_0_compat; [|by apply Qlt_le_weak].
    apply Qmult_le_0_compat; [apply violation_nonneg|].
    by apply Qlt_le_weak, Qinv_lt_0_compat. }
  specialize (IH ds). lra.
Qed.

Lemma penalty_terms_zero (ds rs : list Q) (w : Q) :
  Forall (fun d => violation d == 0) ds ->
  fold_right Qplus 0 (zip_with (fun d r => violation d / r * w) ds rs) == 0.
Proof.
  intros Hds. revert rs.
  induction Hds as [|d ds Hd _ IH]; intros [|r rs];
    cbn [zip_with fold_right]; try reflexivity.
  rewrite IH, Hd. unfold Qdiv. ring.
Qed.

(** The value [Objective] returns for a receiver that is not yet
    initialised, in exact arithmetic. *)
Lemma ObjectivePenalty_value (o : ObjectivePenalty Q) (v : list Q) :
  a o = None -> two_sided o -> ncols (A o) = len v -> 0 < Weight o ->
  exists r,
    ObjectivePenalty_Objective o v = Some (r, snd (Obj o v), initialised o)
    /\ r == fst (Obj o v) * (1 + total_penalty o v).
Proof.
  intros Hfresh Hts Hn Hw.
  assert (Hw0 : (Weight o =? f_lit 0)%F = false).
  { change (Qeq_bool (Weight o) 0 = false). apply not_true_is_false.
    intros Heq. apply Qeq_bool_iff in Heq. rewrite Heq in Hw.
    by apply Qlt_irrefl in Hw. }
  rewrite ObjectivePenalty_Objective_fresh by done.
  eexists. split; [reflexivity|]. unfold total_penalty.
  change (fst (Obj o v) *
            (1 + penalty_sum (stacked_diffs o v) (stacked_ranges o)
                   (Weight o) 0)
          == fst (Obj o v) *
               (1 + fold_right Qplus 0
                      (zip_with (fun d r => violation d / r * Weight o)
                         (stacked_diffs o v) (stacked_ranges o)))).
  rewrite penalty_sum_total. ring.
Qed.

(** In exact arithmetic, with [Low < Up] and a positive weight: a point
    that violates no stacked row gets the base value; a base value that is
    not negative is never lowered, and one that is not positive is never
    raised. *)
Theorem ObjectivePenalty_sign (o : ObjectivePenalty Q) (v : list Q) :
  a o = None -> two_sided o -> ranges_positive o ->
  ncols (A o) = len v -> 0 < Weight o ->
  exists r,
    ObjectivePenalty_Objective o v = Some (r, snd (Obj o v), initialised o)
    /\ ((forall i, violation_at o v i == 0) -> r == fst (Obj o v))
    /\ (0 <= fst (Obj o v) -> fst (Obj o v) <= r)
    /\ (fst (Obj o v) <= 0 -> r <= fst (Obj o v)).
Proof.
  intros Hfresh Hts Hpos Hn Hw.
  destruct (ObjectivePenalty_value o v Hfresh Hts Hn Hw) as (r & Heq & Hr).
  exists r. split; [done|].
  pose proof (penalty_terms_nonneg (stacked_diffs o v) (stacked_ranges o)
                (Weight o) Hpos Hw) as Htp.
  fold (total_penalty o v) in Htp.
  split; [|split].
  - intros Hnone. rewrite Hr. unfold total_penalty.
    rewrite penalty_terms_zero; [ring|].
    apply Forall_lookup. intros i d Hd. specialize (Hnone i).
    unfold violation_at in Hnone.
    by rewrite (nth_lookup_Some _ _ _ _ Hd) in Hnone.
  - intros Hbase. rewrite Hr. nra.
  - intros Hbase. rewrite Hr. nra.
Qed.

(** The interval [0 <= x <= 1] with a weight of zero. *)
Definition penalty_switched_off : ObjectivePenalty Q :=
  {| A := {| ncols := 1; rows := [[1]] |};
     Low := column [0]; Up := column [1];
     Obj := fun _ => (3, None); Weight := 0;
     a := None; b := None; ranges := [] |}.

Lemma ObjectivePenalty_zero_weight_witness :
  ObjectivePenalty_Objective penalty_switched_off [7] =
    Some (3, None, initialised penalty_switched_off).
Proof.
  apply (@ObjectivePenalty_zero_weight Q Q_Float64 penalty_switched_off [7]).
  - reflexivity.
  - exists [1], [0]. repeat split; reflexivity.
  - reflexivity.
Defined.

Lemma ObjectivePenalty_panics_on_dimension_witness :
  ObjectivePenalty_Objective (penalty_on_interval 1) [1; 2] = None
  <-> (Weight (penalty_on_interval 1) =? f_lit 0)%F = false
      /\ ncols (A (penalty_on_interval 1)) <> len [1; 2].
Proof.
  apply (@ObjectivePenalty_panics_on_dimension Q Q_Float64
           (penalty_on_interval 1) [1; 2]).
  - reflexivity.
  - exists [1], [0]. repeat split; reflexivity.
Defined.

Lemma ObjectivePenalty_init_once_witness :
  ObjectivePenalty_init (initialised (penalty_on_interval 1))
    = Some (initialised (penalty_on_interval 1))
  /\ ObjectivePenalty_Objective (initialised (penalty_on_interval 1)) [2] =
     ObjectivePenalty_Objective (penalty_on_interval 1) [2].
Proof.
  apply (@ObjectivePenalty_init_once Q Q_Float64 (penalty_on_interval 1) [2]).
  - reflexivity.
  - exists [1], [0]. repeat split; reflexivity.
Defined.

Lemma ObjectivePenalty_sign_witness :
  let o := penalty_on_interval 1 in
  exists r,
    ObjectivePenalty_Objective o [2] = Some (r, None, initialised o)
    /\ ((forall i, violation_at o [2] i == 0) -> r == 1)
    /\ (0 <= 1 -> 1 <= r)
    /\ (1 <= 0 -> r <= 1).
Proof.
  intros o.
  apply (ObjectivePenalty_sign o [2]).
  - reflexivity.
  - exists [1], [0]. repeat split; reflexivity.
  - repeat constructor.
  - reflexivity.
  - reflexivity.
Defined.

(** ** L2Dist *)
Section Distance.

Context {F : Type} `{Float64 F}.

(** [math.Pow]. *)
Variable Pow : F -> F -> F.

Definition Point_Len (p : @Point F) : Z := len (pos p).

Definition Point_At (p : @Point F) (i : Z) : option F := index (pos p) i.

(** [for i := 0; i < p1.Len(); i++], [n] iterations being left. *)
Fixpoint L2Dist_loop (n : nat) (i : Z) (p1 p2 : @Point F) (tot : F)
  : option F :=
  match n with
  | O => Some tot
  | S n =>
      x ← Point_At p1 i;
      y ← Point_At p2 i;
      L2Dist_loop n (i + 1)%Z p1 p2 (tot + Pow (x - y) (f_lit 2))%F
  end.

(** [L2Dist]; [None] is the panic of an index out of range. *)
Definition L2Dist (p1 p2 : @Point F) : option F :=
  tot ← L2Dist_loop (Z.to_nat (Point_Len p1)) 0 p1 p2 (f_lit 0);
  Some (f_sqrt tot).

(** The sum of the loop over the pairs of coordinates. *)
Definition squares (xs ys : list F) (tot : F) : F :=
  fold_left (fun tot xy => tot + Pow (fst xy - snd xy) (f_lit 2))%F
            (combine xs ys) tot.

Lemma L2Dist_loop_spec (p1 p2 : @Point F) (xs ys pre1 pre2 : list F)
    (tot : F) :
  pos p1 = pre1 ++ xs -> pos p2 = pre2 ++ ys ->
  length pre1 = length pre2 ->
  L2Dist_loop (length xs) (len pre1) p1 p2 tot =
    if decide (length xs <= length ys)%nat
    then Some (squares xs ys tot) else None.
Proof.
  revert ys pre1 pre2 tot.
  induction xs as [|x xs IH]; intros ys pre1 pre2 tot H1 H2 Hpre.
  - reflexivity.
  - cbn [length L2Dist_loop]. unfold Point_At. rewrite H1, index_app_len.
    cbn [mbind option_bind].
    replace (len pre1) with (len pre2) at 1 by (unfold len; lia).
    destruct ys as [|y ys].
    + rewrite H2, app_nil_r, index_len. cbn [mbind option_bind].
      case_decide; [simpl in *; lia|done].
    + rewrite H2, index_app_len. cbn [mbind option_bind].
      pose proof (IH ys (pre1 ++ [x]) (pre2 ++ [y])
                    (tot + Pow (x - y) (f_lit 2))%F) as IH'.
      rewrite len_app in IH'. change (len [x]) with 1%Z in IH'.
      rewrite IH'.
      * cbn [length]. repeat case_decide; try lia; done.
      * by rewrite H1, <- app_assoc.
      * by rewrite H2, <- app_assoc.
      * rewrite !length_app. simpl. lia.
Qed.

(** [L2Dist] goes by the dimension of its first argument.  When the second
    point has at least as many coordinates, the coordinates beyond those
    of the first are ignored and there is no panic; when it has fewer,
    the call panics. *)
Theorem L2Dist_dimensions (p1 p2 : @Point F) :
  L2Dist p1 p2 =
    if decide (length (pos p1) <= length (pos p2))%nat
    then Some (f_sqrt (squares (pos p1) (take (length (pos p1)) (pos p2))
                               (f_lit 0)))
    else None.
Proof.
  unfold L2Dist, Point_Len. unfold len at 1. rewrite Nat2Z.id.
  pose proof (L2Dist_loop_spec p1 p2 (pos p1) (pos p2) [] [] (f_lit 0)
                eq_refl eq_refl eq_refl) as Hloop.
  change (len []) with 0%Z in Hloop. rewrite Hloop.
  case_decide as Hle; [|done].
  cbn [mbind option_bind]. do 2 f_equal. unfold squares. f_equal.
  clear Hloop. revert Hle. generalize (pos p1) (pos p2).
  induction l as [|x xs IH]; intros [|y ys] Hle; try done.
  cbn [length take combine]. f_equal. apply IH. simpl in Hle. lia.
Qed.

End Distance.

End Optim.

(** * Package mesh: projection onto a polyhedron *)
Module Mesh.

Import Mat64.

(** What a call yields: its value, an error returned to the caller, or a
    panic. *)
Inductive result (A : Type) : Type :=
| Ok (a : A)
| Failed (e : string)
| Panics.
Arguments Ok {A} a.
Arguments Failed {A} e.
Arguments Panics {A}.

Definition rbind {A B} (r : result A) (k : A -> result B) : result B :=
  match r with
  | Ok a => k a
  | Failed e => Failed e
  | Panics => Panics
  end.

(** A library call that panics where the model has [None]. *)
Definition lib {A} (o : option A) : result A :=
  match o with Some a => Ok a | None => Panics end.

Notation "'let*' x ':=' m 'in' k" := (rbind m (fun x => k))
  (at level 10, x pattern, m at level 100, k at level 200).

Section Project.

Context {F : Type} `{Float64 F}.

(** [mat64.Solve] and [mat64.Inverse], which report a singular system as an
    error. *)
Variable Solve : Dense F -> Dense F -> result (Dense F).
Variable Inverse : Dense F -> result (Dense F).

Definition eye (n : Z) : Dense F :=
  {| ncols := n;
     rows := map (fun i => map (fun j => if (i =? j)%nat then f_lit 1
                                          else f_lit 0)
                               (seq 0 (Z.to_nat n)))
                 (seq 0 (Z.to_nat n)) |}.

Definition OrthoProj (x0 : list F) (A b : Dense F) : result (list F) :=
  let* x := lib (NewDense (len x0) 1 x0) in
  let (m, n) := Dims A in
  if m >=? n then
    let* proj := Solve A b in
    lib (Col proj 0)
  else
    let Atrans := TCopy A in
    let* AAtrans := lib (Mul A Atrans) in
    let* inv := Inverse AAtrans in
    let* B := lib (Mul Atrans inv) in
    let (n, _) := Dims B in
    let* tmp := lib (Mul B A) in
    let* tmp := lib (Sub (eye n) tmp) in
    let* tmp := lib (Mul tmp x) in
    let* tmp2 := lib (Mul B b) in
    let* tmp := lib (Add tmp tmp2) in
    lib (Col tmp 0).

Definition l2norm (v : list F) : F :=
  f_sqrt (fold_left (fun tot x => tot + x * x)%F v (f_lit 0)).

Definition eps : F := f_lit (1 # 100000).

(** The loop of [mostviolated]: [n] iterations are left, starting at row
    [i]. *)
Fixpoint mostviolated_loop (n : nat) (i : Z) (A b ax : Dense F)
    (farthest : F) (worstRow : Z) : option (F * Z) :=
  match n with
  | O => Some (farthest, worstRow)
  | S n =>
      axi ← At ax i 0;
      bi ← At b i 0;
      if (axi - bi >? eps)%F then
        row ← Row A i;
        let d := ((axi - bi) / l2norm row)%F in
        if (d >? farthest)%F
        then mostviolated_loop n (i + 1) A b ax d i
        else mostviolated_loop n (i + 1) A b ax farthest worstRow
      else mostviolated_loop n (i + 1) A b ax farthest worstRow
  end.

(** [mostviolated]: the row of [A] and of [b] farthest beyond its
    hyperplane, [None] for [nil, nil]. *)
Definition mostviolated (x0 : list F) (A b : Dense F)
  : result (option (Dense F * Dense F)) :=
  let* xm := lib (NewDense (len x0) 1 x0) in
  let* ax := lib (Mul A xm) in
  let (m, _) := Dims ax in
  let* (_, worstRow) :=
    lib (mostviolated_loop (Z.to_nat m) 0 A b ax (f_lit 0) (-1)) in
  if worstRow =? -1 then Ok None
  else
    let* rowA := lib (Row A worstRow) in
    let* Aviol := lib (NewDense 1 (len x0) rowA) in
    let* rowb := lib (Row b worstRow) in
    let* bviol := lib (NewDense 1 1 rowb) in
    Ok (Some (Aviol, bviol)).

(** The variables of the loop of [Nearest]; [bad] is [None] while [badA]
    and [badb] are [nil]. *)
Record nstate : Type := {
  from : list F;
  proj : list F;
  bad : option (Dense F * Dense F);
  failcount : Z
}.

(** The ways through one iteration of the loop. *)
Inductive step : Type :=
| Feasible (p : list F)   (* no violated row: [return proj, true] *)
| Projected (st : nstate) (* the projection succeeded *)
| Retry (st : nstate)     (* it failed and the loop goes on *)
| GiveUp (p : list F).    (* it failed: [return proj, false] *)

Definition Nearest_body (A b : Dense F) (st : nstate) : result step :=
  let* viol := mostviolated (proj st) A b in
  match viol with
  | None => Ok (Feasible (proj st))
  | Some (Aviol, bviol) =>
      let* (badA, badb) :=
        match bad st with
        | None => Ok (Aviol, bviol)
        | Some (tmpA, tmpb) =>
            let* badA := lib (Stack tmpA Aviol) in
            let* badb := lib (Stack tmpb bviol) in
            Ok (badA, badb)
        end in
      match OrthoProj (from st) badA badb with
      | Panics => Panics
      | Failed _ =>
          let failcount := failcount st + 1 in
          if failcount =? 2 then Ok (GiveUp (proj st))
          else Ok (Retry {| from := proj st; proj := proj st; bad := None;
                            failcount := failcount |})
      | Ok newproj =>
          Ok (Projected {| from := from st; proj := newproj;
                           bad := Some (badA, badb);
                           failcount := failcount st |})
      end
  end.

(** The loop [for { ... }], at most [fuel] iterations of it: [None] when
    they do not suffice. *)
Fixpoint Nearest_loop (fuel : nat) (A b : Dense F) (st : nstate)
  : option (result (list F * bool)) :=
  match fuel with
  | O => None
  | S fuel =>
      match Nearest_body A b st with
      | Ok (Feasible p) => Some (Ok (p, true))
      | Ok (GiveUp p) => Some (Ok (p, false))
      | Ok (Projected st') | Ok (Retry st') => Nearest_loop fuel A b st'
      | Failed e => Some (Failed e)
      | Panics => Some Panics
      end
  end.

Definition Nearest (fuel : nat) (x0 : list F) (A b : Dense F)
  : option (result (list F * bool)) :=
  Nearest_loop fuel A b
    {| from := x0; proj := x0; bad := None; failcount := 0 |}.

(** The iterations the loop goes through, in order. *)
Fixpoint Nearest_steps (fuel : nat) (A b : Dense F) (st : nstate)
  : list step :=
  match fuel with
  | O => []
  | S fuel =>
      match Nearest_body A b st with
      | Ok (Projected st') => Projected st' :: Nearest_steps fuel A b st'
      | Ok (Retry st') => Retry st' :: Nearest_steps fuel A b st'
      | Ok s => [s]
      | _ => []
      end
  end.

(** ** A feasible point is returned as it is *)

(** [x0] satisfies every row of [A x <= b] within [eps]; [b] has one
    column. *)
Definition satisfies (x0 : list F) (A b : Dense F) : Prop :=
  Forall2 (fun row brow =>
             exists bi, brow = [bi] /\ (dot row x0 - bi >? eps)%F = false)
          (rows A) (rows b).

Definition is_Projected (s : step) : Prop :=
  match s with Projected _ => True | _ => False end.

(** The state after the steps [ss] from [st]. *)
Definition state_after (st : nstate) (ss : list step) : nstate :=
  fold_left (fun st s => match s with
                         | Projected st' | Retry st' => st'
                         | _ => st
                         end) ss st.

Lemma mostviolated_loop_satisfied (x0 : list F) (A b ax : Dense F)
    (restA restb preA preb : list (list F)) (farthest : F) (worstRow : Z) :
  Forall2 (fun row brow =>
             exists bi, brow = [bi] /\ (dot row x0 - bi >? eps)%F = false)
          restA restb ->
  length preA = length preb ->
  rows b = preb ++ restb ->
  rows ax = map (fun ra => [dot ra x0]) (preA ++ restA) ->
  mostviolated_loop (length restA) (len preA) A b ax farthest worstRow =
    Some (farthest, worstRow).
Proof.
  intros Hsat. revert preA preb.
  induction Hsat as [|row brow restA restb (bi & -> & Hle) _ IH];
    intros preA preb Hlen Hb Hax; [done|].
  cbn [length mostviolated_loop]. unfold At.
  rewrite Hax, map_app. cbn [map].
  replace (len preA) with (len (map (fun ra => [dot ra x0]) preA))
    by (unfold len; by rewrite length_map).
  rewrite index_app_len. cbn [mbind option_bind].
  change (index [dot row x0] 0) with (Some (dot row x0)).
  cbn [mbind option_bind].
  replace (len (map (fun ra => [dot ra x0]) preA)) with (len preb)
    by (unfold len; rewrite length_map; lia).
  rewrite Hb, index_app_len. cbn [mbind option_bind].
  change (index [bi] 0) with (Some bi). cbn [mbind option_bind].
  rewrite Hle.
  replace (len preb + 1) with (len (preA ++ [row]))
    by (rewrite len_app; unfold len; simpl; lia).
  apply (IH (preA ++ [row]) (preb ++ [[bi]])).
  - rewrite !length_app. simpl. lia.
  - by rewrite <- app_assoc.
  - by rewrite <- app_assoc.
Qed.

Lemma mostviolated_satisfied (x0 : list F) (A b : Dense F) :
  ncols A = len x0 -> satisfies x0 A b -> mostviolated x0 A b = Ok None.
Proof.
  intros Hn Hsat. unfold mostviolated.
  rewrite NewDense_column. cbn [lib rbind].
  rewrite (Mul_column A x0 Hn). cbn [lib rbind Dims rows ncols].
  unfold len at 1. rewrite length_map, Nat2Z.id.
  change 0 with (len (@nil (list F))).
  rewrite (mostviolated_loop_satisfied x0 A b _ (rows A) (rows b) [] []);
    done.
Qed.

(** C9. A point that satisfies every row of [A x <= b] within [eps], [A]
    having as many columns as the point has coordinates, is returned
    unchanged with [true], in the first iteration of the loop. *)
Theorem Nearest_feasible_unchanged (x0 : list F) (A b : Dense F)
    (fuel : nat) :
  ncols A = len x0 ->
  satisfies x0 A b ->
  (0 < fuel)%nat ->
  Nearest fuel x0 A b = Some (Ok (x0, true)).
Proof.
  intros Hn Hsat Hfuel. destruct fuel as [|fuel]; [lia|].
  unfold Nearest. cbn [Nearest_loop]. unfold Nearest_body. cbn [proj].
  by rewrite mostviolated_satisfied.
Qed.

(** ** The failures of the projection *)

(** What each way through the body does to the variables of the loop. *)
Lemma Nearest_body_inv (A b : Dense F) (st : nstate) (s : step) :
  Nearest_body A b st = Ok s ->
  match s with
  | Feasible p => p = proj st
  | Projected st' =>
      from st' = from st /\ failcount st' = failcount st /\ is_Some (bad st')
  | Retry st' =>
      st' = {| from := proj st; proj := proj st; bad := None;
               failcount := failcount st + 1 |}
      /\ failcount st + 1 <> 2
  | GiveUp p => p = proj st /\ failcount st + 1 = 2
  end.
Proof.
  unfold Nearest_body. intros Hbody.
  destruct (mostviolated (proj st) A b) as [[[Aviol bviol]|]| |];
    cbn [rbind] in Hbody; try done.
  - match type of Hbody with
    | rbind ?m _ = _ => destruct m as [[badA badb]| |]
    end; cbn [rbind] in Hbody; try done.
    destruct (OrthoProj (from st) badA badb) as [newproj| |]; try done.
    + inversion Hbody; subst. cbn [from failcount bad]. eauto.
    + destruct (Z.eqb_spec (failcount st + 1) 2);
        inversion Hbody; subst; done.
  - by inversion Hbody.
Qed.

(** With one failure behind it, the loop reports a failure at its next
    failed projection, after any number of successful ones. *)
Lemma Nearest_loop_second_failure (A b : Dense F) (fuel : nat) (st : nstate)
    (p : list F) :
  failcount st = 1 ->
  Nearest_loop fuel A b st = Some (Ok (p, false)) ->
  exists mid,
    Nearest_steps fuel A b st = mid ++ [GiveUp p]
    /\ Forall is_Projected mid
    /\ p = proj (state_after st mid).
Proof.
  revert st. induction fuel as [|fuel IH]; intros st Hfc Hloop; [done|].
  cbn [Nearest_loop Nearest_steps] in *.
  destruct (Nearest_body A b st) as [s| |] eqn:Hbody; try done.
  pose proof (Nearest_body_inv A b st s Hbody) as Hinv.
  destruct s as [q|st'|st'|q].
  - done.
  - destruct Hinv as (_ & Hfc' & _).
    destruct (IH st') as (mid & Hsteps & Hmid & Hp); [lia|done|].
    exists (Projected st' :: mid). rewrite Hsteps.
    split; [done|]. split; [by constructor|done].
  - destruct Hinv as [_ ?]. lia.
  - destruct Hinv as [-> _]. inversion Hloop; subst.
    exists []. split; [done|]. split; [constructor|done].
Qed.

Lemma Nearest_loop_two_failures (A b : Dense F) (fuel : nat) (st0 : nstate)
    (p : list F) :
  failcount st0 = 0 ->
  Nearest_loop fuel A b st0 = Some (Ok (p, false)) ->
  exists pre s1 mid,
    Nearest_steps fuel A b st0 = pre ++ [Retry s1] ++ mid ++ [GiveUp p]
    /\ Forall is_Projected pre
    /\ Forall is_Projected mid
    /\ from s1 = proj (state_after st0 pre)
    /\ proj s1 = proj (state_after st0 pre)
    /\ bad s1 = None
    /\ p = proj (state_after s1 mid).
Proof.
  revert st0. induction fuel as [|fuel IH]; intros st0 Hfc Hloop; [done|].
  cbn [Nearest_loop Nearest_steps] in *.
  destruct (Nearest_body A b st0) as [s| |] eqn:Hbody; try done.
  pose proof (Nearest_body_inv A b st0 s Hbody) as Hinv.
  destruct s as [q|st'|st'|q].
  - done.
  - destruct Hinv as (_ & Hfc' & _).
    destruct (IH st') as (pre & s1 & mid & Hsteps & Hpre & Hmid & Hs1);
      [lia|done|].
    exists (Projected st' :: pre), s1, mid. rewrite Hsteps.
    split; [done|]. split; [by constructor|]. split; [done|]. done.
  - destruct Hinv as [Heq _].
    destruct (Nearest_loop_second_failure A b fuel st' p)
      as (mid & Hsteps & Hmid & Hp); [subst st'; cbn [failcount]; lia|done|].
    exists [], st', mid. rewrite Hsteps.
    split; [done|]. split; [constructor|]. split; [done|].
    subst st'. cbn [from proj bad state_after fold_left] in *. done.
  - destruct Hinv as [_ ?]. lia.
Qed.

(** C2, as the code has it.  [Nearest] returns [false] at the second failed
    projection of the call, whether or not a successful projection
    separates it from the first.  The first failure is retried from the
    state [s1]: the candidate [proj] becomes the reference point [from] and
    the working set is cleared.  Every other iteration is a successful
    projection, and the point returned is the candidate at the second
    failure. *)
Theorem Nearest_false_at_second_failure (x0 : list F) (A b : Dense F)
    (fuel : nat) (p : list F) :
  Nearest fuel x0 A b = Some (Ok (p, false)) ->
  let st0 := {| from := x0; proj := x0; bad := None; failcount := 0 |} in
  exists pre s1 mid,
    Nearest_steps fuel A b st0 = pre ++ [Retry s1] ++ mid ++ [GiveUp p]
    /\ Forall is_Projected pre
    /\ Forall is_Projected mid
    /\ from s1 = proj (state_after st0 pre)
    /\ proj s1 = proj (state_after st0 pre)
    /\ bad s1 = None
    /\ p = proj (state_after s1 mid).
Proof.
  intros Hloop st0. by apply Nearest_loop_two_failures.
Qed.

(** ** What [mostviolated] returns *)

(** Row [row] of the system with bound [bi] is violated at [x0] beyond the
    tolerance. *)
Definition violated (x0 row : list F) (bi : F) : Prop :=
  (dot row x0 - bi >? eps)%F = true.

(** The distance the code computes from [x0] to the hyperplane of a row. *)
Definition distance (x0 row : list F) (bi : F) : F :=
  ((dot row x0 - bi) / l2norm row)%F.

(** The distance of a violated row from its hyperplane compares greater
    than zero: the norm of the row is neither zero nor so large that the
    quotient vanishes. *)
Definition distance_positive (row : list F) : Prop :=
  forall d : F, (d >? eps)%F = true -> (d / l2norm row >? f_lit 0)%F = true.

Lemma lookup_map {X Y} (f : X -> Y) (l : list X) (n : nat) :
  map f l !! n = f <$> l !! n.
Proof. revert n. induction l as [|x l IH]; intros [|n]; simpl; auto. Qed.

Lemma index_map {X Y} (f : X -> Y) (l : list X) (i : Z) :
  index (map f l) i = f <$> index l i.
Proof. unfold index. destruct (i <? 0); [done|]. apply lookup_map. Qed.

Lemma At_product (x0 : list F) (A ax : Dense F) (i : Z) (axi : F) :
  rows ax = map (fun ra => [dot ra x0]) (rows A) ->
  At ax i 0 = Some axi ->
  exists row, Row A i = Some row /\ axi = dot row x0.
Proof.
  unfold At, Row. intros Hax Hat. rewrite Hax, index_map in Hat.
  destruct (index (rows A) i) as [row|]; [|done].
  exists row. split; [done|]. cbn in Hat. by inversion Hat.
Qed.

(** The scan either leaves its two variables as they were, every violated
    row of the range being no farther than [farthest], or ends on a
    violated row of the range with the distance of that row. *)
Lemma mostviolated_loop_spec (x0 : list F) (A b ax : Dense F) (n : nat)
    (i : Z) (farthest : F) (worstRow : Z) (f' : F) (w' : Z) :
  rows ax = map (fun ra => [dot ra x0]) (rows A) ->
  mostviolated_loop n i A b ax farthest worstRow = Some (f', w') ->
  (f' = farthest /\ w' = worstRow
   /\ forall j row bi,
        i <= j < i + Z.of_nat n ->
        Row A j = Some row -> At b j 0 = Some bi -> violated x0 row bi ->
        (distance x0 row bi >? farthest)%F = false)
  \/ (i <= w' < i + Z.of_nat n
      /\ exists row bi,
           Row A w' = Some row /\ At b w' 0 = Some bi
           /\ violated x0 row bi /\ f' = distance x0 row bi).
Proof.
  intros Hax. revert i farthest worstRow.
  induction n as [|n IH]; intros i farthest worstRow Hloop.
  { inversion Hloop; subst. left. split; [done|]. split; [done|].
    intros; lia. }
  cbn [mostviolated_loop] in Hloop.
  destruct (At ax i 0) as [axi|] eqn:Haxi; [|done].
  destruct (At b i 0) as [bi|] eqn:Hbi; [|done].
  cbn [mbind option_bind] in Hloop.
  destruct (At_product x0 A ax i axi Hax Haxi) as (row & Hrow & ->).
  destruct (dot row x0 - bi >? eps)%F eqn:Hv.
  - rewrite Hrow in Hloop. cbn [mbind option_bind] in Hloop.
    destruct ((dot row x0 - bi) / l2norm row >? farthest)%F eqn:Hd.
    + destruct (IH _ _ _ Hloop) as [(-> & -> & _)|(Hw & Hrest)].
      * right. split; [lia|]. by exists row, bi.
      * right. split; [lia|done].
    + destruct (IH _ _ _ Hloop) as [(-> & -> & Hall)|(Hw & Hrest)].
      * left. split; [done|]. split; [done|].
        intros j row' bi' Hj Hrow' Hbi' Hv'.
        destruct (Z.eq_dec j i) as [->|Hne].
        -- rewrite Hrow in Hrow'. rewrite Hbi in Hbi'.
           inversion Hrow'; inversion Hbi'; subst. exact Hd.
        -- apply (Hall j); [lia|done..].
      * right. split; [lia|done].
  - destruct (IH _ _ _ Hloop) as [(-> & -> & Hall)|(Hw & Hrest)].
    + left. split; [done|]. split; [done|].
      intros j row' bi' Hj Hrow' Hbi' Hv'.
      destruct (Z.eq_dec j i) as [->|Hne].
      * rewrite Hrow in Hrow'. rewrite Hbi in Hbi'.
        inversion Hrow'; inversion Hbi'; subst.
        unfold violated in Hv'. congruence.
      * apply (Hall j); [lia|done..].
    + right. split; [lia|done].
Qed.

(** The call reaches its scan only with as many columns in [A] as [x0] has
    coordinates, and the scan covers the rows of [A]. *)
Lemma mostviolated_scan (x0 : list F) (A b : Dense F)
    (r : option (Dense F * Dense F)) :
  mostviolated x0 A b = Ok r ->
  ncols A = len x0
  /\ exists f' w',
       mostviolated_loop (length (rows A)) 0 A b
         {| ncols := 1; rows := map (fun ra => [dot ra x0]) (rows A) |}
         (f_lit 0) (-1) = Some (f', w')
       /\ if w' =? -1 then r = None
          else exists rowA Aviol rowb bviol,
                 Row A w' = Some rowA
                 /\ NewDense 1 (len x0) rowA = Some Aviol
                 /\ Row b w' = Some rowb
                 /\ NewDense 1 1 rowb = Some bviol
                 /\ r = Some (Aviol, bviol).
Proof.
  unfold mostviolated. rewrite NewDense_column. cbn [lib rbind].
  intros Hmv.
  destruct (Z.eq_dec (ncols A) (len x0)) as [Hn|Hn].
  2:{ unfold Mul in Hmv. cbn [rows] in Hmv.
      replace (len (map (fun x : F => [x]) x0)) with (len x0) in Hmv
        by (unfold len; by rewrite length_map).
      destruct (Z.eqb_spec (ncols A) (len x0)); done. }
  split; [done|].
  rewrite (Mul_column A x0 Hn) in Hmv. cbn [lib rbind Dims rows ncols] in Hmv.
  unfold len at 1 in Hmv. rewrite length_map, Nat2Z.id in Hmv.
  destruct (mostviolated_loop _ _ _ _ _ _ _) as [[f' w']|]; [|done].
  exists f', w'. split; [done|]. cbn [lib rbind] in Hmv.
  destruct (w' =? -1); [by inversion Hmv|].
  destruct (Row A w') as [rowA|] eqn:HrowA; [|done].
  cbn [lib rbind] in Hmv.
  destruct (NewDense 1 (len x0) rowA) as [Aviol|] eqn:HA; [|done].
  cbn [lib rbind] in Hmv.
  destruct (Row b w') as [rowb|] eqn:Hrowb; [|done].
  cbn [lib rbind] in Hmv.
  destruct (NewDense 1 1 rowb) as [bviol|] eqn:Hb; [|done].
  cbn [lib rbind] in Hmv. inversion Hmv; subst.
  by exists rowA, Aviol, rowb, bviol.
Qed.

Lemma NewDense_one_row (c : Z) (data : list F) (M : Dense F) :
  NewDense 1 c data = Some M ->
  len data = c /\ M = {| ncols := c; rows := [data] |}.
Proof.
  unfold NewDense. intros HM.
  destruct ((0 <=? 1) && (0 <=? c) && (len data =? 1 * c)) eqn:Hc; [|done].
  rewrite !andb_true_iff, Z.eqb_eq in Hc. destruct Hc as [_ Hlen].
  split; [lia|]. inversion HM; subst. f_equal.
  change (Z.to_nat 1) with 1%nat. cbn [chunks]. f_equal.
  apply take_ge. unfold len in Hlen. lia.
Qed.

(** A constraint returned by [mostviolated] is a row of the system, with
    its bound, that [x0] violates beyond the tolerance: [Aviol] is that row
    as a matrix of one row and [len(x0)] columns, [bviol] its bound as a
    matrix of one row and one column. *)
Theorem mostviolated_returns_violated_row (x0 : list F) (A b : Dense F)
    (Aviol bviol : Dense F) :
  mostviolated x0 A b = Ok (Some (Aviol, bviol)) ->
  exists i row bi,
    Row A i = Some row /\ Row b i = Some [bi]
    /\ violated x0 row bi
    /\ len row = len x0
    /\ Aviol = {| ncols := len x0; rows := [row] |}
    /\ bviol = {| ncols := 1; rows := [[bi]] |}.
Proof.
  intros Hmv.
  destruct (mostviolated_scan x0 A b _ Hmv) as (Hn & f' & w' & Hloop & Hw).
  apply (mostviolated_loop_spec x0) in Hloop; [|reflexivity].
  destruct Hloop
    as [(_ & -> & _)|(Hrange & row & bi & Hrow & Hbi & Hv & _)]; [done|].
  destruct (Z.eqb_spec w' (-1)) as [|_]; [lia|].
  destruct Hw
    as (rowA & Aviol' & rowb & bviol' & HrowA & HA & Hrowb & Hb & Heq).
  inversion Heq; subst Aviol' bviol'.
  rewrite Hrow in HrowA. inversion HrowA; subst rowA.
  destruct (NewDense_one_row _ _ _ HA) as [Hlen ->].
  destruct (NewDense_one_row _ _ _ Hb) as [Hlenb ->].
  unfold At in Hbi. unfold Row in Hrowb. rewrite Hrowb in Hbi.
  cbn [mbind option_bind] in Hbi.
  destruct rowb as [|bi' [|? ?]];
    [done| |unfold len in Hlenb; simpl in Hlenb; lia].
  inversion Hbi; subst bi'.
  by exists w', row, bi.
Qed.

(** The bounds [bs] as a matrix of one column. *)
Definition colvec (bs : list F) : Dense F :=
  {| ncols := 1; rows := map (fun x => [x]) bs |}.

Lemma mostviolated_None_satisfies (x0 : list F) (A : Dense F)
    (bs : list F) :
  length bs = length (rows A) ->
  Forall distance_positive (rows A) ->
  mostviolated x0 A (colvec bs) = Ok None ->
  satisfies x0 A (colvec bs).
Proof.
  intros Hlen Hpos Hmv.
  destruct (mostviolated_scan x0 A _ _ Hmv) as (Hn & f' & w' & Hloop & Hw).
  apply (mostviolated_loop_spec x0) in Hloop; [|reflexivity].
  destruct Hloop as [(_ & -> & Hall)|(Hrange & _)].
  2:{ destruct (Z.eqb_spec w' (-1)) as [|_]; [lia|].
      by destruct Hw as (? & ? & ? & ? & _ & _ & _ & _ & ?). }
  unfold satisfies, colvec. cbn [rows].
  apply Forall2_same_length_lookup_2; [by rewrite length_map|].
  intros k row brow Hrow Hbrow.
  rewrite lookup_map in Hbrow.
  destruct (bs !! k) as [bi|] eqn:Hbi; [|done].
  inversion Hbrow; subst brow. exists bi. split; [done|].
  destruct (dot row x0 - bi >? eps)%F eqn:Hv; [|done].
  assert (Hk : (k < length (rows A))%nat) by (by eapply lookup_lt_Some).
  assert (HrowA : Row A (Z.of_nat k) = Some row).
  { unfold Row, index. destruct (Z.ltb_spec (Z.of_nat k) 0); [lia|].
    by rewrite Nat2Z.id. }
  assert (Hb : At (colvec bs) (Z.of_nat k) 0 = Some bi).
  { unfold At, colvec, index. cbn [rows].
    destruct (Z.ltb_spec (Z.of_nat k) 0); [lia|].
    by rewrite Nat2Z.id, lookup_map, Hbi. }
  pose proof (Hall (Z.of_nat k) row bi ltac:(lia) HrowA Hb Hv) as Hd.
  rewrite Forall_forall in Hpos.
  assert (Hin : row ∈ rows A) by (by eapply list_elem_of_lookup_2).
  unfold distance in Hd. rewrite (Hpos row Hin _ Hv) in Hd. done.
Qed.

(** [mostviolated] returns [nil, nil] exactly for the points that violate
    no row beyond the tolerance, when [A] has as many columns as the point
    has coordinates, [b] is a column of as many bounds as [A] has rows and
    the distance of a violated row compares greater than zero. *)
Theorem mostviolated_nil_iff_satisfies (x0 : list F) (A : Dense F)
    (bs : list F) :
  ncols A = len x0 ->
  length bs = length (rows A) ->
  Forall distance_positive (rows A) ->
  mostviolated x0 A (colvec bs) = Ok None <-> satisfies x0 A (colvec bs).
Proof.
  intros Hn Hlen Hpos. split.
  - by apply mostviolated_None_satisfies.
  - by apply mostviolated_satisfied.
Qed.

Lemma Nearest_loop_true (A b : Dense F) (fuel : nat) (st : nstate)
    (p : list F) :
  Nearest_loop fuel A b st = Some (Ok (p, true)) ->
  mostviolated p A b = Ok None.
Proof.
  revert st. induction fuel as [|fuel IH]; intros st Hloop; [done|].
  cbn [Nearest_loop] in Hloop.
  destruct (Nearest_body A b st) as [s| |] eqn:Hbody; try done.
  destruct s as [q|st'|st'|q]; [|by eapply IH..|done].
  inversion Hloop; subst q. unfold Nearest_body in Hbody.
  destruct (mostviolated (proj st) A b) as [[[Aviol bviol]|]| |] eqn:Hmv;
    cbn [rbind] in Hbody; try done.
  - match type of Hbody with
    | rbind ?m _ = _ => destruct m as [[badA badb]| |]
    end; cbn [rbind] in Hbody; try done.
    destruct (OrthoProj (from st) badA badb); try done.
    destruct (failcount st + 1 =? 2); done.
  - inversion Hbody; subst. exact Hmv.
Qed.

(** A point that [Nearest] returns with [true] violates no row of the
    system beyond the tolerance, whatever the projections before it
    did. *)
Theorem Nearest_true_satisfies (x0 : list F) (A : Dense F) (bs : list F)
    (fuel : nat) (p : list F) :
  length bs = length (rows A) ->
  Forall distance_positive (rows A) ->
  Nearest fuel x0 A (colvec bs) = Some (Ok (p, true)) ->
  satisfies p A (colvec bs).
Proof.
  intros Hlen Hpos Hnear.
  apply mostviolated_None_satisfies; [done..|].
  by eapply Nearest_loop_true.
Qed.

(** ** Shapes: the projector does not panic *)

(** Every row of [M] has [ncols M] entries, as in a matrix of gonum. *)
Definition well_formed (M : Dense F) : Prop :=
  0 <= ncols M /\ Forall (fun r => len r = ncols M) (rows M).

(** What the code relies on from [mat64.Solve]: for [A] of [m >= n] rows
    and [B] of as many rows it gives a solution of [n] rows and the columns
    of [B], or an error. *)
Definition Solve_shaped : Prop :=
  forall A B : Dense F,
    well_formed A -> well_formed B ->
    len (rows B) = len (rows A) -> ncols A <= len (rows A) ->
    match Solve A B with
    | Ok X => ncols X = ncols B /\ len (rows X) = ncols A /\ well_formed X
    | Failed _ => True
    | Panics => False
    end.

(** And from [mat64.Inverse]: for a square matrix it gives a matrix of the
    same shape, or an error. *)
Definition Inverse_shaped : Prop :=
  forall M : Dense F,
    len (rows M) = ncols M ->
    match Inverse M with
    | Ok inv => ncols inv = ncols M /\ len (rows inv) = ncols M
    | Failed _ => True
    | Panics => False
    end.

Lemma Forall_all {X} (P : X -> Prop) (l : list X) :
  (forall x, P x) -> Forall P l.
Proof. intros HP. induction l; constructor; auto. Qed.

Lemma Mul_shape (A B : Dense F) :
  ncols A = len (rows B) ->
  exists C,
    Mul A B = Some C /\ ncols C = ncols B
    /\ length (rows C) = length (rows A)
    /\ Forall (fun r => length r = Z.to_nat (ncols B)) (rows C).
Proof.
  unfold Mul. intros ->. rewrite Z.eqb_refl. eexists. split; [done|].
  cbn [ncols rows]. split; [done|]. split; [by rewrite length_map|].
  apply Forall_map, Forall_all. intros ra.
  unfold TCopy. cbn [rows]. by rewrite !length_map, length_seq.
Qed.

Lemma zip_rows_shape (f : F -> F -> F) (A B : Dense F) (k : nat) :
  ncols A = ncols B ->
  length (rows A) = length (rows B) ->
  Forall (fun r => length r = k) (rows A) ->
  Forall (fun r => length r = k) (rows B) ->
  exists C,
    zip_rows f A B = Some C /\ ncols C = ncols A
    /\ length (rows C) = length (rows A)
    /\ Forall (fun r => length r = k) (rows C).
Proof.
  unfold zip_rows, len. intros -> Hlen HA HB.
  rewrite Hlen, !Z.eqb_refl. eexists. split; [done|].
  cbn [ncols rows andb]. split; [done|].
  split; [rewrite length_zip_with; lia|].
  clear Hlen. revert HB. generalize (rows B).
  induction HA as [|ra rsa Hra _ IH]; intros rsb HB; [constructor|].
  destruct HB as [|rb rsb Hrb HB]; [constructor|].
  cbn [zip_with]. constructor; [|by apply IH].
  rewrite length_zip_with. lia.
Qed.

Lemma eye_rows (n : Z) :
  length (rows (eye n)) = Z.to_nat n
  /\ Forall (fun r => length r = Z.to_nat n) (rows (eye n)).
Proof.
  unfold eye. cbn [rows]. split; [by rewrite length_map, length_seq|].
  apply Forall_map, Forall_all. intros i.
  by rewrite length_map, length_seq.
Qed.

Lemma Col_first (M : Dense F) (k : nat) :
  0 < ncols M ->
  (0 < k)%nat ->
  Forall (fun r => length r = k) (rows M) ->
  exists v, Col M 0 = Some v /\ length v = length (rows M).
Proof.
  unfold Col. intros Hn Hk Hrows.
  destruct (Z.ltb_spec 0 (ncols M)) as [_|?]; [|lia].
  cbn [Z.leb andb]. eexists. split; [done|].
  induction Hrows as [|r rs Hr _ IH]; [done|].
  destruct r as [|x r]; [simpl in Hr; lia|].
  change (length (x :: omap (fun row => index row 0) rs)
          = S (length rs)).
  simpl. by rewrite IH.
Qed.

Lemma colvec_well_formed (bs : list F) : well_formed (colvec bs).
Proof.
  unfold well_formed, colvec. cbn [ncols rows]. split; [lia|].
  apply Forall_map, Forall_all. done.
Qed.

Lemma colvec_rows (bs : list F) :
  Forall (fun r => length r = 1%nat) (rows (colvec bs)).
Proof.
  unfold colvec. cbn [rows]. apply Forall_map, Forall_all. done.
Qed.

Lemma well_formed_rows (M : Dense F) :
  well_formed M ->
  Forall (fun r => length r = Z.to_nat (ncols M)) (rows M).
Proof.
  unfold well_formed, len. intros [_ Hwf].
  eapply Forall_impl; [exact Hwf|]. intros r Hr. simpl in Hr. lia.
Qed.

(** What [OrthoProj] yields on a system of the right shape. *)
Definition projects_to (n : Z) (r : result (list F)) : Prop :=
  match r with
  | Ok v => len v = n
  | Failed _ => True
  | Panics => False
  end.

Lemma OrthoProj_shape (x0 : list F) (A : Dense F) (bs : list F) :
  Solve_shaped -> Inverse_shaped ->
  ncols A = len x0 ->
  well_formed A ->
  length bs = length (rows A) ->
  projects_to (len x0) (OrthoProj x0 A (colvec bs)).
Proof.
  intros HS HI Hn Hwf Hbs. unfold OrthoProj.
  rewrite NewDense_column. cbn [lib rbind Dims].
  destruct (Z.geb_spec (len (rows A)) (ncols A)) as [Hge|Hlt].
  - pose proof (HS A (colvec bs) Hwf (colvec_well_formed bs)) as Hs.
    assert (Hrb : len (rows (colvec bs)) = len (rows A)).
    { unfold colvec, len. cbn [rows]. rewrite length_map. lia. }
    specialize (Hs Hrb ltac:(lia)).
    destruct (Solve A (colvec bs)) as [X| |]; cbn [rbind]; [|done..].
    destruct Hs as (HcX & HrX & HwfX). cbn [colvec ncols] in HcX.
    destruct (Col_first X 1) as (v & -> & Hv);
      [lia|lia|apply well_formed_rows in HwfX; by rewrite HcX in HwfX|].
    cbn [lib projects_to]. unfold len in *. lia.
  - assert (Hn0 : 0 <= ncols A) by (unfold len in Hn; lia).
    destruct (Mul_shape A (TCopy A)) as (AAt & -> & HcAAt & HrAAt & _).
    { unfold TCopy, len. cbn [rows]. rewrite length_map, length_seq. lia. }
    cbn [lib rbind]. cbn [TCopy ncols] in HcAAt.
    pose proof (HI AAt) as Hi.
    unfold len in Hi at 1. rewrite HrAAt, HcAAt in Hi.
    specialize (Hi eq_refl).
    destruct (Inverse AAt) as [inv| |]; cbn [rbind projects_to]; [|done..].
    destruct Hi as (Hcinv & Hrinv).
    destruct (Mul_shape (TCopy A) inv) as (B & -> & HcB & HrB & _).
    { cbn [TCopy ncols]. lia. }
    cbn [lib rbind Dims].
    cbn [TCopy rows] in HrB. rewrite length_map, length_seq in HrB.
    destruct (Mul_shape B A) as (BA & -> & HcBA & HrBA & HBA).
    { lia. }
    cbn [lib rbind].
    destruct (eye_rows (len (rows B))) as (Hreye & Heye).
    assert (HlenB : Z.to_nat (len (rows B)) = Z.to_nat (ncols A))
      by (unfold len; lia).
    rewrite HlenB in Hreye, Heye.
    destruct (zip_rows_shape f_sub (eye (len (rows B))) BA
                (Z.to_nat (ncols A)))
      as (T1 & HT1 & HcT1 & HrT1 & _); [|lia|done|done|].
    { cbn [eye ncols]. unfold len. lia. }
    unfold Sub. rewrite HT1. cbn [lib rbind].
    cbn [eye ncols] in HcT1.
    destruct (Mul_shape T1 {| ncols := 1; rows := map (fun x => [x]) x0 |})
      as (T2 & -> & HcT2 & HrT2 & HT2).
    { cbn [rows]. unfold len in *. rewrite length_map. lia. }
    cbn [lib rbind]. cbn [ncols] in HcT2, HT2.
    destruct (Mul_shape B (colvec bs)) as (T3 & -> & HcT3 & HrT3 & HT3).
    { unfold colvec, len. cbn [rows]. rewrite length_map. unfold len in *.
      lia. }
    cbn [lib rbind]. cbn [colvec ncols] in HcT3, HT3.
    destruct (zip_rows_shape f_add T2 T3 1)
      as (T4 & HT4 & HcT4 & HrT4 & HT4r); [lia|lia|done|done|].
    unfold Add. rewrite HT4. cbn [lib rbind].
    destruct (Col_first T4 1) as (v & -> & Hv); [lia|lia|done|].
    cbn [lib projects_to]. unfold len in *. lia.
Qed.

Lemma index_lt {X} (l : list X) (i : Z) :
  0 <= i < len l -> exists x, index l i = Some x.
Proof.
  unfold index, len. intros Hi.
  destruct (Z.ltb_spec i 0); [lia|].
  apply lookup_lt_is_Some. lia.
Qed.

Lemma mostviolated_loop_total (x0 : list F) (A ax : Dense F) (bs : list F)
    (n : nat) (i : Z) (farthest : F) (worstRow : Z) :
  rows ax = map (fun ra => [dot ra x0]) (rows A) ->
  length bs = length (rows A) ->
  0 <= i -> i + Z.of_nat n <= len (rows A) ->
  exists f' w',
    mostviolated_loop n i A (colvec bs) ax farthest worstRow = Some (f', w').
Proof.
  intros Hax Hbs. revert i farthest worstRow.
  induction n as [|n IH]; intros i farthest worstRow Hi Hin; [by eexists _, _|].
  cbn [mostviolated_loop]. unfold At, Row, colvec. cbn [rows].
  rewrite Hax, !index_map.
  destruct (index_lt (rows A) i) as [row ->]; [lia|].
  destruct (index_lt bs i) as [bi ->]; [unfold len in *; lia|].
  cbn [fmap option_fmap option_map mbind option_bind index].
  change (index [dot row x0] 0) with (Some (dot row x0)).
  change (index [bi] 0) with (Some bi).
  cbn [mbind option_bind].
  destruct (dot row x0 - bi >? eps)%F; [|apply IH; lia].
  destruct (_ >? farthest)%F; apply IH; lia.
Qed.

Lemma NewDense_one_row_ok (c : Z) (data : list F) :
  len data = c ->
  NewDense 1 c data = Some {| ncols := c; rows := [data] |}.
Proof.
  intros Hlen. unfold NewDense.
  assert (Hc : (0 <=? 1) && (0 <=? c) && (len data =? 1 * c) = true).
  { rewrite !andb_true_iff, !Z.leb_le, Z.eqb_eq. unfold len in *. lia. }
  rewrite Hc. change (Z.to_nat 1) with 1%nat. cbn [chunks].
  rewrite take_ge; [done|]. unfold len in Hlen. lia.
Qed.

(** On a system of the right shape [mostviolated] returns, and what it
    returns is [nil, nil] or one row of the shape of the system. *)
Lemma mostviolated_shape (x0 : list F) (A : Dense F) (bs : list F) :
  ncols A = len x0 ->
  well_formed A ->
  length bs = length (rows A) ->
  exists r,
    mostviolated x0 A (colvec bs) = Ok r
    /\ match r with
       | None => True
       | Some (Aviol, bviol) =>
           exists row bi,
             len row = len x0
             /\ Aviol = {| ncols := len x0; rows := [row] |}
             /\ bviol = colvec [bi]
       end.
Proof.
  intros Hn Hwf Hbs. unfold mostviolated.
  rewrite NewDense_column. cbn [lib rbind].
  rewrite (Mul_column A x0 Hn). cbn [lib rbind Dims rows ncols].
  unfold len at 1. rewrite length_map, Nat2Z.id.
  destruct (mostviolated_loop_total x0 A
              {| ncols := 1; rows := map (fun ra => [dot ra x0]) (rows A) |}
              bs (length (rows A)) 0 (f_lit 0) (-1))
    as (f' & w' & Hloop); [done|done|lia|unfold len; lia|].
  rewrite Hloop. cbn [lib rbind].
  apply (mostviolated_loop_spec x0) in Hloop; [|reflexivity].
  destruct Hloop as [(_ & -> & _)|(Hw & row & bi & Hrow & Hbi & _)];
    [by exists None|].
  destruct (Z.eqb_spec w' (-1)) as [|_]; [lia|].
  assert (Hlen : len row = len x0).
  { rewrite <- Hn. destruct Hwf as [_ Hwf].
    rewrite Forall_forall in Hwf. apply Hwf.
    unfold Row, index in Hrow. destruct (w' <? 0); [done|].
    by eapply list_elem_of_lookup_2. }
  exists (Some ({| ncols := len x0; rows := [row] |}, colvec [bi])).
  split; [|by exists row, bi].
  rewrite Hrow. cbn [lib rbind].
  rewrite (NewDense_one_row_ok (len x0) row Hlen). cbn [lib rbind].
  unfold At, colvec in Hbi. cbn [rows] in Hbi.
  unfold Row, colvec. cbn [rows].
  rewrite index_map in Hbi |- *.
  destruct (index bs w') as [bi'|]; [|done].
  cbn in Hbi. inversion Hbi; subst bi'.
  cbn [fmap option_fmap option_map lib rbind].
  by rewrite (NewDense_one_row_ok 1 [bi]).
Qed.

(** The variables of the loop have the shape of the problem: the two
    points have [n] coordinates and the working set is a well-formed
    system of [n] columns with one bound per row. *)
Definition shaped (n : Z) (st : nstate) : Prop :=
  len (from st) = n /\ len (proj st) = n
  /\ match bad st with
     | None => True
     | Some (badA, badb) =>
         ncols badA = n /\ well_formed badA
         /\ exists bbs, badb = colvec bbs
                        /\ length bbs = length (rows badA)
     end.

Definition step_shaped (n : Z) (r : result step) : Prop :=
  match r with
  | Ok (Feasible p) | Ok (GiveUp p) => len p = n
  | Ok (Projected st') | Ok (Retry st') => shaped n st'
  | Failed _ | Panics => False
  end.

Lemma Nearest_body_shaped (A : Dense F) (bs : list F) (st : nstate) :
  Solve_shaped -> Inverse_shaped ->
  well_formed A ->
  length bs = length (rows A) ->
  shaped (ncols A) st ->
  step_shaped (ncols A) (Nearest_body A (colvec bs) st).
Proof.
  intros HS HI Hwf Hbs (Hfrom & Hproj & Hbad). unfold Nearest_body.
  destruct (mostviolated_shape (proj st) A bs) as (r & -> & Hr); [done..|].
  cbn [rbind].
  destruct r as [[Aviol bviol]|]; [|by cbn].
  destruct Hr as (row & bi & Hrow & -> & ->).
  assert (Hset : exists badA bbs,
             (match bad st with
              | None => Ok ({| ncols := len (proj st); rows := [row] |},
                            colvec [bi])
              | Some (tmpA, tmpb) =>
                  let* badA :=
                    lib (Stack tmpA
                           {| ncols := len (proj st); rows := [row] |}) in
                  let* badb := lib (Stack tmpb (colvec [bi])) in
                  Ok (badA, badb)
              end) = Ok (badA, colvec bbs)
             /\ ncols badA = ncols A /\ well_formed badA
             /\ length bbs = length (rows badA)).
  { destruct (bad st) as [[tmpA tmpb]|].
    - destruct Hbad as (Hc & Hwf' & bbs & -> & Hlen).
      exists {| ncols := ncols tmpA; rows := rows tmpA ++ [row] |},
             (bbs ++ [bi]).
      unfold Stack. cbn [ncols colvec].
      assert (Hc' : (ncols tmpA =? len (proj st)) = true)
        by (apply Z.eqb_eq; lia).
      rewrite Hc'. cbn [lib rbind Z.eqb Pos.eqb rows].
      split; [unfold colvec; cbn [rows]; by rewrite map_app|].
      split; [done|]. split.
      + destruct Hwf' as [Hc0 Hwf']. split; [done|]. cbn [ncols rows].
        apply Forall_app. split; [done|].
        constructor; [lia|constructor].
      + rewrite !length_app. simpl. lia.
    - exists {| ncols := len (proj st); rows := [row] |}, [bi].
      split; [done|]. split; [done|]. split; [|done].
      split; cbn [ncols rows]; [unfold len; lia|].
      constructor; [done|constructor]. }
  destruct Hset as (badA & bbs & -> & Hc & Hwf' & Hlen). cbn [rbind].
  pose proof (OrthoProj_shape (from st) badA bbs HS HI
                ltac:(lia) Hwf' Hlen) as Hop.
  destruct (OrthoProj (from st) badA (colvec bbs)) as [newproj|e|];
    cbn [projects_to] in Hop; [| |done].
  - cbn [step_shaped]. unfold shaped. cbn [from proj bad].
    split; [done|]. split; [lia|]. split; [done|]. split; [done|].
    by exists bbs.
  - destruct (failcount st + 1 =? 2); cbn [step_shaped]; [done|].
    unfold shaped. cbn [from proj bad]. done.
Qed.

(** What a call of [Nearest] yields on a system of the right shape within
    its iterations: a point of the dimension of the system, or nothing
    yet. *)
Definition returns_point (n : Z) (r : option (result (list F * bool)))
  : Prop :=
  match r with
  | None => True
  | Some (Ok (p, _)) => len p = n
  | Some (Failed _) | Some Panics => False
  end.

Lemma Nearest_loop_shaped (A : Dense F) (bs : list F) (fuel : nat)
    (st : nstate) :
  Solve_shaped -> Inverse_shaped ->
  well_formed A ->
  length bs = length (rows A) ->
  shaped (ncols A) st ->
  returns_point (ncols A) (Nearest_loop fuel A (colvec bs) st).
Proof.
  intros HS HI Hwf Hbs. revert st.
  induction fuel as [|fuel IH]; intros st Hst; [done|].
  cbn [Nearest_loop].
  pose proof (Nearest_body_shaped A bs st HS HI Hwf Hbs Hst) as Hbody.
  destruct (Nearest_body A (colvec bs) st) as [[p|st'|st'|p]| |];
    cbn [step_shaped] in Hbody; try done; by apply IH.
Qed.

(** [OrthoProj] does not panic on a system of the right shape: for a
    well-formed [A] with as many columns as [x0] has coordinates and a
    column [b] of one bound per row of [A], it returns the error of the
    solver or a point of as many coordinates as [x0], provided the solver
    respects the shapes. *)
Theorem OrthoProj_never_panics (x0 : list F) (A : Dense F) (bs : list F) :
  Solve_shaped -> Inverse_shaped ->
  ncols A = len x0 ->
  well_formed A ->
  length bs = length (rows A) ->
  match OrthoProj x0 A (colvec bs) with
  | Ok v => len v = len x0
  | Failed _ => True
  | Panics => False
  end.
Proof. apply OrthoProj_shape. Qed.

(** [Nearest] neither panics nor returns an error on a system of the right
    shape, and the point it returns, with [true] or with [false], has as
    many coordinates as [x0]. *)
Theorem Nearest_never_panics (x0 : list F) (A : Dense F) (bs : list F)
    (fuel : nat) :
  Solve_shaped -> Inverse_shaped ->
  ncols A = len x0 ->
  well_formed A ->
  length bs = length (rows A) ->
  match Nearest fuel x0 A (colvec bs) with
  | None => True
  | Some (Ok (p, _)) => len p = len x0
  | Some (Failed _) | Some Panics => False
  end.
Proof.
  intros HS HI Hn Hwf Hbs. rewrite <- Hn.
  apply (Nearest_loop_shaped A bs fuel _ HS HI Hwf Hbs).
  unfold shaped. cbn [from proj bad]. done.
Qed.

(** ** The value of the projection *)

Lemma Mul_value (A B : Dense F) :
  ncols A = len (rows B) ->
  Mul A B =
    Some {| ncols := ncols B;
            rows := map (fun ra => map (dot ra) (rows (TCopy B))) (rows A) |}.
Proof. unfold Mul. intros ->. by rewrite Z.eqb_refl. Qed.

Lemma zip_rows_value (f : F -> F -> F) (A B : Dense F) :
  ncols A = ncols B ->
  length (rows A) = length (rows B) ->
  zip_rows f A B =
    Some {| ncols := ncols A;
            rows := zip_with (zip_with f) (rows A) (rows B) |}.
Proof.
  unfold zip_rows, len. intros -> ->. by rewrite !Z.eqb_refl.
Qed.

Lemma first_column_sum (g h : list F -> F) (l1 l2 : list (list F)) :
  omap (fun row : list F => index row 0)
       (zip_with (zip_with f_add)
          (map (fun r => [g r]) l1) (map (fun r => [h r]) l2))
  = zip_with (fun r1 r2 => (g r1 + h r2)%F) l1 l2.
Proof.
  revert l2. induction l1 as [|r1 l1 IH]; intros [|r2 l2]; try done.
  cbn [map zip_with]. rewrite <- IH. reflexivity.
Qed.

(** The rows of [B = A^T * inv]. *)
Definition B_rows (A inv : Dense F) : list (list F) :=
  map (fun c => map (dot c) (rows (TCopy inv))) (rows (TCopy A)).

(** The point that the second branch of [OrthoProj] computes:
    [(I - B*A) * x0 + B * b], coordinate by coordinate. *)
Definition projection (x0 : list F) (A : Dense F) (bs : list F)
    (inv : Dense F) : list F :=
  zip_with (fun t rb => (dot t x0 + dot rb bs)%F)
    (zip_with (zip_with f_sub)
       (rows (eye (len (B_rows A inv))))
       (map (fun rb => map (dot rb) (rows (TCopy A))) (B_rows A inv)))
    (B_rows A inv).

Lemma OrthoProj_value (x0 : list F) (A : Dense F) (bs : list F)
    (AAt inv : Dense F) :
  ncols A = len x0 ->
  length bs = length (rows A) ->
  len (rows A) < ncols A ->
  Mul A (TCopy A) = Some AAt ->
  Inverse AAt = Ok inv ->
  ncols inv = len (rows A) ->
  len (rows inv) = len (rows A) ->
  OrthoProj x0 A (colvec bs) = Ok (projection x0 A bs inv).
Proof.
  intros Hn Hbs Hlt HAAt Hinv Hcinv Hrinv. unfold OrthoProj.
  rewrite NewDense_column. cbn [lib rbind Dims].
  destruct (Z.geb_spec (len (rows A)) (ncols A)) as [?|_]; [lia|].
  rewrite HAAt. cbn [lib rbind]. rewrite Hinv. cbn [rbind].
  assert (Hn0 : 0 <= ncols A) by (unfold len in Hn; lia).
  assert (HnA : length (rows (TCopy A)) = Z.to_nat (ncols A))
    by (unfold TCopy; cbn [rows]; by rewrite length_map, length_seq).
  rewrite (Mul_value (TCopy A) inv) by (cbn [TCopy ncols]; lia).
  cbn [lib rbind Dims rows ncols]. fold (B_rows A inv).
  assert (HnB : length (B_rows A inv) = Z.to_nat (ncols A))
    by (unfold B_rows; by rewrite length_map).
  rewrite (Mul_value {| ncols := ncols inv; rows := B_rows A inv |} A)
    by (cbn [ncols]; lia).
  cbn [lib rbind rows ncols]. unfold Sub.
  rewrite zip_rows_value; cbn [eye ncols rows].
  2:{ unfold len. lia. }
  2:{ rewrite !length_map, length_seq. unfold len. lia. }
  cbn [lib rbind].
  rewrite Mul_column by (cbn [ncols]; unfold len in *; lia).
  cbn [lib rbind rows].
  rewrite (Mul_column {| ncols := ncols inv; rows := B_rows A inv |} bs)
    by (cbn [ncols]; unfold len in *; lia).
  cbn [lib rbind rows]. unfold Add.
  rewrite zip_rows_value; cbn [ncols rows].
  2:{ done. }
  2:{ rewrite !length_map, length_zip_with, !length_map, length_seq.
      unfold len. lia. }
  cbn [lib rbind]. unfold Col. cbn [ncols rows Z.leb Z.ltb andb lib].
  by rewrite first_column_sum.
Qed.

End Project.

(** ** Exact linear algebra

    [mat64.Solve] and [mat64.Inverse] on the rationals, by Gauss-Jordan
    elimination: the instance at which runs of [Nearest] are evaluated.  A
    system without a pivot in some column is singular. *)
Definition ErrSingular : string := "mat64: matrix is singular".

(** The first row of [rs] with a non-zero entry in column [j], and the
    other rows. *)
Fixpoint pivot (j : nat) (rs : list (list Q))
  : option (list Q * list (list Q)) :=
  match rs with
  | [] => None
  | r :: rs =>
      if Qeq_bool (nth j r 0%Q) 0 then
        match pivot j rs with
        | Some (p, rest) => Some (p, r :: rest)
        | None => None
        end
      else Some (r, rs)
  end.

(** [n] columns from column [j] on are left to clear: [done] holds the rows
    with a unit pivot in the columns before [j]. *)
Fixpoint eliminate (n j : nat) (done todo : list (list Q))
  : option (list (list Q)) :=
  match n with
  | O => Some done
  | S n =>
      match pivot j todo with
      | None => None
      | Some (p, rest) =>
          let p := map (fun x => Qred (x / nth j p 0)%Q) p in
          let clear r :=
            zip_with (fun x y => Qred (x - nth j r 0 * y)%Q) r p in
          eliminate n (S j) (map clear done ++ [p]) (map clear rest)
      end
  end.

(** The solution [X] of [A X = B] for a square [A]. *)
Definition gauss (A B : Dense Q) : option (list (list Q)) :=
  let n := length (rows A) in
  match eliminate n 0 [] (zip_with app (rows A) (rows B)) with
  | Some reduced => Some (map (drop n) reduced)
  | None => None
  end.

Definition QInverse (A : Dense Q) : result (Dense Q) :=
  if len (rows A) =? ncols A then
    match gauss A (eye (ncols A)) with
    | Some X => Ok {| ncols := ncols A; rows := X |}
    | None => Failed ErrSingular
    end
  else Panics.

(** A square system is solved as it is, a system with more rows than
    columns in the least-squares sense. *)
Definition QSolve (A B : Dense Q) : result (Dense Q) :=
  let (m, n) := Dims A in
  if negb (len (rows B) =? m) || (m <? n) then Panics
  else if m =? n then
    match gauss A B with
    | Some X => Ok {| ncols := ncols B; rows := X |}
    | None => Failed ErrSingular
    end
  else
    let* AtA := lib (Mul (TCopy A) A) in
    let* AtB := lib (Mul (TCopy A) B) in
    match gauss AtA AtB with
    | Some X => Ok {| ncols := ncols B; rows := X |}
    | None => Failed ErrSingular
    end.

Definition QNearest : nat -> list Q -> Dense Q -> Dense Q
                      -> option (result (list Q * bool)) :=
  Nearest QSolve QInverse.

(** The half-planes [x <= 1] and [x >= 2] of the plane. *)
Definition A_strip : Dense Q := {| ncols := 2; rows := [[1; 0]; [-1; 0]]%Q |}.
Definition b_strip : Dense Q := {| ncols := 1; rows := [[1]; [-2]]%Q |}.

(** The quadrant [x <= 1], [y <= 1]. *)
Definition A_quadrant : Dense Q := {| ncols := 2; rows := [[1; 0]; [0; 1]]%Q |}.
Definition b_quadrant : Dense Q := {| ncols := 1; rows := [[1]; [1]]%Q |}.

(** C2 as stated fails.  From [(5, 0)] the strip [x <= 1], [x >= 2] gives a
    successful projection, a failure, a successful projection and a second
    failure: [Nearest] returns [false] although the two failures are not
    consecutive. *)
Lemma Nearest_failures_not_consecutive :
  QNearest 4 [5; 0]%Q A_strip b_strip = Some (Ok ([2; 0]%Q, false))
  /\ exists s0 s1 s2,
       Nearest_steps QSolve QInverse 4 A_strip b_strip
         {| from := [5; 0]%Q; proj := [5; 0]%Q; bad := None;
            failcount := 0 |}
       = [Projected s0; Retry s1; Projected s2; GiveUp [2; 0]%Q].
Proof.
  split; [vm_compute; reflexivity|].
  eexists _, _, _. vm_compute. reflexivity.
Qed.

Lemma Nearest_false_at_second_failure_witness :
  let st0 := {| from := [5; 0]%Q; proj := [5; 0]%Q; bad := None;
                failcount := 0 |} in
  exists pre s1 mid,
    Nearest_steps QSolve QInverse 4 A_strip b_strip st0
      = pre ++ [Retry s1] ++ mid ++ [GiveUp [2; 0]%Q]
    /\ Forall is_Projected pre
    /\ Forall is_Projected mid
    /\ from s1 = proj (state_after st0 pre)
    /\ proj s1 = proj (state_after st0 pre)
    /\ bad s1 = None
    /\ [2; 0]%Q = proj (state_after s1 mid).
Proof.
  apply (@Nearest_false_at_second_failure Q Q_Float64 QSolve QInverse
           [5; 0]%Q A_strip b_strip 4 [2; 0]%Q).
  vm_compute. reflexivity.
Defined.

Lemma Nearest_feasible_unchanged_witness :
  QNearest 1 [1; 0]%Q A_quadrant b_quadrant = Some (Ok ([1; 0]%Q, true)).
Proof.
  apply (@Nearest_feasible_unchanged Q Q_Float64 QSolve QInverse
           [1; 0]%Q A_quadrant b_quadrant 1).
  - reflexivity.
  - repeat constructor; eexists; (split; [reflexivity|vm_compute; reflexivity]).
  - lia.
Defined.

(** The scenario of the specification: from [(2, 2)] the quadrant gives
    [(1, 1)]. *)
Example Nearest_quadrant_corner :
  QNearest 3 [2; 2]%Q A_quadrant b_quadrant = Some (Ok ([1; 1]%Q, true)).
Proof. vm_compute. reflexivity. Qed.

(** ** The most violated row, in exact arithmetic *)

Lemma Qgt_true (x y : Q) : (x >? y)%F = true <-> (y < x)%Q.
Proof.
  cbn [f_gt Q_Float64]. rewrite negb_true_iff.
  destruct (Qle_bool x y) eqn:Hle.
  - apply Qle_bool_iff in Hle. split; [done|]. intros Hlt.
    exfalso. by apply (Qlt_not_le _ _ Hlt).
  - split; [intros _|done]. apply Qnot_le_lt. intros Hxy.
    apply Qle_bool_iff in Hxy. congruence.
Qed.

Lemma Qgt_false (x y : Q) : (x >? y)%F = false <-> (x <= y)%Q.
Proof.
  cbn [f_gt Q_Float64]. rewrite negb_false_iff. apply Qle_bool_iff.
Qed.

(** A row of positive norm keeps the distance of a violated row
    positive. *)
Lemma distance_positive_norm (row : list Q) :
  (0 < l2norm row)%Q -> distance_positive row.
Proof.
  intros Hnorm d Hd. apply Qgt_true in Hd. apply Qgt_true.
  cbn [f_div f_lit Q_Float64] in *.
  apply Qlt_shift_div_l; [done|].
  unfold eps in Hd. cbn [f_lit Q_Float64] in Hd. lra.
Qed.

(** The scan keeps the largest distance met so far: it ends on the first
    row of the largest distance among the violated rows of its range that
    are farther than [farthest], if there is one. *)
Lemma mostviolated_loop_farthest (x0 : list Q) (A b ax : Dense Q) (n : nat)
    (i : Z) (farthest : Q) (worstRow : Z) (f' : Q) (w' : Z) :
  rows ax = map (fun ra => [dot ra x0]) (rows A) ->
  mostviolated_loop n i A b ax farthest worstRow = Some (f', w') ->
  (farthest <= f')%Q
  /\ (forall j row bi,
        i <= j < i + Z.of_nat n ->
        Row A j = Some row -> At b j 0 = Some bi -> violated x0 row bi ->
        (distance x0 row bi <= f')%Q)
  /\ ((f' = farthest /\ w' = worstRow)
      \/ (i <= w' < i + Z.of_nat n
          /\ (farthest < f')%Q
          /\ (exists row bi,
                Row A w' = Some row /\ At b w' 0 = Some bi
                /\ f' = distance x0 row bi)
          /\ forall j row bi,
               i <= j < w' ->
               Row A j = Some row -> At b j 0 = Some bi ->
               violated x0 row bi ->
               (distance x0 row bi < f')%Q)).
Proof.
  intros Hax. revert i farthest worstRow.
  induction n as [|n IH]; intros i farthest worstRow Hloop.
  { inversion Hloop; subst. split; [lra|]. split; [intros; lia|by left]. }
  cbn [mostviolated_loop] in Hloop.
  destruct (At ax i 0) as [axi|] eqn:Haxi; [|done].
  destruct (At b i 0) as [bi|] eqn:Hbi; [|done].
  cbn [mbind option_bind] in Hloop.
  destruct (At_product x0 A ax i axi Hax Haxi) as (row & Hrow & ->).
  destruct (dot row x0 - bi >? eps)%F eqn:Hv.
  - rewrite Hrow in Hloop. cbn [mbind option_bind] in Hloop.
    change ((dot row x0 - bi) / l2norm row)%F with (distance x0 row bi)
      in Hloop.
    destruct (distance x0 row bi >? farthest)%F eqn:Hd.
    + apply Qgt_true in Hd.
      destruct (IH _ _ _ Hloop) as (Hle & Hall & Hcase).
      split; [lra|]. split.
      * intros j row' bi' Hj Hrow' Hbi' Hv'.
        destruct (Z.eq_dec j i) as [->|Hne].
        -- rewrite Hrow in Hrow'. rewrite Hbi in Hbi'.
           inversion Hrow'; inversion Hbi'; subst. exact Hle.
        -- apply (Hall j); [lia|done..].
      * right. destruct Hcase as [[-> ->]|(Hw & Hlt & Hrest & Hfirst)].
        -- split; [lia|]. split; [done|]. split; [by exists row, bi|].
           intros; lia.
        -- split; [lia|]. split; [lra|]. split; [done|].
           intros j row' bi' Hj Hrow' Hbi' Hv'.
           destruct (Z.eq_dec j i) as [->|Hne].
           ++ rewrite Hrow in Hrow'. rewrite Hbi in Hbi'.
              inversion Hrow'; inversion Hbi'; subst. exact Hlt.
           ++ apply (Hfirst j); [lia|done..].
    + apply Qgt_false in Hd.
      destruct (IH _ _ _ Hloop) as (Hle & Hall & Hcase).
      split; [done|]. split.
      * intros j row' bi' Hj Hrow' Hbi' Hv'.
        destruct (Z.eq_dec j i) as [->|Hne].
        -- rewrite Hrow in Hrow'. rewrite Hbi in Hbi'.
           inversion Hrow'; inversion Hbi'; subst. lra.
        -- apply (Hall j); [lia|done..].
      * destruct Hcase as [[-> ->]|(Hw & Hlt & Hrest & Hfirst)];
          [by left|right].
        split; [lia|]. split; [done|]. split; [done|].
        intros j row' bi' Hj Hrow' Hbi' Hv'.
        destruct (Z.eq_dec j i) as [->|Hne].
        -- rewrite Hrow in Hrow'. rewrite Hbi in Hbi'.
           inversion Hrow'; inversion Hbi'; subst. lra.
        -- apply (Hfirst j); [lia|done..].
  - destruct (IH _ _ _ Hloop) as (Hle & Hall & Hcase).
    split; [done|]. split.
    + intros j row' bi' Hj Hrow' Hbi' Hv'.
      destruct (Z.eq_dec j i) as [->|Hne].
      * rewrite Hrow in Hrow'. rewrite Hbi in Hbi'.
        inversion Hrow'; inversion Hbi'; subst.
        unfold violated in Hv'. congruence.
      * apply (Hall j); [lia|done..].
    + destruct Hcase as [[-> ->]|(Hw & Hlt & Hrest & Hfirst)];
        [by left|right].
      split; [lia|]. split; [done|]. split; [done|].
      intros j row' bi' Hj Hrow' Hbi' Hv'.
      destruct (Z.eq_dec j i) as [->|Hne].
      * rewrite Hrow in Hrow'. rewrite Hbi in Hbi'.
        inversion Hrow'; inversion Hbi'; subst.
        unfold violated in Hv'. congruence.
      * apply (Hfirst j); [lia|done..].
Qed.

(** In exact arithmetic, for a system without a row of norm zero, the
    constraint that [mostviolated] returns is the farthest of the violated
    ones: row [i] of the system, at a positive distance from the point
    that no violated row exceeds and no violated row before row [i]
    reaches. *)
Theorem mostviolated_returns_farthest (x0 : list Q) (A b : Dense Q)
    (Aviol bviol : Dense Q) :
  Forall (fun row => (0 < l2norm row)%Q) (rows A) ->
  mostviolated x0 A b = Ok (Some (Aviol, bviol)) ->
  exists i row bi,
    Row A i = Some row /\ At b i 0 = Some bi
    /\ rows Aviol = [row] /\ rows bviol = [[bi]]
    /\ (0 < distance x0 row bi)%Q
    /\ forall j row' bi',
         Row A j = Some row' -> At b j 0 = Some bi' ->
         violated x0 row' bi' ->
         (distance x0 row' bi' <= distance x0 row bi)%Q
         /\ (j < i -> (distance x0 row' bi' < distance x0 row bi)%Q).
Proof.
  intros _ Hmv.
  destruct (mostviolated_scan x0 A b _ Hmv) as (Hn & f' & w' & Hloop & Hw).
  apply (mostviolated_loop_farthest x0) in Hloop; [|reflexivity].
  destruct Hloop as (_ & Hall & Hcase).
  destruct Hcase as [[_ ->]|(Hrange & Hpos & Hrest & Hfirst)]; [done|].
  destruct Hrest as (row & bi & Hrow & Hbi & ->).
  destruct (Z.eqb_spec w' (-1)) as [|_]; [lia|].
  destruct Hw
    as (rowA & Aviol' & rowb & bviol' & HrowA & HA & Hrowb & Hb & Heq).
  inversion Heq; subst Aviol' bviol'.
  rewrite Hrow in HrowA. inversion HrowA; subst rowA.
  destruct (NewDense_one_row _ _ _ HA) as [Hlen ->].
  destruct (NewDense_one_row _ _ _ Hb) as [Hlenb ->].
  assert (Hrowb' : rowb = [bi]).
  { unfold At in Hbi. unfold Row in Hrowb. rewrite Hrowb in Hbi.
    cbn [mbind option_bind] in Hbi.
    destruct rowb as [|bi' [|? ?]];
      [done| |unfold len in Hlenb; simpl in Hlenb; lia].
    by inversion Hbi. }
  subst rowb.
  exists w', row, bi. split; [done|]. split; [done|]. split; [done|].
  split; [done|]. split; [exact Hpos|].
  intros j row' bi' Hrow' Hbi' Hv'.
  assert (Hj : 0 <= j < Z.of_nat (length (rows A))).
  { unfold Row, index in Hrow'.
    destruct (Z.ltb_spec j 0); [done|].
    apply lookup_lt_Some in Hrow'. lia. }
  split.
  - apply (Hall j); [lia|done..].
  - intros Hlt. apply (Hfirst j); [lia|done..].
Qed.

Lemma mostviolated_returns_violated_row_witness :
  exists i row bi,
    Row A_quadrant i = Some row /\ Row b_quadrant i = Some [bi]
    /\ violated [2; 2]%Q row bi
    /\ len row = len [2; 2]%Q
    /\ {| ncols := 2; rows := [[1; 0]]%Q |}
       = {| ncols := len [2; 2]%Q; rows := [row] |}
    /\ {| ncols := 1; rows := [[1]]%Q |} = {| ncols := 1; rows := [[bi]] |}.
Proof.
  apply (@mostviolated_returns_violated_row Q Q_Float64
           [2; 2]%Q A_quadrant b_quadrant).
  vm_compute. reflexivity.
Defined.

Lemma quadrant_rows_positive : Forall distance_positive (rows A_quadrant).
Proof.
  repeat constructor; apply distance_positive_norm; reflexivity.
Qed.

Lemma mostviolated_nil_iff_satisfies_witness :
  mostviolated [1; 0]%Q A_quadrant (colvec [1; 1]%Q) = Ok None
  <-> satisfies [1; 0]%Q A_quadrant (colvec [1; 1]%Q).
Proof.
  apply (@mostviolated_nil_iff_satisfies Q Q_Float64
           [1; 0]%Q A_quadrant [1; 1]%Q).
  - reflexivity.
  - reflexivity.
  - exact quadrant_rows_positive.
Defined.

Lemma Nearest_true_satisfies_witness :
  satisfies [1; 1]%Q A_quadrant (colvec [1; 1]%Q).
Proof.
  apply (@Nearest_true_satisfies Q Q_Float64 QSolve QInverse
           [2; 2]%Q A_quadrant [1; 1]%Q 3 [1; 1]%Q).
  - reflexivity.
  - exact quadrant_rows_positive.
  - vm_compute. reflexivity.
Defined.

Lemma mostviolated_returns_farthest_witness :
  exists i row bi,
    Row A_quadrant i = Some row /\ At b_quadrant i 0 = Some bi
    /\ [[1; 0]]%Q = [row] /\ [[1]]%Q = [[bi]]
    /\ (0 < distance [2; 2]%Q row bi)%Q
    /\ forall j row' bi',
         Row A_quadrant j = Some row' -> At b_quadrant j 0 = Some bi' ->
         violated [2; 2]%Q row' bi' ->
         (distance [2; 2]%Q row' bi' <= distance [2; 2]%Q row bi)%Q
         /\ (j < i ->
             (distance [2; 2]%Q row' bi' < distance [2; 2]%Q row bi)%Q).
Proof.
  apply (mostviolated_returns_farthest [2; 2]%Q A_quadrant b_quadrant
           {| ncols := 2; rows := [[1; 0]]%Q |}
           {| ncols := 1; rows := [[1]]%Q |}).
  - repeat constructor.
  - vm_compute. reflexivity.
Defined.

(** ** The exact solver respects the shapes *)

Lemma pivot_rows (P : list Q -> Prop) (j : nat) (rs : list (list Q))
    (p : list Q) (rest : list (list Q)) :
  pivot j rs = Some (p, rest) ->
  Forall P rs -> P p /\ Forall P rest.
Proof.
  revert p rest. induction rs as [|r rs IH]; intros p rest Hp Hrs; [done|].
  cbn [pivot] in Hp. inversion Hrs as [|? ? Hr Hrs']; subst.
  destruct (Qeq_bool (nth j r 0%Q) 0).
  - destruct (pivot j rs) as [[p' rest']|]; [|done].
    inversion Hp; subst. destruct (IH p rest' eq_refl Hrs') as [? ?].
    split; [done|by constructor].
  - by inversion Hp; subst.
Qed.

Lemma eliminate_length (n j : nat) (done todo r : list (list Q)) :
  eliminate n j done todo = Some r -> length r = (length done + n)%nat.
Proof.
  revert j done todo. induction n as [|n IH]; intros j done todo Hel.
  { inversion Hel; subst. lia. }
  cbn [eliminate] in Hel.
  destruct (pivot j todo) as [[p rest]|]; [|done].
  apply IH in Hel. rewrite Hel, length_app, length_map. simpl. lia.
Qed.

Lemma eliminate_rows (L : Z) (n j : nat) (done todo r : list (list Q)) :
  Forall (fun x => len x = L) done ->
  Forall (fun x => len x = L) todo ->
  eliminate n j done todo = Some r ->
  Forall (fun x => len x = L) r.
Proof.
  revert j done todo. induction n as [|n IH]; intros j done todo Hd Ht Hel.
  { by inversion Hel; subst. }
  cbn [eliminate] in Hel.
  destruct (pivot j todo) as [[p rest]|] eqn:Hp; [|done].
  destruct (pivot_rows _ _ _ _ _ Hp Ht) as [Hlp Hrest].
  assert (Hclear : forall rs,
             Forall (fun x => len x = L) rs ->
             Forall (fun x => len x = L)
               (map (fun r0 =>
                       zip_with (fun x y => Qred (x - nth j r0 0 * y)%Q) r0
                         (map (fun x => Qred (x / nth j p 0)%Q) p)) rs)).
  { intros rs Hrs. apply Forall_map.
    eapply Forall_impl; [exact Hrs|]. intros x Hx. simpl in Hx |- *.
    unfold len in *. rewrite length_zip_with, length_map. lia. }
  eapply IH; [|by apply Hclear|exact Hel].
  apply Forall_app. split; [by apply Hclear|].
  constructor; [|constructor]. unfold len in *. by rewrite length_map.
Qed.

Lemma zip_app_rows (n c : Z) (l1 l2 : list (list Q)) :
  Forall (fun r => len r = n) l1 ->
  Forall (fun r => len r = c) l2 ->
  Forall (fun r => len r = n + c) (zip_with app l1 l2).
Proof.
  intros H1. revert l2.
  induction H1 as [|ra rsa Hra _ IH]; intros rsb HB; [constructor|].
  destruct HB as [|rb rsb Hrb HB]; [constructor|].
  cbn [zip_with]. constructor; [|by apply IH].
  unfold len in *. rewrite length_app. lia.
Qed.

Lemma gauss_length (A B : Dense Q) (X : list (list Q)) :
  gauss A B = Some X -> length X = length (rows A).
Proof.
  unfold gauss. intros Hg.
  destruct (eliminate _ _ _ _) as [reduced|] eqn:Hel; [|done].
  inversion Hg; subst. rewrite length_map.
  apply eliminate_length in Hel. simpl in Hel. lia.
Qed.

Lemma gauss_rows (A B : Dense Q) (X : list (list Q)) (c : Z) :
  0 <= c ->
  Forall (fun r => len r = len (rows A)) (rows A) ->
  Forall (fun r => len r = c) (rows B) ->
  gauss A B = Some X ->
  Forall (fun r => len r = c) X.
Proof.
  unfold gauss. intros Hc HA HB Hg.
  destruct (eliminate _ _ _ _) as [reduced|] eqn:Hel; [|done].
  inversion Hg; subst. apply Forall_map.
  apply (eliminate_rows (len (rows A) + c)) in Hel; [|constructor|].
  - eapply Forall_impl; [exact Hel|]. intros r Hr. simpl in Hr |- *.
    unfold len in *. rewrite length_drop. lia.
  - by apply zip_app_rows.
Qed.

Lemma QInverse_shaped : Inverse_shaped QInverse.
Proof.
  intros M Hsq. unfold QInverse. rewrite Hsq, Z.eqb_refl.
  destruct (gauss M (eye (ncols M))) as [X|] eqn:Hg; [|done].
  cbn [ncols rows]. split; [done|].
  apply gauss_length in Hg. unfold len in *. lia.
Qed.

Lemma QSolve_shaped : Solve_shaped QSolve.
Proof.
  intros A B [HcA HwfA] [HcB HwfB] Hrows Hge. unfold QSolve. cbn [Dims].
  rewrite Hrows, Z.eqb_refl. cbn [negb orb].
  destruct (Z.ltb_spec (len (rows A)) (ncols A)) as [?|_]; [lia|].
  destruct (Z.eqb_spec (len (rows A)) (ncols A)) as [Hsq|Hne].
  - destruct (gauss A B) as [X|] eqn:Hg; [|done].
    cbn [ncols rows]. split; [done|]. split.
    + apply gauss_length in Hg. unfold len in *. lia.
    + split; [done|]. cbn [ncols rows].
      apply (gauss_rows A B); [done|by rewrite Hsq|done..].
  - destruct (Mul_shape (TCopy A) A) as (AtA & -> & HcAtA & HrAtA & HAtA).
    { done. }
    destruct (Mul_shape (TCopy A) B) as (AtB & -> & HcAtB & HrAtB & HAtB).
    { cbn [TCopy ncols]. lia. }
    cbn [lib rbind].
    cbn [TCopy rows] in HrAtA, HrAtB.
    rewrite length_map, length_seq in HrAtA, HrAtB.
    destruct (gauss AtA AtB) as [X|] eqn:Hg; [|done].
    cbn [ncols rows]. split; [done|]. split.
    + apply gauss_length in Hg. unfold len. lia.
    + split; [done|]. cbn [ncols rows].
      apply (gauss_rows AtA AtB); [lia| |  |done].
      * eapply Forall_impl; [exact HAtA|]. intros r Hr. simpl in Hr |- *.
        unfold len. lia.
      * eapply Forall_impl; [exact HAtB|]. intros r Hr. simpl in Hr |- *.
        unfold len. lia.
Qed.

Lemma quadrant_well_formed : well_formed A_quadrant.
Proof. split; [done|]. repeat constructor. Qed.

Lemma OrthoProj_never_panics_witness :
  match OrthoProj QSolve QInverse [2; 2]%Q
          {| ncols := 2; rows := [[1; 0]]%Q |} (colvec [1]%Q) with
  | Ok v => len v = len [2; 2]%Q
  | Failed _ => True
  | Panics => False
  end.
Proof.
  apply (@OrthoProj_never_panics Q Q_Float64 QSolve QInverse
           [2; 2]%Q {| ncols := 2; rows := [[1; 0]]%Q |} [1]%Q).
  - exact QSolve_shaped.
  - exact QInverse_shaped.
  - reflexivity.
  - split; [done|]. repeat constructor.
  - reflexivity.
Defined.

Lemma Nearest_never_panics_witness :
  match QNearest 3 [2; 2]%Q A_quadrant (colvec [1; 1]%Q) with
  | None => True
  | Some (Ok (p, _)) => len p = len [2; 2]%Q
  | Some (Failed _) | Some Panics => False
  end.
Proof.
  apply (@Nearest_never_panics Q Q_Float64 QSolve QInverse
           [2; 2]%Q A_quadrant [1; 1]%Q 3).
  - exact QSolve_shaped.
  - exact QInverse_shaped.
  - reflexivity.
  - exact quadrant_well_formed.
  - reflexivity.
Defined.

(** ** The projection lies on the subspace, in exact arithmetic *)

Section Subspace.

#[local] Open Scope Q_scope.

(** The scalar product by recursion on its arguments. *)
Fixpoint qdot (u v : list Q) : Q :=
  match u, v with
  | a :: u, b :: v => a * b + qdot u v
  | _, _ => 0
  end.

Lemma fold_qdot (u v : list Q) (acc : Q) :
  fold_left (fun acc xy => acc + fst xy * snd xy) (combine u v) acc
  == acc + qdot u v.
Proof.
  revert v acc. induction u as [|a u IH]; intros [|b v] acc; simpl;
    try ring.
  rewrite IH. ring.
Qed.

Lemma dot_qdot (u v : list Q) : dot u v == qdot u v.
Proof.
  pose proof (fold_qdot u v 0) as Hf. unfold dot.
  cbn [f_add f_mul f_lit Q_Float64]. rewrite Hf. ring.
Qed.

Lemma dot_nil_l (v : list Q) : dot [] v = 0.
Proof. reflexivity. Qed.

Lemma dot_nil_r (u : list Q) : dot u [] = 0.
Proof. unfold dot. by rewrite combine_nil. Qed.

Lemma qdot_nil_r (u : list Q) : qdot u [] = 0.
Proof. by destruct u. Qed.

Lemma qdot_proper (u u' v v' : list Q) :
  Forall2 Qeq u u' -> Forall2 Qeq v v' -> qdot u v == qdot u' v'.
Proof.
  intros Hu. revert v v'.
  induction Hu as [|a a' u u' Ha _ IH]; intros v v' Hv; [reflexivity|].
  destruct Hv as [|b b' v v' Hb Hv]; [reflexivity|].
  cbn [qdot]. rewrite Ha, Hb, (IH v v' Hv). reflexivity.
Qed.

Lemma Forall2_Qeq_refl (l : list Q) : Forall2 Qeq l l.
Proof. induction l; constructor; [reflexivity|done]. Qed.

Lemma Forall2_map_In {X Y Z} (R : Y -> Z -> Prop) (f : X -> Y) (g : X -> Z)
    (l : list X) :
  (forall x, In x l -> R (f x) (g x)) -> Forall2 R (map f l) (map g l).
Proof.
  induction l as [|x l IH]; intros HR; [constructor|].
  cbn [map]. constructor; [apply HR; by left|].
  apply IH. intros y Hy. apply HR. by right.
Qed.

Lemma qdot_zero (X : Type) (l : list X) (v : list Q) :
  qdot (map (fun _ => 0) l) v == 0.
Proof.
  revert v. induction l as [|x l IH]; intros [|b v]; simpl; try reflexivity.
  rewrite IH. ring.
Qed.

Lemma qdot_lin_map {X} (a : Q) (f g : X -> Q) (l : list X) (v : list Q) :
  qdot (map (fun j => a * f j + g j) l) v
  == a * qdot (map f l) v + qdot (map g l) v.
Proof.
  revert v. induction l as [|x l IH]; intros [|b v]; simpl; try ring.
  rewrite IH. ring.
Qed.

Lemma qdot_sub_map {X} (u : list Q) (f g : X -> Q) (l : list X) :
  qdot u (map (fun j => f j - g j) l)
  == qdot u (map f l) - qdot u (map g l).
Proof.
  revert u. induction l as [|x l IH]; intros [|a u]; simpl; try ring.
  rewrite IH. ring.
Qed.

Lemma qdot_sub_l (a c v : list Q) :
  length a = length c ->
  qdot (zip_with Qminus a c) v == qdot a v - qdot c v.
Proof.
  revert c v. induction a as [|x a IH]; intros [|y c] v Hlen;
    try done; try (simpl; ring).
  destruct v as [|b v]; simpl; [ring|].
  rewrite IH by (simpl in Hlen; lia). ring.
Qed.

Lemma qdot_sub_r (u a c : list Q) :
  length a = length c ->
  qdot u (zip_with Qminus a c) == qdot u a - qdot u c.
Proof.
  revert u c. induction a as [|x a IH]; intros u [|y c] Hlen;
    try done.
  { simpl. rewrite qdot_nil_r. ring. }
  destruct u as [|b u]; simpl; [ring|].
  rewrite IH by (simpl in Hlen; lia). ring.
Qed.

(** The scalar product with a row of the identity picks a coordinate. *)
Lemma qdot_unit (k s n : nat) (v : list Q) :
  (s <= k < s + n)%nat ->
  qdot (map (fun j => if (k =? j)%nat then 1 else 0) (seq s n)) v
  == nth (k - s) v 0.
Proof.
  revert s v. induction n as [|n IH]; intros s v Hk; [lia|].
  cbn [seq map]. destruct v as [|b v].
  { cbn [qdot]. by destruct (k - s)%nat. }
  cbn [qdot]. destruct (Nat.eqb_spec k s) as [->|Hne].
  - rewrite Nat.sub_diag. cbn [nth].
    assert (Hz : qdot (map (fun j => if (s =? j)%nat then 1 else 0)
                         (seq (S s) n)) v == 0).
    { rewrite <- (qdot_zero nat (seq (S s) n) v).
      apply qdot_proper; [|apply Forall2_Qeq_refl].
      apply Forall2_map_In. intros j Hj. apply in_seq in Hj.
      destruct (Nat.eqb_spec s j); [lia|reflexivity]. }
    rewrite Hz. ring.
  - rewrite (IH (S s) v) by lia.
    replace (k - s)%nat with (S (k - S s)) by lia. cbn [nth]. ring.
Qed.

Lemma map_nth_seq (r pre : list Q) :
  map (fun j => nth j (pre ++ r) 0) (seq (length pre) (length r)) = r.
Proof.
  revert pre. induction r as [|a r IH]; intros pre; [done|].
  cbn [length seq map]. rewrite nth_middle. f_equal.
  specialize (IH (pre ++ [a])).
  rewrite <- app_assoc, length_app in IH. cbn [app length] in IH.
  by rewrite Nat.add_1_r in IH.
Qed.

(** Column [k] of a matrix. *)
Definition col (M : Dense Q) (k : nat) : list Q :=
  omap (fun row : list Q => row !! k) (rows M).

(** The sum over the entries of a matrix weighted by [u] and [v] does not
    depend on the order of summation. *)
Lemma qdot_exchange (n : nat) (rs : list (list Q)) (u v : list Q) :
  Forall (fun r => length r = n) rs ->
  qdot (map (fun j => dot u (omap (fun row : list Q => row !! j) rs))
            (seq 0 n)) v
  == qdot u (map (fun r => dot r v) rs).
Proof.
  intros Hrs. revert u.
  induction Hrs as [|r rs Hr _ IH]; intros u.
  - cbn [omap map].
    rewrite (map_ext _ (fun _ => 0)) by (intros; apply dot_nil_r).
    by rewrite qdot_zero, qdot_nil_r.
  - destruct u as [|u0 us].
    { rewrite (map_ext _ (fun _ => 0)) by (intros; apply dot_nil_l).
      by rewrite qdot_zero. }
    cbn [map qdot].
    rewrite <- (IH us), (dot_qdot r v).
    pose proof (map_nth_seq r []) as Hm. cbn [app length] in Hm.
    rewrite Hr in Hm.
    assert (Hrr : qdot r v = qdot (map (fun j => nth j r 0) (seq 0 n)) v)
      by (by rewrite Hm).
    rewrite Hrr, <- qdot_lin_map.
    apply qdot_proper; [|apply Forall2_Qeq_refl].
    apply Forall2_map_In. intros j Hj. apply in_seq in Hj.
    assert (Hrj : r !! j = Some (nth j r 0)).
    { destruct (nth_lookup_or_length r j 0); [done|lia]. }
    change (omap (fun row : list Q => row !! j) (r :: rs))
      with (match r !! j with
            | Some y => y :: omap (fun row : list Q => row !! j) rs
            | None => omap (fun row : list Q => row !! j) rs
            end).
    rewrite Hrj, !dot_qdot. cbn [qdot]. reflexivity.
Qed.

Lemma zip_with_map_same {X Y Z W} (f : Y -> Z -> W) (g : X -> Y)
    (h : X -> Z) (l : list X) :
  zip_with f (map g l) (map h l) = map (fun x => f (g x) (h x)) l.
Proof.
  induction l as [|x l IH]; [done|]. cbn [map zip_with]. by rewrite IH.
Qed.

Lemma combine_map_same {X Y Z} (g : X -> Y) (h : X -> Z) (l : list X) :
  combine (map g l) (map h l) = map (fun x => (g x, h x)) l.
Proof. induction l as [|x l IH]; [done|]. cbn [map combine]. by rewrite IH. Qed.

Lemma col_length (M : Dense Q) (n k : nat) :
  Forall (fun r => length r = n) (rows M) -> (k < n)%nat ->
  length (col M k) = length (rows M).
Proof.
  unfold col. intros Hrows Hk.
  induction Hrows as [|r rs Hr _ IH]; [done|].
  change (omap (fun row : list Q => row !! k) (r :: rs))
    with (match r !! k with
          | Some y => y :: omap (fun row : list Q => row !! k) rs
          | None => omap (fun row : list Q => row !! k) rs
          end).
  destruct (nth_lookup_or_length r k 0) as [->|?]; [|lia].
  simpl. by rewrite IH.
Qed.

(** Coordinate [k] of the point that [OrthoProj] computes. *)
Definition entry (x0 : list Q) (A : Dense Q) (bs : list Q) (inv : Dense Q)
    (k : nat) : Q :=
  let rb := map (dot (col A k)) (rows (TCopy inv)) in
  dot (zip_with Qminus
         (map (fun j => if (k =? j)%nat then 1 else 0)
              (seq 0 (Z.to_nat (ncols A))))
         (map (dot rb) (rows (TCopy A)))) x0
  + dot rb bs.

Lemma projection_entries (x0 : list Q) (A : Dense Q) (bs : list Q)
    (inv : Dense Q) :
  projection x0 A bs inv
  = map (entry x0 A bs inv) (seq 0 (Z.to_nat (ncols A))).
Proof.
  unfold projection, B_rows, eye. cbn [rows f_sub f_add f_lit Q_Float64].
  unfold len. rewrite !length_map.
  change (rows (TCopy A))
    with (map (col A) (seq 0 (Z.to_nat (ncols A)))).
  rewrite !length_map, length_seq, Nat2Z.id, !map_map.
  rewrite zip_with_map_same, zip_with_map_same.
  reflexivity.
Qed.

(** [inv] is a right inverse of [M], of the shape of [M]. *)
Definition right_inverse (M inv : Dense Q) : Prop :=
  well_formed inv /\ ncols inv = ncols M /\ len (rows inv) = ncols M
  /\ exists P, Mul M inv = Some P
               /\ Forall2 (Forall2 Qeq) (rows P) (rows (eye (ncols M))).

(** The multipliers of the rows of [A] in the projection of [x0]:
    [inv * (A * x0 - b)]. *)
Definition multipliers (x0 : list Q) (A : Dense Q) (bs : list Q)
    (inv : Dense Q) : list Q :=
  map (fun row =>
         dot row (zip_with Qminus (map (fun ra => dot ra x0) (rows A)) bs))
      (rows inv).

Lemma entry_value (x0 : list Q) (A : Dense Q) (bs : list Q) (inv : Dense Q)
    (k : nat) :
  well_formed A -> well_formed inv ->
  length bs = length (rows A) ->
  (k < Z.to_nat (ncols A))%nat ->
  entry x0 A bs inv k
  == nth k x0 0 - qdot (col A k) (multipliers x0 A bs inv).
Proof.
  intros HwfA Hwfi Hbs Hk. unfold entry, multipliers. cbn zeta.
  apply well_formed_rows in HwfA, Hwfi.
  set (n := Z.to_nat (ncols A)) in *.
  set (rb := map (dot (col A k)) (rows (TCopy inv))).
  set (Ax := map (fun ra => dot ra x0) (rows A)).
  rewrite !dot_qdot.
  rewrite qdot_sub_l
    by (unfold TCopy; cbn [rows]; by rewrite !length_map, !length_seq).
  rewrite (qdot_unit k 0 n x0) by lia. rewrite Nat.sub_0_r.
  assert (H1 : qdot (map (dot rb) (rows (TCopy A))) x0 == qdot rb Ax).
  { unfold TCopy. cbn [rows]. rewrite map_map.
    apply (qdot_exchange n (rows A) rb x0 HwfA). }
  assert (H2 : qdot rb (zip_with Qminus Ax bs)
               == qdot (col A k)
                    (map (fun row => dot row (zip_with Qminus Ax bs))
                         (rows inv))).
  { unfold rb, TCopy. cbn [rows]. rewrite map_map.
    apply (qdot_exchange _ (rows inv) (col A k) _ Hwfi). }
  assert (H3 : qdot rb (zip_with Qminus Ax bs) == qdot rb Ax - qdot rb bs).
  { apply qdot_sub_r. unfold Ax. by rewrite length_map. }
  rewrite H1, <- H2, H3. ring.
Qed.

(** For a system of fewer rows than columns, [OrthoProj] returns the
    orthogonal projection of [x0] onto [A x = b] when [mat64.Inverse]
    returns an inverse of [A * A^T]: the point satisfies every equation of
    the system, and it differs from [x0] by a combination of the rows of
    [A]. *)
Theorem OrthoProj_on_subspace
    (Solve : Dense Q -> Dense Q -> result (Dense Q))
    (Inverse : Dense Q -> result (Dense Q))
    (x0 : list Q) (A : Dense Q) (bs : list Q) (AAt inv : Dense Q) :
  well_formed A ->
  ncols A = len x0 ->
  length bs = length (rows A) ->
  (len (rows A) < ncols A)%Z ->
  Mul A (TCopy A) = Some AAt ->
  Inverse AAt = Ok inv ->
  right_inverse AAt inv ->
  exists p,
    OrthoProj Solve Inverse x0 A (colvec bs) = Ok p
    /\ Forall2 (fun ra bi => dot ra p == bi) (rows A) bs
    /\ exists y,
         Forall2 (fun pk xc => pk == fst xc - dot (snd xc) y)
                 p (combine x0 (rows (TCopy A))).
Proof.
  intros HwfA Hn Hbs Hlt HAAt Hinv (Hwfi & Hci & Hri & P & HP & Hid).
  assert (HAAt' : AAt = {| ncols := len (rows A);
                           rows := map (fun ra =>
                                          map (dot ra)
                                              (rows (TCopy (TCopy A))))
                                       (rows A) |}).
  { rewrite Mul_value in HAAt; [by inversion HAAt|].
    unfold TCopy, len in *. cbn [rows].
    rewrite length_map, length_seq. lia. }
  assert (HcAAt : ncols AAt = len (rows A)) by (by rewrite HAAt').
  rewrite HcAAt in Hci, Hri, Hid.
  exists (projection x0 A bs inv).
  split; [by apply (OrthoProj_value Solve Inverse x0 A bs AAt inv)|].
  rewrite projection_entries.
  set (n := Z.to_nat (ncols A)).
  set (y := multipliers x0 A bs inv).
  assert (Hlenx : length x0 = n) by (unfold n, len in *; lia).
  assert (Hx0 : map (fun k => nth k x0 0) (seq 0 n) = x0).
  { rewrite <- Hlenx. apply (map_nth_seq x0 []). }
  assert (Hentry : forall k, In k (seq 0 n) ->
            entry x0 A bs inv k == nth k x0 0 - qdot (col A k) y).
  { intros k Hk. apply in_seq in Hk. apply entry_value; try done.
    fold n. lia. }
  split.
  - apply Forall2_same_length_lookup_2; [done|].
    intros i ra bi Hra Hbi.
    assert (Hi : (i < length (rows A))%nat) by (by eapply lookup_lt_Some).
    rewrite dot_qdot.
    rewrite (qdot_proper ra ra _
               (map (fun k => nth k x0 0 - qdot (col A k) y) (seq 0 n)))
      by (try apply Forall2_Qeq_refl; by apply Forall2_map_In).
    rewrite qdot_sub_map, Hx0.
    set (AAti := map (dot ra) (rows (TCopy (TCopy A)))).
    assert (H1 : qdot ra (map (fun k => qdot (col A k) y) (seq 0 n))
                 == qdot AAti y).
    { rewrite (qdot_proper ra ra _
                 (map (fun c => dot c y) (rows (TCopy A))));
        [|apply Forall2_Qeq_refl|].
      2:{ unfold TCopy at 1. cbn [rows]. rewrite map_map.
          apply Forall2_map_In. intros k _. symmetry. apply dot_qdot. }
      rewrite <- (qdot_exchange (length (rows A)) (rows (TCopy A)) ra y).
      - unfold AAti. unfold TCopy at 3. cbn [rows ncols TCopy].
        rewrite map_map. unfold len. by rewrite Nat2Z.id.
      - unfold TCopy. cbn [rows]. apply Forall_map, Forall_forall.
        intros k Hk. apply list_elem_of_In, in_seq in Hk.
        apply (col_length A n); [by apply well_formed_rows|lia]. }
    assert (H2 : qdot AAti y
                 == qdot (map (dot AAti) (rows (TCopy inv)))
                      (zip_with Qminus
                         (map (fun ra => dot ra x0) (rows A)) bs)).
    { unfold y, multipliers. unfold TCopy. cbn [rows]. rewrite map_map.
      symmetry. apply qdot_exchange. by apply well_formed_rows. }
    assert (HPi : Forall2 Qeq (map (dot AAti) (rows (TCopy inv)))
                    (map (fun j => if (i =? j)%nat then 1 else 0)
                         (seq 0 (length (rows A))))).
    { rewrite Mul_value in HP by lia. inversion HP as [HP']. clear HP.
      rewrite <- HP' in Hid. cbn [rows] in Hid.
      eapply (Forall2_lookup_lr _ _ _ i) in Hid; [exact Hid| |].
      - rewrite HAAt'. cbn [rows]. by rewrite !lookup_map, Hra.
      - unfold eye. cbn [rows f_lit Q_Float64]. unfold len.
        rewrite Nat2Z.id, lookup_map, lookup_seq_lt by done. done. }
    rewrite H1, H2, (qdot_proper _ _ _ _ HPi (Forall2_Qeq_refl _)).
    rewrite (qdot_unit i 0 (length (rows A))) by lia. rewrite Nat.sub_0_r.
    rewrite (nth_lookup_Some _ _ _ (dot ra x0 - bi)).
    + rewrite dot_qdot. ring.
    + by rewrite lookup_zip_with, lookup_map, Hra, Hbi.
  - exists y.
    assert (Hcomb : combine x0 (rows (TCopy A))
                    = map (fun k => (nth k x0 0, col A k)) (seq 0 n)).
    { rewrite <- Hx0 at 1. apply combine_map_same. }
    rewrite Hcomb. apply Forall2_map_In. intros k Hk.
    cbn [fst snd]. rewrite dot_qdot. by apply Hentry.
Qed.

End Subspace.

(** The line [x + y = 1] of the plane. *)
Definition A_line : Dense Q := {| ncols := 2; rows := [[1; 1]]%Q |}.

Lemma OrthoProj_on_subspace_witness :
  exists p,
    OrthoProj QSolve QInverse [2; 2]%Q A_line (colvec [1]%Q) = Ok p
    /\ Forall2 (fun ra bi => (dot ra p == bi)%Q) (rows A_line) [1]%Q
    /\ exists y,
         Forall2 (fun pk xc => (pk == fst xc - dot (snd xc) y)%Q)
                 p (combine [2; 2]%Q (rows (TCopy A_line))).
Proof.
  apply (OrthoProj_on_subspace QSolve QInverse [2; 2]%Q A_line [1]%Q
           {| ncols := 1; rows := [[2]]%Q |}
           {| ncols := 1; rows := [[1 # 2]]%Q |}).
  - split; [done|repeat constructor].
  - reflexivity.
  - reflexivity.
  - reflexivity.
  - vm_compute. reflexivity.
  - vm_compute. reflexivity.
  - split; [split; [done|repeat constructor]|].
    split; [reflexivity|]. split; [reflexivity|].
    eexists. split; [reflexivity|].
    repeat constructor; vm_compute; reflexivity.
Defined.

(** ** Distance in units in the last place

    [DiffInUlps] of the tests of the package.  It reads the floats through
    [math.IsNaN], [math.IsInf], [==] and [math.Float64bits], which are
    parameters here. *)
Section Ulps.

Context {float64 : Type}.
Variable IsNaN : float64 -> bool.
Variable IsInf : float64 -> Z -> bool.
Variable float_eq : float64 -> float64 -> bool.
Variable Float64bits : float64 -> Z.

Definition MaxInt64 : Z := 2 ^ 63 - 1.

(** The conversion to [uint64]. *)
Definition uint64 (x : Z) : Z := x mod 2 ^ 64.

Definition DiffInUlps (x y : float64) : Z :=
  if IsNaN x || IsNaN y || IsInf x 0 || IsInf y 0 then uint64 MaxInt64
  else if float_eq x y then 0
  else
    let xi := Float64bits x in
    let yi := Float64bits y in
    if xi >? yi then uint64 (xi - yi) else uint64 (yi - xi).

(** Neither argument is a NaN or an infinity. *)
Definition finite (x : float64) : Prop :=
  IsNaN x = false /\ IsInf x 0 = false.

(** [DiffInUlps] is zero exactly on two finite floats that compare equal:
    two equal infinities are [math.MaxInt64] apart.  Bit patterns are
    64-bit, and floats that are no NaN and compare different have different
    bit patterns. *)
Theorem DiffInUlps_zero_iff (x y : float64) :
  (forall z, 0 <= Float64bits z < 2 ^ 64) ->
  (forall u v, IsNaN u = false -> IsNaN v = false ->
               float_eq u v = false -> Float64bits u <> Float64bits v) ->
  DiffInUlps x y = 0 <-> finite x /\ finite y /\ float_eq x y = true.
Proof.
  intros Hbits Hneq. unfold DiffInUlps, finite.
  destruct (IsNaN x) eqn:Hnx; cbn [orb]; [split; [done|by intros [[? _] _]]|].
  destruct (IsNaN y) eqn:Hny; cbn [orb];
    [split; [done|by intros (_ & [? _] & _)]|].
  destruct (IsInf x 0) eqn:Hix; cbn [orb];
    [split; [done|by intros [[_ ?] _]]|].
  destruct (IsInf y 0) eqn:Hiy; cbn [orb];
    [split; [done|by intros (_ & [_ ?] & _)]|].
  destruct (float_eq x y) eqn:Heq; [done|].
  pose proof (Hbits x) as Hx. pose proof (Hbits y) as Hy.
  pose proof (Hneq x y Hnx Hny Heq) as Hne.
  split; [|by intros (_ & _ & ?)].
  intros Hzero. exfalso. unfold uint64 in Hzero.
  destruct (Z.gtb_spec (Float64bits x) (Float64bits y)).
  - rewrite Z.mod_small in Hzero; lia.
  - rewrite Z.mod_small in Hzero; lia.
Qed.

(** [DiffInUlps] does not depend on the order of its arguments, [==] being
    symmetric. *)
Theorem DiffInUlps_symmetric (x y : float64) :
  (forall u v, float_eq u v = float_eq v u) ->
  DiffInUlps x y = DiffInUlps y x.
Proof.
  intros Hsym. unfold DiffInUlps. rewrite (Hsym y x).
  destruct (IsNaN x), (IsNaN y), (IsInf x 0), (IsInf y 0); cbn [orb];
    try reflexivity.
  destruct (float_eq x y); [done|]. cbn zeta.
  destruct (Z.gtb_spec (Float64bits x) (Float64bits y)),
           (Z.gtb_spec (Float64bits y) (Float64bits x));
    try reflexivity; try lia.
  f_equal. lia.
Qed.

End Ulps.

(** *** Floats as IEEE 754 bit patterns *)

(** The exponent and the fraction of a 64-bit pattern. *)
Definition exponent (b : Z) : Z := Z.land (Z.shiftr b 52) 2047.
Definition fraction (b : Z) : Z := Z.land b (2 ^ 52 - 1).

Definition ieee_bits (b : Z) : Z := b mod 2 ^ 64.

Definition ieee_IsNaN (b : Z) : bool :=
  (exponent (ieee_bits b) =? 2047) && negb (fraction (ieee_bits b) =? 0).

Definition ieee_IsInf (b : Z) (sign : Z) : bool :=
  (exponent (ieee_bits b) =? 2047) && (fraction (ieee_bits b) =? 0)
  && ((sign =? 0)
      || ((0 <? sign) && negb (Z.testbit (ieee_bits b) 63))
      || ((sign <? 0) && Z.testbit (ieee_bits b) 63)).

Definition ieee_zero (b : Z) : bool := Z.land (ieee_bits b) (2 ^ 63 - 1) =? 0.

(** [==]: a NaN equals nothing, the two zeros are equal, and otherwise the
    bit patterns decide. *)
Definition ieee_eq (a b : Z) : bool :=
  negb (ieee_IsNaN a) && negb (ieee_IsNaN b)
  && ((ieee_bits a =? ieee_bits b) || (ieee_zero a && ieee_zero b)).

Definition ieee_DiffInUlps : Z -> Z -> Z :=
  DiffInUlps ieee_IsNaN ieee_IsInf ieee_eq ieee_bits.

Lemma ieee_bits_range (z : Z) : 0 <= ieee_bits z < 2 ^ 64.
Proof. unfold ieee_bits. apply Z.mod_pos_bound. lia. Qed.

Lemma ieee_eq_sym (u v : Z) : ieee_eq u v = ieee_eq v u.
Proof.
  unfold ieee_eq.
  rewrite (Z.eqb_sym (ieee_bits u)), (andb_comm (ieee_zero u)).
  by rewrite (andb_comm (negb (ieee_IsNaN u))).
Qed.

Lemma ieee_neq_bits (u v : Z) :
  ieee_IsNaN u = false -> ieee_IsNaN v = false ->
  ieee_eq u v = false -> ieee_bits u <> ieee_bits v.
Proof.
  unfold ieee_eq. intros -> -> Heq Hb. cbn [negb andb] in Heq.
  apply Z.eqb_eq in Hb. by rewrite Hb in Heq.
Qed.

(** [1.0] and the next float above it are one unit apart; the smallest
    positive float and its negative are [2^63] apart. *)
Example DiffInUlps_adjacent :
  ieee_DiffInUlps 4607182418800017408 4607182418800017409 = 1
  /\ ieee_DiffInUlps 1 (2 ^ 63 + 1) = 2 ^ 63.
Proof. split; vm_compute; reflexivity. Qed.

Lemma DiffInUlps_zero_iff_witness :
  ieee_DiffInUlps 0 (2 ^ 63) = 0
  <-> finite ieee_IsNaN ieee_IsInf 0
      /\ finite ieee_IsNaN ieee_IsInf (2 ^ 63)
      /\ ieee_eq 0 (2 ^ 63) = true.
Proof.
  apply (DiffInUlps_zero_iff ieee_IsNaN ieee_IsInf ieee_eq ieee_bits
           0 (2 ^ 63)).
  - exact ieee_bits_range.
  - exact ieee_neq_bits.
Defined.

Lemma DiffInUlps_symmetric_witness :
  ieee_DiffInUlps 4607182418800017408 4611686018427387904
  = ieee_DiffInUlps 4611686018427387904 4607182418800017408.
Proof.
  apply (DiffInUlps_symmetric ieee_IsNaN ieee_IsInf ieee_eq ieee_bits).
  exact ieee_eq_sym.
Defined.

End Mesh.
